(** * HomeyScript: the script registry, the token registry and the run engine

    A shallow embedding of the application class [HomeyScriptApp].  Two
    revisions of the class are part of the repository: [src/app.js] (module
    [App] below) and [src/unnamed/part_000] (module [Part000]).  Whatever the
    two revisions share literally (the token registry, [getScript],
    [deleteScript], the capability functions of a run) is embedded once, in
    module [Core].

    JavaScript objects used as dictionaries are finite maps of their own
    properties; the script registry, whose iteration order is observable
    through the autocomplete listener, is an association list kept in
    own-property order.  A read [o[id]] that finds no own property goes on to
    the members of [Object.prototype] ([JS.member_of]), and the assignment
    [this.scripts[id] = ...] of the updates runs the inherited setter for
    [__proto__] ([Platform.scripts_assign]).  The methods
    are written in a state-and-exception monad over a [world] holding the
    fields of the application object, the settings store and a trace of the
    calls made to the platform. *)

From Stdlib Require Import ZArith NArith Ascii String List Bool.
From stdpp Require Import gmap strings list fin_maps.

Local Open Scope string_scope.
Local Open Scope Z_scope.

(* ===================================================================== *)
(** ** JavaScript values                                                   *)
(* ===================================================================== *)

Module JS.

(** The realm an [Error] object was created in: the application's own, or
    the context of a [vm.Script]. *)
Inductive Realm := Host | Guest.

(** An [Error] object.  [err_name] (the constructor) and [err_code] are the
    parts of an error that are not its message or its stack; [err_stack] is
    [None] when the property holds [undefined]. *)
Record ErrorObj := MkError {
  err_name : string;
  err_message : string;
  err_stack : option string;
  err_code : option string;
  err_realm : Realm
}.

(** The values that the modelled methods handle.  Numbers are the
    integer-valued ones; a [Date] carries its time value, [None] being the
    time value [NaN] of an invalid date. *)
Inductive jsval :=
| VUndefined
| VNull
| VBool (b : bool)
| VNum (n : Z)
| VStr (s : string)
| VDate (t : option Z)
| VError (e : ErrorObj).

(** An object literal used as a record: property name to value. *)
Abbreviation obj := (gmap string jsval).

(** [o.p]: a missing property reads as [undefined]. *)
Definition prop (o : obj) (p : string) : jsval := default VUndefined (o !! p).

(** [typeof v] *)
Definition typeof (v : jsval) : string :=
  match v with
  | VUndefined => "undefined"
  | VNull => "object"
  | VBool _ => "boolean"
  | VNum _ => "number"
  | VStr _ => "string"
  | VDate _ => "object"
  | VError _ => "object"
  end.

(** [v == null] *)
Definition nullish (v : jsval) : bool :=
  match v with VUndefined | VNull => true | _ => false end.

(** [typeof v === 'string'] *)
Definition is_string (v : jsval) : bool :=
  match v with VStr _ => true | _ => false end.

(** [TimeClip]: a time value outside of +-8.64e15 ms is [NaN]. *)
Definition time_clip (t : Z) : option Z :=
  if (Z.abs t <=? 8640000000000000) then Some t else None.

(** [{...o}], where [o] may be [undefined] *)
Definition spread (o : option obj) : obj := default ∅ o.

(** [{...a, ...b}]: the properties of [b] win. *)
Definition spread2 (a b : obj) : obj := b ∪ a.

(** *** What a plain object inherits

    [this.scripts], [this.tokens] and [this.tokensInstances] are plain
    objects: an object literal, or an object read from the settings.  A read
    [o[k]] for a [k] that is no own property of [o] finds the property that
    [Object.prototype] has under that name, if it has one: a function, or for
    [__proto__] the object [Object.prototype] itself.  These are the names in
    Node. *)
Definition Object_prototype_names : list string :=
  [ "constructor"; "__defineGetter__"; "__defineSetter__"; "hasOwnProperty";
    "__lookupGetter__"; "__lookupSetter__"; "isPrototypeOf"; "propertyIsEnumerable";
    "toString"; "valueOf"; "__proto__"; "toLocaleString" ].

Definition inherited (k : string) : bool :=
  existsb (String.eqb k) Object_prototype_names.

(** What [o[k]] finds: an own property, a member of [Object.prototype], or
    nothing ([undefined]). *)
Inductive member (A : Type) :=
| Own (a : A)
| Inherited
| Missing.
Arguments Own {A} a.
Arguments Inherited {A}.
Arguments Missing {A}.

(** [o[k]], from the own property of [o] under [k], if any. *)
Definition member_of {A} (own : option A) (k : string) : member A :=
  match own with
  | Some a => Own a
  | None => if inherited k then Inherited else Missing
  end.

(** *** Strings

    A [string] stands for a well-formed JavaScript string by the bytes of its
    UTF-8 form: the characters of the ASCII range are the bytes below 128,
    and one string occurs in another exactly when its bytes do. *)

Definition lower_ascii (c : ascii) : ascii :=
  let n := N_of_ascii c in
  if ((65 <=? n) && (n <=? 90))%N then ascii_of_N (n + 32) else c.

Definition is_ascii (c : ascii) : bool := (N_of_ascii c <? 128)%N.

(** Every character of [s] is in the ASCII range. *)
Fixpoint ascii_only (s : string) : bool :=
  match s with
  | EmptyString => true
  | String c s' => is_ascii c && ascii_only s'
  end.

(** [s.toLowerCase()] for a string of the ASCII range: the letters [A] to
    [Z] become [a] to [z], and nothing else changes. *)
Fixpoint ascii_toLowerCase (s : string) : string :=
  match s with
  | EmptyString => EmptyString
  | String c s' => String (lower_ascii c) (ascii_toLowerCase s')
  end.

(** [s.startsWith(p)] *)
Fixpoint startsWith (s p : string) {struct p} : bool :=
  match p, s with
  | EmptyString, _ => true
  | String _ _, EmptyString => false
  | String a p', String b s' => if Ascii.eqb a b then startsWith s' p' else false
  end.

(** [s.includes(q)] *)
Fixpoint includes (s q : string) : bool :=
  if startsWith s q then true
  else match s with
       | EmptyString => false
       | String _ s' => includes s' q
       end.

(** [s.substring(n)] for [n] within the string. *)
Fixpoint substring_from (n : nat) (s : string) : string :=
  match n, s with
  | O, _ => s
  | S n', String _ s' => substring_from n' s'
  | S _, EmptyString => EmptyString
  end.

End JS.
Export JS.

(* ===================================================================== *)
(** ** The script registry: an object in own-property order                *)
(* ===================================================================== *)

Module Registry.

(** [this.scripts] is a plain object whose keys are script ids.  Its entries
    are kept here in the order [Object.keys], [Object.values] and
    [Object.entries] enumerate them: array-index keys first, ascending, then
    the other keys in the order they were created.  The members the object
    inherits from [Object.prototype] are no entries: a read of
    [this.scripts[id]] that finds no entry goes on to them ([JS.member_of]). *)
Abbreviation registry := (list (string * obj)).

Definition digit_of (c : ascii) : option N :=
  let n := N_of_ascii c in
  if ((48 <=? n) && (n <=? 57))%N then Some (n - 48)%N else None.

Fixpoint parse_digits (acc : N) (s : string) : option N :=
  match s with
  | EmptyString => Some acc
  | String c s' =>
      match digit_of c with
      | Some d => parse_digits (10 * acc + d)%N s'
      | None => None
      end
  end.

(** A key is an array index when it is the canonical decimal form of an
    integer below [2^32 - 1]. *)
Definition array_index (k : string) : option N :=
  match k with
  | EmptyString => None
  | String c s' =>
      if Ascii.eqb c "0"%char then
        match s' with EmptyString => Some 0%N | _ => None end
      else
        match parse_digits 0 k with
        | Some n => if (n <? 4294967295)%N then Some n else None
        | None => None
        end
  end.

(** [r[k]] *)
Fixpoint get (k : string) (r : registry) : option obj :=
  match r with
  | [] => None
  | (k', v) :: r' => if String.eqb k k' then Some v else get k r'
  end.

Fixpoint mem (k : string) (r : registry) : bool :=
  match r with
  | [] => false
  | (k', _) :: r' => if String.eqb k k' then true else mem k r'
  end.

(** Assignment to an existing property keeps its place. *)
Fixpoint replace (k : string) (v : obj) (r : registry) : registry :=
  match r with
  | [] => []
  | (k', v') :: r' =>
      if String.eqb k k' then (k', v) :: r' else (k', v') :: replace k v r'
  end.

(** The place of a new array-index key [n]: before the first key that is not
    an array index or is a larger one. *)
Fixpoint insert_index (n : N) (k : string) (v : obj) (r : registry) : registry :=
  match r with
  | [] => [(k, v)]
  | (k', v') :: r' =>
      match array_index k' with
      | Some n' =>
          if (n <? n')%N then (k, v) :: (k', v') :: r'
          else (k', v') :: insert_index n k v r'
      | None => (k, v) :: (k', v') :: r'
      end
  end.

(** [r[k] = v] when this makes or changes an own property: for every key
    but [__proto__], and for [__proto__] when it is an own property. *)
Definition set (k : string) (v : obj) (r : registry) : registry :=
  if mem k r then replace k v r
  else match array_index k with
       | Some n => insert_index n k v r
       | None => r ++ [(k, v)]
       end.

(** [delete r[k]] *)
Fixpoint remove (k : string) (r : registry) : registry :=
  match r with
  | [] => []
  | (k', v') :: r' =>
      if String.eqb k k' then remove k r' else (k', v') :: remove k r'
  end.

Definition keys (r : registry) : list string := map fst r.
Definition values (r : registry) : list obj := map snd r.
Definition entries (r : registry) : registry := r.

End Registry.

(* ===================================================================== *)
(** ** The application object, the platform and the method monad           *)
(* ===================================================================== *)

Module Platform.
Import Registry.

(** A persisted token: [{ type, value }]. *)
Record TokenEntry := MkEntry { te_type : jsval; te_value : jsval }.

(** The object [homey.flow.createToken] resolves to. *)
Record FlowToken := MkToken { ft_id : string; ft_type : jsval }.

(** An element of [this.migrations]: [{ done: true }]. *)
Record Marker := MkMarker { done : bool }.

(** The settings store, by key: ['scripts'], ['tokens'], ['migrations'], and
    every other key (the [homeyscript-] keys of the [global] capability). *)
Record Settings := MkSettings {
  st_scripts : option registry;
  st_tokens : option (gmap string TokenEntry);
  st_migrations : option (list (option Marker));
  st_values : gmap string jsval
}.

(** What a run leaves outside of the application object. *)
Inductive event :=
| EvLog (args : list jsval)                     (* this.log(...args) *)
| EvError (args : list jsval)                   (* this.error(...args) *)
| EvRealtime (text : string) (script : jsval)   (* homey.api.realtime('log', ...) *)
| EvCreateToken (id : string) (type value : jsval)
| EvUnregister (id : string)
| EvSetValue (id : string) (value : jsval)
| EvSay (api : nat) (text : jsval)
| EvApiCreate (api : nat)                       (* new HomeyAPI(...) *)
| EvApiDestroy (api : nat)                      (* homeyAPI.destroy() *)
| EvSetPrototype (proto : obj)                  (* this.scripts.__proto__ = proto *)
| EvBuiltinWrite (member property : string) (value : jsval).
                                                (* Object.prototype[member][property] = value,
                                                   for [__proto__]: Object.prototype[property] = value *)

(** The fields of the application object, the settings store, and the
    platform: the trace of calls, the answers the platform will give to the
    calls that can fail ([None]: the call succeeds; [Some e]: it rejects with
    [e]; no answer left: it succeeds), the clock, and the host-API objects
    created and not yet destroyed.

    A world stands for a state in which the three registries have
    [Object.prototype] as prototype and the built-in objects are as Node
    starts them.  The two steps that leave these states, a new prototype for
    [this.scripts] and a write to a property of a built-in object, are
    recorded in the trace ([EvSetPrototype], [EvBuiltinWrite]) and not
    followed further. *)
Record world := MkWorld {
  scripts : registry;
  migrations : list (option Marker);
  tokens : gmap string TokenEntry;
  tokensInstances : gmap string FlowToken;
  settings : Settings;
  trace : list event;
  oracle : list (option jsval);
  now : Z;
  api_next : nat;
  api_live : gset nat;
  uuid_next : nat
}.

Definition with_scripts (r : registry) (w : world) : world :=
  MkWorld r (migrations w) (tokens w) (tokensInstances w) (settings w)
          (trace w) (oracle w) (now w) (api_next w) (api_live w) (uuid_next w).
Definition with_migrations (m : list (option Marker)) (w : world) : world :=
  MkWorld (scripts w) m (tokens w) (tokensInstances w) (settings w)
          (trace w) (oracle w) (now w) (api_next w) (api_live w) (uuid_next w).
Definition with_tokens (t : gmap string TokenEntry) (w : world) : world :=
  MkWorld (scripts w) (migrations w) t (tokensInstances w) (settings w)
          (trace w) (oracle w) (now w) (api_next w) (api_live w) (uuid_next w).
Definition with_tokensInstances (t : gmap string FlowToken) (w : world) : world :=
  MkWorld (scripts w) (migrations w) (tokens w) t (settings w)
          (trace w) (oracle w) (now w) (api_next w) (api_live w) (uuid_next w).
Definition with_settings (s : Settings) (w : world) : world :=
  MkWorld (scripts w) (migrations w) (tokens w) (tokensInstances w) s
          (trace w) (oracle w) (now w) (api_next w) (api_live w) (uuid_next w).
Definition with_trace (t : list event) (w : world) : world :=
  MkWorld (scripts w) (migrations w) (tokens w) (tokensInstances w) (settings w)
          t (oracle w) (now w) (api_next w) (api_live w) (uuid_next w).
Definition with_oracle (o : list (option jsval)) (w : world) : world :=
  MkWorld (scripts w) (migrations w) (tokens w) (tokensInstances w) (settings w)
          (trace w) o (now w) (api_next w) (api_live w) (uuid_next w).
Definition with_now (t : Z) (w : world) : world :=
  MkWorld (scripts w) (migrations w) (tokens w) (tokensInstances w) (settings w)
          (trace w) (oracle w) t (api_next w) (api_live w) (uuid_next w).
Definition with_api (n : nat) (l : gset nat) (w : world) : world :=
  MkWorld (scripts w) (migrations w) (tokens w) (tokensInstances w) (settings w)
          (trace w) (oracle w) (now w) n l (uuid_next w).
Definition with_uuid_next (n : nat) (w : world) : world :=
  MkWorld (scripts w) (migrations w) (tokens w) (tokensInstances w) (settings w)
          (trace w) (oracle w) (now w) (api_next w) (api_live w) n.

(** How a method call ends: it returns (an [async] method resolves), or it
    throws (rejects) with a value. *)
Inductive completion (A : Type) :=
| Normal (a : A)
| Throw (v : jsval).
Arguments Normal {A} a.
Arguments Throw {A} v.

Definition M (A : Type) : Type := world -> completion A * world.

#[export] Instance M_ret : MRet M := fun A a w => (Normal a, w).
#[export] Instance M_bind : MBind M := fun A B f m w =>
  match m w with
  | (Normal a, w') => f a w'
  | (Throw v, w') => (Throw v, w')
  end.
#[export] Instance M_throw : MThrow jsval M := fun A v w => (Throw v, w).

Definition get_world : M world := fun w => (Normal w, w).
Definition modify (f : world -> world) : M unit := fun w => (Normal tt, f w).
Definition emit (e : event) : M unit :=
  modify (fun w => with_trace (trace w ++ [e])%list w).

(** [try { m } catch (err) { h err }] *)
Definition try_catch {A} (m : M A) (h : jsval -> M A) : M A := fun w =>
  match m w with
  | (Normal a, w') => (Normal a, w')
  | (Throw v, w') => h v w'
  end.

(** [try { m } finally { f }]: [f] runs however [m] ends; the completion of
    [m] stands unless [f] throws. *)
Definition finally {A} (m : M A) (f : M unit) : M A := fun w =>
  match m w with
  | (r, w') =>
      match f w' with
      | (Normal _, w'') => (r, w'')
      | (Throw v, w'') => (Throw v, w'')
      end
  end.

(** The completion of [m] as a value: what [await] hands to code that goes
    on after a rejection. *)
Definition attempt {A} (m : M A) : M (completion A) := fun w =>
  match m w with (r, w') => (Normal r, w') end.

(** [this.log(...args)] and [this.error(...args)] *)
Definition app_log (args : list jsval) : M unit := emit (EvLog args).
Definition app_error (args : list jsval) : M unit := emit (EvError args).

(** [promise.catch(this.error)] *)
Definition catch_error (m : M unit) : M unit :=
  try_catch m (fun err => app_error [err]).

(** The next answer of the platform. *)
Definition ask : M (option jsval) := fun w =>
  match oracle w with
  | [] => (Normal None, w)
  | a :: rest => (Normal a, with_oracle rest w)
  end.

Definition answer : M unit :=
  a ← ask;
  match a with
  | None => mret tt
  | Some e => mthrow e
  end.

(** [homey.flow.createToken(id, { type, value, title: id })] *)
Definition flow_createToken (id : string) (type value : jsval) : M FlowToken :=
  emit (EvCreateToken id type value);;
  answer;;
  mret (MkToken id type).

(** [token.unregister()] and [token.setValue(value)] *)
Definition token_unregister (h : FlowToken) : M unit :=
  emit (EvUnregister (ft_id h));; answer.
Definition token_setValue (h : FlowToken) (value : jsval) : M unit :=
  emit (EvSetValue (ft_id h) value);; answer.

(** [homey.settings.set('scripts', this.scripts)], and the like *)
Definition settings_set_scripts : M unit :=
  modify (fun w =>
    let s := settings w in
    with_settings (MkSettings (Some (scripts w)) (st_tokens s) (st_migrations s) (st_values s)) w).
Definition settings_set_tokens : M unit :=
  modify (fun w =>
    let s := settings w in
    with_settings (MkSettings (st_scripts s) (Some (tokens w)) (st_migrations s) (st_values s)) w).
(** [this.scripts[id] = script].  For the key [__proto__], when the registry
    has no own property of that name, the assignment runs the setter that
    [Object.prototype] has for it: [script] becomes the prototype of the
    registry, and no property is made. *)
Definition sets_prototype (id : string) (r : registry) : bool :=
  negb (mem id r) && String.eqb id "__proto__".

Definition scripts_assign (id : string) (script : obj) : M unit :=
  w ← get_world;
  if sets_prototype id (scripts w) then emit (EvSetPrototype script)
  else modify (with_scripts (set id script (scripts w))).

Definition settings_set_migrations : M unit :=
  modify (fun w =>
    let s := settings w in
    with_settings (MkSettings (st_scripts s) (st_tokens s) (Some (migrations w)) (st_values s)) w).

(** [homey.settings.get(key)] and [homey.settings.set(key, value)] for the
    keys that are none of the three above. *)
Definition settings_get (key : string) : M jsval :=
  w ← get_world; mret (prop (st_values (settings w)) key).
Definition settings_set (key : string) (value : jsval) : M unit :=
  modify (fun w =>
    let s := settings w in
    with_settings (MkSettings (st_scripts s) (st_tokens s) (st_migrations s)
                              (<[key := value]> (st_values s))) w).

Definition key_if_set {A} (key : string) (o : option A) : list string :=
  match o with Some _ => [key] | None => [] end.

(** [homey.settings.getKeys()] *)
Definition settings_getKeys : M (list string) :=
  w ← get_world;
  let s := settings w in
  mret (key_if_set "scripts" (st_scripts s)
        ++ key_if_set "tokens" (st_tokens s)
        ++ key_if_set "migrations" (st_migrations s)
        ++ map fst (map_to_list (st_values s)))%list.

(** A host error: [new Error(message)] made by the application, with the
    stack the host captures at [site]. *)
Definition host_error (stack_at : string -> string -> string)
    (name site message : string) : ErrorObj :=
  MkError name message (Some (stack_at site message)) None Host.

End Platform.

(* ===================================================================== *)
(** ** What the two revisions share                                        *)
(* ===================================================================== *)

Module Core.
Import Registry.
Export Platform.

(** [static RUN_TIMEOUT = 1000 * 30] *)
Definition RUN_TIMEOUT : Z := 1000 * 30.

(** The data properties of the context object of a run. *)
Record RunContext := MkContext {
  ctx_args : list jsval;
  ctx_filename : string;
  ctx_script_id : jsval;
  ctx_last_executed : jsval;
  ctx_ms_since_last_executed : option Z
}.

(** What the code of a script does with the functions of its context, up to
    the value it returns, the value it throws, or the deadline of the VM.  A
    call that is awaited hands its completion to the rest of the code, which
    may go on after a rejection ([try]/[catch] in the script). *)
Inductive prog :=
| PReturn (v : jsval)
| PThrow (v : jsval)
| PTimeout
| PLog (props : list jsval) (k : prog)
| PSay (text : jsval) (k : completion jsval -> prog)
| PTag (id : string) (value : jsval) (k : completion unit -> prog)
| PWait (delay : Z) (k : prog)
| PGlobalGet (key : string) (k : jsval -> prog)
| PGlobalSet (key : string) (value : jsval) (k : prog)
| PGlobalKeys (k : list string -> prog)
| PSetTagValue (id : string) (opts : option obj) (value : jsval)
               (k : completion unit -> prog).

(** The parts of the JavaScript engine and of the libraries that the methods
    call and that are no code of the application. *)
Record Engine := MkEngine {
  (** [Date.parse] *)
  parseDate : string -> option Z;
  (** [String(v)] for a [v] that is neither a string, [undefined], [null] nor
      a boolean *)
  to_display : jsval -> string;
  (** [util.format(...props)] *)
  util_format : list jsval -> string;
  (** [JSON.stringify(v, false, 2)] *)
  json_stringify : jsval -> jsval;
  (** the stack that [new Error(message)] captures at a place of the
      application *)
  host_stack : string -> string -> string;
  (** [new vm.Script(source, { filename, ... })]: a [SyntaxError], or the
      behaviour of the code in a context *)
  compile : string -> string -> ErrorObj + (RunContext -> prog);
  (** the error with which the VM ends a run at the deadline *)
  timeout_error : Z -> ErrorObj;
  (** [uuid.v4()], by the number of ids drawn before *)
  uuid_v4 : nat -> string;
  (** [s.toLowerCase()] for a string that has characters outside of the ASCII
      range: the case mapping of Unicode *)
  toLowerCase_unicode : string -> string
}.

(** What the VM reports of a run: the deadline passed, or the promise of the
    wrapped code settled. *)
Inductive vm_result :=
| VmTimeout
| VmSettled (r : completion jsval).

Section WithEngine.
Context (E : Engine).

(** [String(v)], as in a template literal *)
Definition to_string (v : jsval) : string :=
  match v with
  | VStr s => s
  | VUndefined => "undefined"
  | VNull => "null"
  | VBool true => "true"
  | VBool false => "false"
  | _ => to_display E v
  end.

(** [s.toLowerCase()] *)
Definition toLowerCase (s : string) : string :=
  if ascii_only s then ascii_toLowerCase s else toLowerCase_unicode E s.

(** The time value of [new Date(v)] *)
Definition new_Date (v : jsval) : option Z :=
  match v with
  | VUndefined => None
  | VNull => Some 0
  | VBool b => Some (if b then 1 else 0)
  | VNum n => time_clip n
  | VStr s => parseDate E s
  | VDate t => t
  | VError _ => parseDate E (to_display E v)
  end.

(** The time value of [new Date()] *)
Definition Date_now : M Z := w ← get_world; mret (now w).

Definition new_Error (site message : string) : jsval :=
  VError (host_error (host_stack E) "Error" site message).
Definition new_TypeError (site message : string) : jsval :=
  VError (host_error (host_stack E) "TypeError" site message).

(** [v.getTime()], for a [v] that the source writes as [callee] *)
Definition getTime (site callee : string) (v : jsval) : M (option Z) :=
  match v with
  | VDate t => mret t
  | VUndefined =>
      mthrow (new_TypeError site "Cannot read properties of undefined (reading 'getTime')")
  | VNull =>
      mthrow (new_TypeError site "Cannot read properties of null (reading 'getTime')")
  | _ => mthrow (new_TypeError site (callee ++ ".getTime is not a function"))
  end.

(** *** [getHomeyAPI] and [homeyAPI.destroy] *)

Definition getHomeyAPI : M nat :=
  w ← get_world;
  let n := api_next w in
  modify (with_api (S n) ({[ n ]} ∪ api_live w));;
  emit (EvApiCreate n);;
  mret n.

Definition api_destroy (n : nat) : M unit :=
  modify (fun w => with_api (api_next w) (api_live w ∖ {[ n ]}) w);;
  emit (EvApiDestroy n).

(** *** [setToken({ id, value, type = typeof value })] *)

(** The tests [this.tokensInstances[id]] and [this.tokens[id]] are true
    for an own property and also for an [id] that names a member of
    [Object.prototype]; such a member has no [unregister] and no [setValue],
    so the call on it throws a [TypeError] (in the delete branch before
    [.catch(this.error)] is reached). *)
Definition setToken (id : string) (value : jsval) (type : jsval) : M unit :=
  let type := match type with VUndefined => VStr (typeof value) | _ => type end in
  (* Delete the Token *)
  if nullish value then
    w ← get_world;
    match member_of (tokensInstances w !! id) id with
    | Own h => catch_error (token_unregister h)
    | Inherited =>
        mthrow (new_TypeError "setToken"
                  "this.tokensInstances[id].unregister is not a function")
    | Missing => mret tt
    end;;
    w ← get_world;
    match member_of (tokens w !! id) id with
    | Own _ | Inherited =>
        modify (fun w => with_tokens (delete id (tokens w)) w);;
        modify (fun w => with_tokensInstances (delete id (tokensInstances w)) w);;
        settings_set_tokens
    | Missing => mret tt
    end
  else
    w ← get_world;
    match member_of (tokensInstances w !! id) id with
    | Missing =>
        (* Create the Token *)
        h ← flow_createToken id type value;
        modify (fun w => with_tokensInstances (<[id := h]> (tokensInstances w)) w);;
        modify (fun w => with_tokens (<[id := MkEntry type value]> (tokens w)) w);;
        settings_set_tokens
    | Own h =>
        (* Update the Token *)
        token_setValue h value;;
        w ← get_world;
        match member_of (tokens w !! id) id with
        | Own e =>
            modify (fun w => with_tokens (<[id := MkEntry (te_type e) value]> (tokens w)) w);;
            settings_set_tokens
        | Inherited =>
            (* this.tokens[id] is a member of Object.prototype: the value is
               assigned to a property of that built-in object *)
            emit (EvBuiltinWrite id "value" value);;
            settings_set_tokens
        | Missing =>
            mthrow (new_TypeError "setToken"
                      "Cannot set properties of undefined (setting 'value')")
        end
    | Inherited =>
        mthrow (new_TypeError "setToken"
                  "this.tokensInstances[id].setValue is not a function")
    end.

(** The end of [onInit]: a handle for every persisted token.  The calls are
    made for the keys one after the other; [Promise.all] rejects with the
    first rejection, which [.catch(this.error)] logs, and the calls that
    succeed still store their handle. *)
Fixpoint create_instances (ids : list (string * TokenEntry))
    (failed : option jsval) : M (option jsval) :=
  match ids with
  | [] => mret failed
  | (id, e) :: rest =>
      r ← attempt (flow_createToken id (te_type e) (te_value e));
      match r with
      | Normal h =>
          modify (fun w => with_tokensInstances (<[id := h]> (tokensInstances w)) w);;
          create_instances rest failed
      | Throw err =>
          create_instances rest (match failed with None => Some err | _ => failed end)
      end
  end.

Definition onInit_tokens : M unit :=
  w ← get_world;
  modify (with_tokens (default ∅ (st_tokens (settings w))));;
  modify (with_tokensInstances ∅);;
  w ← get_world;
  failed ← create_instances (map_to_list (tokens w)) None;
  match failed with
  | Some err => app_error [err]
  | None => mret tt
  end.

(** *** [getScripts], [getScript({ id })], [deleteScript({ id })] *)

Definition getScripts : M registry := w ← get_world; mret (scripts w).

(** For an [id] that is no key of the registry and names a member of
    [Object.prototype], [this.scripts[id]] is that member: it passes the test
    [!script], it has no own enumerable property to spread, and its
    [lastExecuted] is [undefined]. *)
Definition getScript (id : string) : M obj :=
  w ← get_world;
  match member_of (get id (scripts w)) id with
  | Missing => mthrow (new_Error "getScript" "Script Not Found")
  | Own script =>
      mret (<["lastExecuted" := VDate (new_Date (prop script "lastExecuted"))]> script)
  | Inherited =>
      mret (<["lastExecuted" := VDate (new_Date VUndefined)]> ∅)
  end.

Definition deleteScript (id : string) : M unit :=
  modify (fun w => with_scripts (remove id (scripts w)) w);;
  settings_set_scripts.

(** *** The functions of the context of a run *)

(** The logger of a run. *)
Definition run_log (name id : jsval) (realtime : bool) (props : list jsval) : M unit :=
  app_log (VStr ("[" ++ to_string name ++ "]") :: props);;
  if realtime then emit (EvRealtime (util_format E props) id) else mret tt.

(** [say: async text => homeyAPI.speechOutput.say({ text })] *)
Definition cap_say (api : nat) (text : jsval) : M jsval :=
  emit (EvSay api text);; answer;; mret VUndefined.

(** [tag: async (id, value) => this.setToken({ id, value })] *)
Definition cap_tag (id : string) (value : jsval) : M unit :=
  setToken id value VUndefined.

(** [wait: async delay => new Promise(resolve => setTimeout(resolve, delay))] *)
Definition cap_wait (delay : Z) : M unit :=
  modify (fun w => with_now (now w + Z.max 1 delay) w).

(** [global.get], [global.set], [global.keys] *)
Definition cap_global_get (key : string) : M jsval :=
  settings_get ("homeyscript-" ++ key).
Definition cap_global_set (key : string) (value : jsval) : M unit :=
  settings_set ("homeyscript-" ++ key) value.
Definition cap_global_keys : M (list string) :=
  ks ← settings_getKeys;
  mret (map (substring_from (String.length "homeyscript-"))
            (List.filter (fun key => startsWith key "homeyscript-") ks)).

Definition deprecation_warning : string :=
  "Warning: setTagValue(id, opts, value) is deprecated, please use tag(id, value)".

(** The deprecated [setTagValue: async (id, opts, value) => { ... }];
    [opts] is [None] for an argument that is [undefined] or [null]. *)
Definition cap_setTagValue (log : list jsval -> M unit)
    (id : string) (opts : option obj) (value : jsval) : M unit :=
  log [VStr deprecation_warning];;
  match opts with
  | None =>
      mthrow (new_TypeError "setTagValue"
                "Cannot read properties of undefined (reading 'type')")
  | Some o => setToken id value (prop o "type")
  end.

(** The code of a script run against the functions of its context. *)
Fixpoint exec (log : list jsval -> M unit) (api : nat) (p : prog) : M vm_result :=
  match p with
  | PReturn v => mret (VmSettled (Normal v))
  | PThrow v => mret (VmSettled (Throw v))
  | PTimeout => mret VmTimeout
  | PLog props k => log props;; exec log api k
  | PSay text k => r ← attempt (cap_say api text); exec log api (k r)
  | PTag id value k => r ← attempt (cap_tag id value); exec log api (k r)
  | PWait delay k => cap_wait delay;; exec log api k
  | PGlobalGet key k => v ← cap_global_get key; exec log api (k v)
  | PGlobalSet key value k => cap_global_set key value;; exec log api k
  | PGlobalKeys k => ks ← cap_global_keys; exec log api (k ks)
  | PSetTagValue id opts value k =>
      r ← attempt (cap_setTagValue log id opts value); exec log api (k r)
  end.

(** The source handed to [new vm.Script]. *)
Definition wrap (code : string) : string :=
  "Promise.resolve().then(async () => {" ++ String "010" (code ++ String "010" "});").

(** [new vm.Script(...)], [runInNewContext(...)] with
    [timeout: RUN_TIMEOUT], and the settling of the promise. *)
Definition run_vm (code filename : string) (ctx : RunContext)
    (log : list jsval -> M unit) (api : nat) : M vm_result :=
  match compile E (wrap code) filename with
  | inl syntax_error => mthrow (VError syntax_error)
  | inr behaviour => exec log api (behaviour ctx)
  end.

End WithEngine.
End Core.

(* ===================================================================== *)
(** ** [src/app.js]                                                        *)
(* ===================================================================== *)

Module App.
Import Registry.
Export Core.

Section WithEngine.
Context (E : Engine).

(** *** [onInit], "Migration: Add missing `name` property" *)

Definition lacks_name (script : obj) : bool := negb (is_string (prop script "name")).

Definition migrate_entry (entry : string * obj) : string * obj :=
  let '(scriptId, script) := entry in
  if lacks_name script
  then (scriptId, <["id" := VStr scriptId]> (<["name" := VStr scriptId]> script))
  else (scriptId, script).

Definition migrate (r : registry) : registry := map migrate_entry (entries r).

Definition anyScriptChanged (r : registry) : bool :=
  existsb (fun entry => lacks_name (snd entry)) (entries r).

Definition onInit_migration : M unit :=
  w ← get_world;
  let changed := anyScriptChanged (scripts w) in
  modify (with_scripts (migrate (scripts w)));;
  if changed then settings_set_scripts else mret tt.

(** *** [onFlowGetScriptAutocomplete(query)] *)

(** [script.name.toLowerCase()] *)
Definition name_toLowerCase (script : obj) : M string :=
  match prop script "name" with
  | VStr s => mret (toLowerCase E s)
  | VUndefined =>
      mthrow (new_TypeError E "onFlowGetScriptAutocomplete"
                "Cannot read properties of undefined (reading 'toLowerCase')")
  | VNull =>
      mthrow (new_TypeError E "onFlowGetScriptAutocomplete"
                "Cannot read properties of null (reading 'toLowerCase')")
  | _ =>
      mthrow (new_TypeError E "onFlowGetScriptAutocomplete"
                "script.name.toLowerCase is not a function")
  end.

Fixpoint filter_by_name (query : string) (l : list obj) : M (list obj) :=
  match l with
  | [] => mret []
  | script :: rest =>
      n ← name_toLowerCase script;
      let keep := includes n (toLowerCase E query) in
      rest' ← filter_by_name query rest;
      mret (if keep then script :: rest' else rest')
  end.

Definition suggestion (script : obj) : obj :=
  <["id" := prop script "id"]> (<["name" := prop script "name"]> ∅).

Definition onFlowGetScriptAutocomplete (query : string) : M (list obj) :=
  scripts ← getScripts;
  found ← filter_by_name query (values scripts);
  mret (map suggestion found).

(** *** [runScript({ id, name, code, lastExecuted, args, realtime })] *)

(** [err.stack] and [err.message] for a caught [err] *)
Definition read_stack (site : string) (err : jsval) : M jsval :=
  match err with
  | VError e => mret (match err_stack e with Some s => VStr s | None => VUndefined end)
  | VUndefined =>
      mthrow (new_TypeError E site "Cannot read properties of undefined (reading 'stack')")
  | VNull =>
      mthrow (new_TypeError E site "Cannot read properties of null (reading 'stack')")
  | _ => mret VUndefined
  end.

Definition read_message (site : string) (err : jsval) : M jsval :=
  match err with
  | VError e => mret (VStr (err_message e))
  | VUndefined =>
      mthrow (new_TypeError E site "Cannot read properties of undefined (reading 'message')")
  | VNull =>
      mthrow (new_TypeError E site "Cannot read properties of null (reading 'message')")
  | _ => mret VUndefined
  end.

(** The message of [new Error(m)] *)
Definition error_message (m : jsval) : string :=
  match m with VUndefined => "" | _ => to_string E m end.

(** The [stack] property after [error.stack = v] *)
Definition stored_stack (v : jsval) : option string :=
  match v with VUndefined => None | _ => Some (to_string E v) end.

Definition log_success (log : list jsval -> M unit) (result : jsval) : M unit :=
  log [VStr "
———————————————————
✅ Script Success
"];;
  log [VStr "↩️ Returned:"; json_stringify E result].

Definition log_failure (log : list jsval -> M unit) (err : jsval) : M unit :=
  log [VStr "
———————————————————
❌ Script Error
"];;
  stack ← read_stack "runScript" err;
  log [VStr "⚠️"; stack].

(** The [catch (err) { ... }] of [runScript]. *)
Definition run_catch (log : list jsval -> M unit) (err : jsval) : M jsval :=
  log_failure log err;;
  (* a new Error, because an Error from the context of the script behaves differently *)
  message ← read_message "runScript" err;
  stack ← read_stack "runScript" err;
  let error := MkError "Error" (error_message message) (stored_stack stack) None Host in
  mthrow (VError error).

(** The [try { ... } catch (err) { ... }] of [runScript]. *)
Definition run_try (id name code : jsval) (realtime : bool)
    (context : RunContext) (homeyAPI : nat) : M jsval :=
  let log := run_log E name id realtime in
  try_catch
    ((* new vm.Script, runInNewContext, await *)
     r ← run_vm E (to_string E code) (to_string E name ++ ".js") context log homeyAPI;
     result ← match r with
              | VmTimeout => mthrow (VError (timeout_error E RUN_TIMEOUT))
              | VmSettled (Throw err) => mthrow err
              | VmSettled (Normal result) => mret result
              end;
     log_success log result;;
     mret result)
    (run_catch log).

(** What [runScript] does before the [try]: the default of [lastExecuted],
    the host-API object, and the data of the context. *)
Definition run_setup (id name lastExecuted : jsval) (args : list jsval)
    : M (nat * RunContext) :=
  lastExecuted ← (if nullish lastExecuted
                  then (t ← Date_now; mret (VDate (Some t)))
                  else mret lastExecuted);
  homeyAPI ← getHomeyAPI;
  t_now ← Date_now;
  t_last ← getTime E "runScript" "lastExecuted" lastExecuted;
  mret (homeyAPI,
        MkContext args (to_string E name ++ ".js") id lastExecuted
                  (t ← t_last; Some (t_now - t))).

Definition runScript (id name code lastExecuted : jsval)
    (args : list jsval) (realtime : bool) : M jsval :=
  '(homeyAPI, context) ← run_setup id name lastExecuted args;
  finally (run_try id name code realtime context homeyAPI)
          (api_destroy homeyAPI).

(** *** [createScript({ name, code })] *)

Definition createScript (name code : jsval) : M obj :=
  w ← get_world;
  let id := uuid_v4 E (uuid_next w) in
  modify (with_uuid_next (S (uuid_next w)));;
  let newScript : obj :=
    <["id" := VStr id]> (<["name" := name]> (<["code" := code]>
      (<["lastExecuted" := VNull]> ∅))) in
  modify (fun w => with_scripts (set id newScript (scripts w)) w);;
  settings_set_scripts;;
  mret newScript.

(** *** [updateScript({ id, name, code, lastExecuted })] *)

Definition assign_unless_null (p : string) (v : jsval) (o : obj) : obj :=
  if nullish v then o else <[p := v]> o.

(** [{ ...this.scripts[id] }] is the copy of an own entry, and is empty for
    [undefined] and for a member of [Object.prototype] (which has no own
    enumerable property).  The three assignments and the [return] read
    [this.scripts[id]] again: the object just assigned, also when it became
    the prototype. *)
Definition updateScript (id : string) (name code lastExecuted : jsval) : M obj :=
  w ← get_world;
  let script : obj := spread (get id (scripts w)) in
  let script := assign_unless_null "name" name script in
  let script := assign_unless_null "code" code script in
  let script := assign_unless_null "lastExecuted" lastExecuted script in
  scripts_assign id script;;
  settings_set_scripts;;
  mret script.

End WithEngine.
End App.

(* ===================================================================== *)
(** ** [src/unnamed/part_000]                                              *)
(* ===================================================================== *)

Module Part000.
Import Registry.
Export Core.

Section WithEngine.
Context (E : Engine).

(** *** [onInit], migration 0 *)

(** [this.migrations[0]] *)
Definition migration0 (m : list (option Marker)) : option Marker :=
  match m with
  | [] => None
  | x :: _ => x
  end.

(** [this.migrations[0] = { done: true }] *)
Definition mark_migration0 (m : list (option Marker)) : list (option Marker) :=
  match m with
  | [] => [Some (MkMarker true)]
  | _ :: rest => Some (MkMarker true) :: rest
  end.

Definition nextScripts (r : registry) : registry :=
  fold_left
    (fun next entry =>
       let '(scriptId, script) := entry in
       set scriptId (<["name" := VStr scriptId]> (<["id" := VStr scriptId]> script)) next)
    (entries r) [].

Definition onInit_migration : M unit :=
  w ← get_world;
  modify (with_migrations (default [] (st_migrations (settings w))));;
  w ← get_world;
  match migration0 (migrations w) with
  | None =>
      app_log [VStr "Running migration 0"];;
      modify (with_scripts (nextScripts (scripts w)));;
      settings_set_scripts;;
      modify (fun w => with_migrations (mark_migration0 (migrations w)) w);;
      settings_set_migrations
  | Some _ => mret tt
  end.

(** *** [onFlowGetScriptAutocomplete(query)] *)

Definition suggestion (id : string) : obj :=
  <["id" := VStr id]> (<["name" := VStr id]> ∅).

Definition onFlowGetScriptAutocomplete (query : string) : M (list obj) :=
  scripts ← getScripts;
  mret (map suggestion
          (List.filter (fun id => includes (toLowerCase E id) (toLowerCase E query))
                       (keys scripts))).

(** *** [runScript({ code, script, args, realtime })] *)

(** [!!v] *)
Definition truthy (v : jsval) : bool :=
  match v with
  | VUndefined | VNull => false
  | VBool b => b
  | VNum n => negb (n =? 0)
  | VStr s => negb (String.eqb s "")
  | VDate _ | VError _ => true
  end.

(** [script.id === '__void__'] *)
Definition is_void (id : jsval) : bool :=
  match id with VStr s => String.eqb s "__void__" | _ => false end.

(** The [catch (err) { ... }] of [runScript]. *)
Definition run_catch (log : list jsval -> M unit) (err : jsval) : M jsval :=
  App.log_failure E log err;;
  (* a new Error, because an Error from the context of the script behaves differently *)
  message ← App.read_message E "runScript" err;
  let error := host_error (host_stack E) "Error" "runScript"
                 (App.error_message E message) in
  (* error.stack = error.stack: the stack stays the one of [error] *)
  mthrow (VError error).

(** The [script] that [runScript] is called with: none, an object of the
    caller's own (such as the copy that [getScript] returns), or the object
    that is the entry of the registry under [key] (as [getScripts] hands it
    out). *)
Inductive script_arg :=
| NoScript
| OwnObject (script : obj)
| RegistryEntry (key : string).

(** The object passed, and the key of the registry under which it is an
    entry.  For a [key] that is none of the registry, [scripts[key]] is taken
    as [undefined]. *)
Definition resolve (script : script_arg) (r : registry) : option obj * option string :=
  match script with
  | NoScript => (None, None)
  | OwnObject s => (Some s, None)
  | RegistryEntry key =>
      match get key r with
      | Some s => (Some s, Some key)
      | None => (None, None)
      end
  end.

(** [script.lastExecuted = new Date()]: the assignment is to the object that
    was passed; when that object is an entry of the registry, the registry
    has the new value. *)
Definition touch (entry : option string) (t : Z) : M unit :=
  match entry with
  | None => mret tt
  | Some key =>
      modify (fun w =>
        match get key (scripts w) with
        | Some s => with_scripts (set key (<["lastExecuted" := VDate (Some t)]> s) (scripts w)) w
        | None => w
        end)
  end.

(** The [try { ... } catch (err) { ... }] of [runScript].  [runInNewContext]
    returns when the code of the script first suspends, before any [wait] of
    the script has elapsed: the time of [new Date()] after it is the time at
    which the script was started. *)
Definition run_try (code : jsval) (script : obj) (entry : option string) (realtime : bool)
    (context : RunContext) (homeyAPI : nat) : M jsval :=
  let log := run_log E (prop script "name") (prop script "id") realtime in
  try_catch
    ((* new vm.Script, runInNewContext, await *)
     let source := if truthy code then code else prop script "code" in
     started ← Date_now;
     r ← run_vm E (to_string E source) (to_string E (prop script "name") ++ ".js")
           context log homeyAPI;
     settled ← match r with
               | VmTimeout => mthrow (VError (timeout_error E RUN_TIMEOUT))
               | VmSettled settled => mret settled
               end;
     touch entry started;;
     (if is_void (prop script "id") then mret tt else settings_set_scripts);;
     result ← match settled with
              | Throw err => mthrow err
              | Normal result => mret result
              end;
     App.log_success E log result;;
     mret result)
    (run_catch log).

Definition run_setup (script : option obj) (args : list jsval)
    : M (obj * nat * RunContext) :=
  script ← match script with
           | None =>
               t ← Date_now;
               mret (<["id" := VStr "__void__"]> (<["lastExecuted" := VDate (Some t)]>
                       (<["name" := VStr "Test"]> (∅ : obj))))
           | Some script => mret script
           end;
  homeyAPI ← getHomeyAPI;
  t_now ← Date_now;
  t_last ← getTime E "runScript" "script.lastExecuted" (prop script "lastExecuted");
  mret (script, homeyAPI,
        MkContext args (to_string E (prop script "name") ++ ".js") (prop script "id")
                  (prop script "lastExecuted") (t ← t_last; Some (t_now - t))).

Definition runScript (code : jsval) (script : script_arg)
    (args : list jsval) (realtime : bool) : M jsval :=
  w ← get_world;
  let '(object, entry) := resolve script (scripts w) in
  '(script, homeyAPI, context) ← run_setup object args;
  finally (run_try code script entry realtime context homeyAPI)
          (api_destroy homeyAPI).

(** *** [updateScript({ id, code })] *)

(** [this.scripts[id] = this.scripts[id] || {}] keeps an own entry, makes an
    empty one for an unknown id, and for an [id] that names a member of
    [Object.prototype] assigns that member: for [__proto__] it is the
    prototype and stays it, for the other names the function becomes an own
    property.  [this.scripts[id].code = code] then writes to the entry, or to
    that built-in object; for the rest of the application a function with the
    one enumerable property [code] reads as the entry [{ code }]. *)
Definition updateScript (id : string) (code : jsval) : M unit :=
  w ← get_world;
  match member_of (get id (scripts w)) id with
  | Own script =>
      modify (with_scripts (set id (<["code" := code]> script) (scripts w)))
  | Missing =>
      modify (with_scripts (set id (<["code" := code]> ∅) (scripts w)))
  | Inherited =>
      emit (EvBuiltinWrite id "code" code);;
      if String.eqb id "__proto__" then mret tt
      else modify (fun w => with_scripts (set id (<["code" := code]> ∅) (scripts w)) w)
  end;;
  settings_set_scripts.

(** *** [createScriptV2({ script })] *)

Definition createScriptV2 (script : obj) : M obj :=
  w ← get_world;
  let id := uuid_v4 E (uuid_next w) in
  modify (with_uuid_next (S (uuid_next w)));;
  let newScript : obj :=
    <["id" := VStr id]> (<["name" := prop script "name"]> (<["code" := prop script "code"]>
      (<["lastExecuted" := VNull]> ∅))) in
  modify (fun w => with_scripts (set id newScript (scripts w)) w);;
  settings_set_scripts;;
  mret newScript.

(** *** [updateScriptV2({ id, script })] *)

Definition updateScriptV2 (id : string) (script : obj) : M obj :=
  w ← get_world;
  let updated : obj :=
    <["id" := VStr id]> (spread2 (spread (get id (scripts w))) script) in
  scripts_assign id updated;;
  settings_set_scripts;;
  mret updated.

End WithEngine.
End Part000.

(* ===================================================================== *)
(** ** The properties, as the specification words them                     *)
(* ===================================================================== *)

Module Spec.
Import Registry.
Export Core.

(** [get(create(name, code).id)] is a definition with the given name, the
    given code, and [lastExecuted] equal to [last]. *)
Definition get_after_create (create : M obj) (get_by_id : string -> M obj)
    (name code last : jsval) (w : world) : Prop :=
  exists (created : obj) (w1 : world) (id : string) (found : obj) (w2 : world),
    create w = (Normal created, w1)
    /\ prop created "id" = VStr id
    /\ get_by_id id w1 = (Normal found, w2)
    /\ prop found "name" = name
    /\ prop found "code" = code
    /\ prop found "lastExecuted" = last.

(** [query] occurs in [name], the case of the letters [A] to [Z] aside. *)
Definition contains_ci (name query : string) : Prop :=
  exists pre mid post : string,
    name = pre ++ mid ++ post /\ ascii_toLowerCase mid = ascii_toLowerCase query.

(** [found] is made of exactly the elements of [l] that satisfy [P], in the
    order of [l]. *)
Inductive selects {A} (P : A -> Prop) : list A -> list A -> Prop :=
| selects_nil : selects P [] []
| selects_keep x l found : P x -> selects P l found -> selects P (x :: l) (x :: found)
| selects_drop x l found : ~ P x -> selects P l found -> selects P (x :: l) found.

Definition name_contains (query : string) (script : obj) : Prop :=
  exists name, prop script "name" = VStr name /\ contains_ci name query.

(** [text.toLowerCase().includes(query.toLowerCase())] *)
Definition matches (E : Engine) (query text : string) : bool :=
  includes (toLowerCase E text) (toLowerCase E query).

(** The test that the listener of [src/app.js] makes on a script whose name
    is a string. *)
Definition name_matches (E : Engine) (query : string) (script : obj) : bool :=
  match prop script "name" with
  | VStr name => matches E query name
  | _ => false
  end.

(** The names of the scripts of [r] are strings of the ASCII range. *)
Definition ascii_names (r : registry) : Prop :=
  forall script name, In script (values r) -> prop script "name" = VStr name ->
    ascii_only name = true.

(** [search] changes nothing and returns those of [candidates] that satisfy
    [P], in their order, each in the form [shape]. *)
Definition answers {A} (P : A -> Prop) (candidates : list A) (shape : A -> obj)
    (search : M (list obj)) (w : world) : Prop :=
  exists found : list A,
    selects P candidates found /\ search w = (Normal (map shape found), w).

(** [{ id, name }] of a script *)
Definition id_name (script : obj) : obj :=
  <["id" := prop script "id"]> (<["name" := prop script "name"]> ∅).

(** [search(query)] returns the scripts whose name contains [query], as
    [{ id, name }] pairs, in the order of the registry. *)
Definition search_by_name (search : string -> M (list obj)) (query : string)
    (w : world) : Prop :=
  exists found : list obj,
    selects (name_contains query) (values (scripts w)) found
    /\ search query w = (Normal (map id_name found), w).

Definition is_warning (e : event) : bool :=
  match e with
  | EvLog [_; VStr s] => String.eqb s deprecation_warning
  | _ => false
  end.

(** How many times the warning was logged. *)
Definition warnings (tr : list event) : nat := length (List.filter is_warning tr).

(** An entry has both a [name] and an [id]. *)
Definition has_name_and_id (script : obj) : Prop :=
  is_string (prop script "name") = true /\ is_string (prop script "id") = true.

(** [name] and [id] set to the key of the entry. *)
Definition backfilled (key : string) (script : obj) : obj :=
  <["name" := VStr key]> (<["id" := VStr key]> script).

(** A migration backfills only on entries that lack [name] or [id]. *)
Definition backfills_only_lacking (migration : registry -> registry) (r : registry) : Prop :=
  forall k script, get k r = Some script -> has_name_and_id script ->
    get k (migration r) = Some script.

(** An update of an existing entry [old] to [new] with the fields [given]
    changes only the fields given with a value that is not [null]. *)
Definition changes_only_given (given old new : obj) : Prop :=
  forall p : string,
    match given !! p with
    | Some v => if nullish v then new !! p = old !! p else new !! p = Some v
    | None => new !! p = old !! p
    end.

(** The fields that [updateScript] of [src/app.js] takes from its argument. *)
Definition given_fields (name code lastExecuted : jsval) : obj :=
  <["name" := name]> (<["code" := code]> (<["lastExecuted" := lastExecuted]> ∅)).

(** Every world that [m] ends in is related by [R] to the one it started in. *)
Definition keeps {A} (R : world -> world -> Prop) (m : M A) : Prop :=
  forall w, R w (snd (m w)).

Definition is_api_event (e : event) : bool :=
  match e with EvApiCreate _ | EvApiDestroy _ => true | _ => false end.

Definition is_log (e : event) : bool :=
  match e with EvLog _ => true | _ => false end.

(** From [w] to [w'] the host-API objects are the same ones, and the trace
    grew by events that are all [allowed]. *)
Definition extends (allowed : event -> bool) (w w' : world) : Prop :=
  api_next w' = api_next w
  /\ api_live w' = api_live w
  /\ exists evs, trace w' = (trace w ++ evs)%list /\ forallb allowed evs = true.

(** The events of the token registry: no log line and no host-API object. *)
Definition token_event (e : event) : bool := negb (is_api_event e) && negb (is_log e).

(** The events of the code of a script and of the logger of its run. *)
Definition run_event (e : event) : bool := negb (is_api_event e).

(** The world after [getHomeyAPI] created the object [api_next w]. *)
Definition acquired (w : world) : world :=
  with_trace (trace w ++ [EvApiCreate (api_next w)])
    (with_api (S (api_next w)) ({[ api_next w ]} ∪ api_live w) w).

(** A run failed with the [Error] object [e]: [new vm.Script] threw it, the VM
    ended the run at the deadline with it, or the promise of the code rejected
    with it. *)
Definition vm_fails_with (timeout : ErrorObj) (r : completion vm_result) (e : ErrorObj) : Prop :=
  match r with
  | Throw (VError e') => e' = e
  | Normal VmTimeout => e = timeout
  | Normal (VmSettled (Throw (VError e'))) => e' = e
  | _ => False
  end.

(** The error that [runScript] is to raise for the error [e] of the run: a
    new [Error] of the application with the message and the stack of [e], and
    nothing else of it. *)
Definition normalized (e : ErrorObj) : ErrorObj :=
  MkError "Error" (err_message e) (err_stack e) None Host.

(** The invariants of the token registry: a handle only for an entry, and the
    persisted map equal to [this.tokens]. *)
Definition handles_have_entries (w : world) : Prop :=
  forall id h, tokensInstances w !! id = Some h -> is_Some (tokens w !! id).

Definition persisted_tokens (w : world) : gmap string TokenEntry :=
  default ∅ (st_tokens (settings w)).

Definition tokens_persisted (w : world) : Prop :=
  persisted_tokens w = tokens w.

(** No token is stored under the name of a member of [Object.prototype]:
    [setToken] never makes such an entry. *)
Definition token_names_own (w : world) : Prop :=
  forall id, inherited id = true -> tokens w !! id = None.

(** The registry has one entry per key. *)
Definition unique_keys (r : registry) : Prop := NoDup (keys r).

(** [v] is a [Date], or absent. *)
Definition date_or_absent (v : jsval) : Prop :=
  match v with
  | VUndefined | VNull | VDate _ => True
  | _ => False
  end.

End Spec.

(* ===================================================================== *)
(** ** A sample engine and a sample application state                      *)
(* ===================================================================== *)

Module Sample.
Import Registry.
Export Spec.

Definition show (v : jsval) : string :=
  match v with
  | VStr s => s
  | VUndefined => "undefined"
  | VNull => "null"
  | VBool true => "true"
  | VBool false => "false"
  | VNum _ => "[number]"
  | VDate _ => "[date]"
  | VError e => err_name e ++ ": " ++ err_message e
  end.

Definition stack_at (site message : string) : string :=
  "Error: " ++ message ++ String "010" ("    at HomeyScriptApp." ++ site ++ " (/app.js)").

(** The error a script makes with [new Error('x')]. *)
Definition error_x : ErrorObj :=
  MkError "Error" "x" (Some ("Error: x" ++ String "010" "    at Test.js:1:7")) None Guest.

Definition syntax_error : ErrorObj :=
  MkError "SyntaxError" "Unexpected token '}'"
          (Some ("Test.js:2" ++ String "010" "SyntaxError: Unexpected token '}'")) None Host.

Definition sample_timeout_error (ms : Z) : ErrorObj :=
  MkError "Error" "Script execution timed out after 30000ms"
          (Some "Error: Script execution timed out after 30000ms")
          (Some "ERR_SCRIPT_EXECUTION_TIMEOUT") Host.

(** The behaviour of a few scripts, by their source. *)
Definition behaviour (source : string) : ErrorObj + (RunContext -> prog) :=
  if includes source "return (" then inl syntax_error
  else if includes source "throw new Error('x')" then inr (fun _ => PThrow (VError error_x))
  else if includes source "while (true) {}" then inr (fun _ => PTimeout)
  else if includes source "setTagValue" then
    inr (fun _ =>
      PSetTagValue "t" (Some {[ "type" := VStr "number" ]}) (VNum 1) (fun _ =>
      PSetTagValue "t" (Some {[ "type" := VStr "number" ]}) (VNum 2) (fun _ =>
      PReturn VUndefined)))
  else inr (fun _ => PReturn (VNum 2)).

Definition engine : Engine := {|
  parseDate := fun _ => None;
  to_display := show;
  util_format := fun props => String.concat " " (map show props);
  json_stringify := fun v => VStr (show v);
  host_stack := stack_at;
  compile := fun source _ => behaviour source;
  timeout_error := sample_timeout_error;
  uuid_v4 := fun n => String.concat "" (repeat "u" (S n));
  toLowerCase_unicode := fun s => s
|}.

Definition no_settings : Settings := MkSettings None None None ∅.

(** An application with no script and no token. *)
Definition empty_world : world :=
  MkWorld [] [] ∅ ∅ no_settings [] [] 1000 0%nat ∅ 0%nat.

(** Two scripts made by [createScript], the name of the second containing
    [foo]. *)
Definition script_u : obj :=
  <["id" := VStr "u"]> (<["name" := VStr "Lights"]> (<["code" := VStr "return 1+1"]>
    (<["lastExecuted" := VNull]> ∅))).
Definition script_uu : obj :=
  <["id" := VStr "uu"]> (<["name" := VStr "My Foo"]> (<["code" := VStr "return 1+1"]>
    (<["lastExecuted" := VNull]> ∅))).
Definition two_scripts : registry := [ ("u", script_u); ("uu", script_uu) ].

Definition world_two_scripts : world :=
  with_settings (MkSettings (Some two_scripts) None None ∅)
    (with_uuid_next 2%nat (with_scripts two_scripts empty_world)).

(** An application with the token [t], whose handle the platform will
    update and then fail to unregister. *)
Definition one_token : gmap string TokenEntry := {[ "t" := MkEntry (VStr "number") (VNum 1) ]}.

Definition world_one_token : world :=
  MkWorld [] [] one_token {[ "t" := MkToken "t" (VStr "number") ]}
          (MkSettings None (Some one_token) None ∅) []
          [None; Some (VError (MkError "Error" "Not Found" None None Host))]
          1000 0%nat ∅ 0%nat.

(** A registry as versions before the [name] property left it. *)
Definition legacy_scripts : registry :=
  [ ("example-hello", <["code" := VStr "log('hello')"]> (<["lastExecuted" := VNull]> ∅)) ].

End Sample.

(* ===================================================================== *)
(** ** The start of the application and the flow cards                     *)
(* ===================================================================== *)

Module Boot.
Import Registry.
Export Core.

(** [s.endsWith(suffix)] *)
Definition endsWith (s suffix : string) : bool :=
  let n := String.length s in
  let m := String.length suffix in
  (m <=? n)%nat && String.eqb (substring_from (n - m) s) suffix.

(** [filename.substring(0, filename.length - '.js'.length)] *)
Definition stem (filename : string) : string :=
  String.substring 0 (String.length filename - String.length ".js") filename.

(** What [fs.readdir] and [fs.readFile] give for a directory: the error with
    which [readdir] rejects, or the names of the files with their contents
    (reading a file that [readdir] listed is taken to succeed). *)
Abbreviation listing := (jsval + list (string * string))%type.

Section WithEngine.
Context (E : Engine).

(** "Copy example scripts": the body of [files.map(async filename => ...)],
    for the files in the order of the listing. *)
Fixpoint copy_examples (files : list (string * string)) (scripts : registry)
    : M registry :=
  match files with
  | [] => mret scripts
  | (filename, code) :: rest =>
      if endsWith filename ".js" then
        let id := "example-" ++ stem filename in
        let scripts := set id (<["code" := VStr code]> (<["lastExecuted" := VNull]> ∅)) scripts in
        app_log [VStr ("Found Example: " ++ id)];;
        copy_examples rest scripts
      else copy_examples rest scripts
  end.

(** "Check for existing (SDK2) scripts in /userdata".  The object made for
    a file is kept under its id as what [scripts[id]] reads afterwards. *)
Fixpoint copy_userdata (files : list (string * string)) (scripts : registry)
    : M registry :=
  match files with
  | [] => mret scripts
  | (filename, code) :: rest =>
      if endsWith filename ".js" then
        let id := stem filename in
        last ← settings_get ("last-execution-" ++ id);
        let scripts := set id (<["code" := VStr code]>
                                 (<["lastExecuted" := VDate (new_Date E last)]> ∅)) scripts in
        app_log [VStr ("Found Migration: " ++ id)];;
        copy_userdata rest scripts
      else copy_userdata rest scripts
  end.

(** [onInit], "Init Scripts": [this.scripts = this.homey.settings.get('scripts')]
    and the block [if (!this.scripts) { ... }]. *)
Definition onInit_scripts (examples userdata : listing) : M unit :=
  w ← get_world;
  match st_scripts (settings w) with
  | Some stored => modify (with_scripts stored)
  | None =>
      app_log [VStr "No scripts found."];;
      scripts ← match examples with
                | inl err => app_error [VStr "Examples Error:"; err];; mret []
                | inr files => copy_examples files []
                end;
      scripts ← match userdata with
                | inl err => app_error [VStr "Migration Error:"; err];; mret scripts
                | inr files => copy_userdata files scripts
                end;
      modify (with_scripts scripts);;
      settings_set_scripts
  end.

(** [onInit] of [src/app.js], the calls [getLocalUrl] and [getOwnerApiToken]
    having succeeded: the scripts, the migration, and the tokens (the
    registration of the flow cards in between changes nothing here). *)
Definition onInit_app (examples userdata : listing) : M unit :=
  onInit_scripts examples userdata;;
  App.onInit_migration;;
  onInit_tokens.

(** [onInit] of [src/unnamed/part_000], the cards it registers being
    declared in the manifest of its revision ([src/app.json] has no card
    [runCodeWithArgReturnsString]) *)
Definition onInit_part000 (examples userdata : listing) : M unit :=
  onInit_scripts examples userdata;;
  Part000.onInit_migration;;
  onInit_tokens.

End WithEngine.
End Boot.

Module Flow.
Import Registry.
Export Core.

Section WithEngine.
Context (E : Engine).

(** The run listener of the cards [run] and [runWithArg] of [src/app.js]
    (conditions and actions): [script_id] is [script.id] of the card argument,
    [args] is [[]] or [[argument]]. *)
Definition app_run_listener (script_id : string) (args : list jsval) : M jsval :=
  scriptSource ← getScript E script_id;
  finally
    (App.runScript E (prop scriptSource "id") (prop scriptSource "name")
       (prop scriptSource "code") (prop scriptSource "lastExecuted") args false)
    (t ← Date_now;
     catch_error
       (App.updateScript (to_string E (prop scriptSource "id"))
          VUndefined VUndefined (VDate (Some t));;
        mret tt)).

(** The run listener of the condition cards [run] and [runWithArg] and of the
    action card [run] of [src/unnamed/part_000].  (The listener of the action
    card [runWithArg], lines 137-148, is not embedded: its object literal
    names an [id] that is not in scope.) *)
Definition part000_run_listener (script_id : string) (args : list jsval) : M jsval :=
  scriptSource ← getScript E script_id;
  Part000.runScript E VUndefined (Part000.OwnObject scriptSource) args false.


End WithEngine.
End Flow.

(* ===================================================================== *)
(** ** Relations between the worlds before and after a method              *)
(* ===================================================================== *)

Module Frames.
Import Registry.
Export Spec.

(** From [w] to [w'] nothing changed but the token registry, the persisted
    tokens, the settings of the scripts' shared store, the answers left and
    the clock. *)
Definition inert (w w' : world) : Prop :=
  scripts w' = scripts w
  /\ migrations w' = migrations w
  /\ st_scripts (settings w') = st_scripts (settings w)
  /\ st_migrations (settings w') = st_migrations (settings w)
  /\ trace w' = trace w
  /\ api_next w' = api_next w
  /\ api_live w' = api_live w
  /\ uuid_next w' = uuid_next w.

(** The registry of scripts, the migration markers and the id counter are the
    same. *)
Definition registry_kept (w w' : world) : Prop :=
  scripts w' = scripts w
  /\ migrations w' = migrations w
  /\ st_migrations (settings w') = st_migrations (settings w)
  /\ uuid_next w' = uuid_next w.

(** The same, and the persisted scripts too. *)
Definition store_kept (w w' : world) : Prop :=
  registry_kept w w' /\ st_scripts (settings w') = st_scripts (settings w).

(** From [w] to [w'] the registry of scripts changed at most in the
    [lastExecuted] of the entry under [key]; the keys, the other entries, the
    migration markers and the id counter are the same. *)
Definition entry_touched (key : string) (w w' : world) : Prop :=
  keys (scripts w') = keys (scripts w)
  /\ (forall k, k <> key -> get k (scripts w') = get k (scripts w))
  /\ (forall old, get key (scripts w) = Some old ->
      exists new, get key (scripts w') = Some new
                  /\ forall p, p <> "lastExecuted" -> new !! p = old !! p)
  /\ migrations w' = migrations w
  /\ st_migrations (settings w') = st_migrations (settings w)
  /\ uuid_next w' = uuid_next w.

(** The trace grew by events that are all [allowed]. *)
Definition adds (allowed : event -> bool) (w w' : world) : Prop :=
  exists evs, trace w' = (trace w ++ evs)%list /\ forallb allowed evs = true.

Definition is_realtime (e : event) : bool :=
  match e with EvRealtime _ _ => true | _ => false end.

Definition not_realtime (e : event) : bool := negb (is_realtime e).

(** The token registry and its persisted copy are the same. *)
Definition tokens_kept (w w' : world) : Prop :=
  tokens w' = tokens w
  /\ tokensInstances w' = tokensInstances w
  /\ st_tokens (settings w') = st_tokens (settings w).

(** Every entry of the registry has a string as [name]. *)
Definition named (r : registry) : Prop :=
  forall script, In script (values r) -> is_string (prop script "name") = true.

(** Every entry of the registry has its key as [name] and as [id]. *)
Definition keyed (r : registry) : Prop :=
  forall k script, In (k, script) r ->
    prop script "name" = VStr k /\ prop script "id" = VStr k.

(** A sequence of [setToken] calls, each [(id, value, type)], the next one
    made however the one before ended. *)
Fixpoint setToken_calls (E : Engine) (calls : list (string * jsval * jsval)) : M unit :=
  match calls with
  | [] => mret tt
  | (id, value, type) :: rest =>
      attempt (setToken E id value type);;
      setToken_calls E rest
  end.


(** The entry that the first start makes for a bundled example. *)
Definition example_entry (code : string) : obj :=
  <["code" := VStr code]> (<["lastExecuted" := VNull]> ∅).

(** The entry that the first start makes for the legacy script [id]: its
    [lastExecuted] is the [Date] of the setting [last-execution-<id>]. *)
Definition legacy_entry (E : Engine) (w : world) (id code : string) : obj :=
  <["code" := VStr code]>
    (<["lastExecuted" :=
         VDate (new_Date E (prop (st_values (settings w)) ("last-execution-" ++ id)))]> ∅).

End Frames.

(* ===================================================================== *)
(** ** More sample states                                                  *)
(* ===================================================================== *)

Module Cases.
Import Registry.
Export Frames.

(** The bundled examples and the legacy scripts of a first start. *)
Definition example_files : list (string * string) :=
  [ ("hello.js", "log('hello')"); ("README.md", "# Examples") ].

Definition userdata_files : list (string * string) :=
  [ ("lights.js", "return true") ].

(** A first start: no setting but the time of the last run of [lights]. *)
Definition first_start : world :=
  with_settings (MkSettings None None None {[ "last-execution-lights" := VNum 86400000 ]})
    Sample.empty_world.

(** An engine that also knows a script that throws a string. *)
Definition engine : Engine := {|
  parseDate := parseDate Sample.engine;
  to_display := to_display Sample.engine;
  util_format := util_format Sample.engine;
  json_stringify := json_stringify Sample.engine;
  host_stack := host_stack Sample.engine;
  compile := fun source filename =>
    if includes source "throw 'boom'" then inr (fun _ => PThrow (VStr "boom"))
    else compile Sample.engine source filename;
  timeout_error := timeout_error Sample.engine;
  uuid_v4 := uuid_v4 Sample.engine;
  toLowerCase_unicode := toLowerCase_unicode Sample.engine
|}.

End Cases.

(* ===================================================================== *)
(** ** Facts about the registry                                            *)
(* ===================================================================== *)

Module RegistryFacts.
Import Registry.

Lemma mem_false_get (k : string) (r : registry) :
  mem k r = false <-> get k r = None.
Proof.
  induction r as [|[k' v'] r IH]; simpl; [tauto|].
  destruct (String.eqb k k'); [split; discriminate | exact IH].
Qed.

Lemma mem_true_get (k : string) (r : registry) :
  mem k r = true <-> is_Some (get k r).
Proof.
  induction r as [|[k' v'] r IH]; simpl.
  - split; [discriminate | intros [x Hx]; discriminate].
  - destruct (String.eqb k k'); [split; eauto | exact IH].
Qed.

Lemma get_replace_eq (k : string) (v : obj) (r : registry) :
  mem k r = true -> get k (replace k v r) = Some v.
Proof.
  induction r as [|[k' v'] r IH]; simpl; [discriminate|].
  destruct (String.eqb k k') eqn:Hk; simpl; rewrite Hk; auto.
Qed.

Lemma get_replace_ne (k k' : string) (v : obj) (r : registry) :
  k <> k' -> get k' (replace k v r) = get k' r.
Proof.
  intros Hne. induction r as [|[k0 v0] r IH]; simpl; [reflexivity|].
  destruct (String.eqb_spec k k0) as [->|Hk]; simpl.
  - destruct (String.eqb_spec k' k0); [congruence | reflexivity].
  - rewrite IH. reflexivity.
Qed.

Lemma get_insert_index_eq (n : N) (k : string) (v : obj) (r : registry) :
  mem k r = false -> get k (insert_index n k v r) = Some v.
Proof.
  induction r as [|[k' v'] r IH]; simpl.
  - rewrite String.eqb_refl. reflexivity.
  - destruct (String.eqb k k') eqn:Hk; [discriminate|]. intros Hm.
    destruct (array_index k') as [n'|]; [destruct (n <? n')%N|];
      simpl; rewrite ?String.eqb_refl, ?Hk; auto.
Qed.

Lemma get_insert_index_ne (n : N) (k k' : string) (v : obj) (r : registry) :
  k <> k' -> get k' (insert_index n k v r) = get k' r.
Proof.
  intros Hne. apply String.eqb_neq in Hne. rewrite String.eqb_sym in Hne.
  induction r as [|[k0 v0] r IH]; simpl.
  - rewrite Hne. reflexivity.
  - destruct (array_index k0) as [n'|]; [destruct (n <? n')%N|];
      simpl; rewrite ?Hne, ?IH; reflexivity.
Qed.

Lemma get_app_last (k k' : string) (v : obj) (r : registry) :
  get k' (r ++ [(k, v)]) =
  match get k' r with
  | Some x => Some x
  | None => if String.eqb k' k then Some v else None
  end.
Proof.
  induction r as [|[k0 v0] r IH]; simpl; [reflexivity|].
  destruct (String.eqb k' k0); [reflexivity | exact IH].
Qed.

(** Reading the property that was just assigned gives the assigned value. *)
Lemma get_set_eq (k : string) (v : obj) (r : registry) :
  get k (set k v r) = Some v.
Proof.
  unfold set. destruct (mem k r) eqn:Hm.
  - apply get_replace_eq, Hm.
  - destruct (array_index k) as [n|].
    + apply get_insert_index_eq, Hm.
    + rewrite get_app_last. apply mem_false_get in Hm. rewrite Hm.
      rewrite String.eqb_refl. reflexivity.
Qed.

(** An assignment leaves the other properties as they are. *)
Lemma get_set_ne (k k' : string) (v : obj) (r : registry) :
  k <> k' -> get k' (set k v r) = get k' r.
Proof.
  intros Hne. unfold set. destruct (mem k r).
  - apply get_replace_ne, Hne.
  - destruct (array_index k) as [n|].
    + apply get_insert_index_ne, Hne.
    + rewrite get_app_last. destruct (get k' r); [reflexivity|].
      destruct (String.eqb_spec k' k); congruence.
Qed.

End RegistryFacts.

(* ===================================================================== *)
(** ** The script store                                                    *)
(* ===================================================================== *)

Import Registry RegistryFacts Spec.

(** Steps of the method monad. *)
Ltac step_M :=
  unfold mbind, M_bind, mret, M_ret, mthrow, M_throw, get_world, modify,
         settings_set_scripts in *;
  simpl in *.

Lemma getScript_found (E : Engine) (id : string) (script : obj) (w : world) :
  get id (scripts w) = Some script ->
  getScript E id w =
    (Normal (<["lastExecuted" := VDate (new_Date E (prop script "lastExecuted"))]> script), w).
Proof. intros H. unfold getScript. step_M. rewrite H. reflexivity. Qed.

Lemma getScript_missing (E : Engine) (id : string) (w : world) :
  get id (scripts w) = None ->
  inherited id = false ->
  getScript E id w = (Throw (new_Error E "getScript" "Script Not Found"), w).
Proof.
  intros H Hi. unfold getScript, member_of. step_M. rewrite H, Hi. reflexivity.
Qed.

(** For a name of [Object.prototype] that is no key of the registry,
    [getScript] returns an object that has an invalid date as [lastExecuted]
    and nothing else. *)
Lemma getScript_inherited (E : Engine) (id : string) (w : world) :
  get id (scripts w) = None ->
  inherited id = true ->
  getScript E id w = (Normal (<["lastExecuted" := VDate None]> ∅), w).
Proof.
  intros H Hi. unfold getScript, member_of. step_M. rewrite H, Hi. reflexivity.
Qed.

Lemma sets_prototype_false (id : string) (r : registry) :
  is_Some (get id r) \/ id <> "__proto__" -> sets_prototype id r = false.
Proof.
  unfold sets_prototype. intros [H|H].
  - rewrite (proj2 (mem_true_get id r) H). reflexivity.
  - destruct (String.eqb_spec id "__proto__"); [contradiction|].
    apply andb_false_r.
Qed.

(** The assignment [this.scripts[id] = script] for an id that makes or
    changes an own property. *)
Lemma scripts_assign_own (id : string) (script : obj) (w : world) :
  is_Some (get id (scripts w)) \/ id <> "__proto__" ->
  scripts_assign id script w = (Normal tt, with_scripts (set id script (scripts w)) w).
Proof.
  intros H. unfold scripts_assign. step_M. rewrite (sets_prototype_false _ _ H). reflexivity.
Qed.

Lemma prop_insert_eq (o : obj) (p : string) (v : jsval) : prop (<[p := v]> o) p = v.
Proof. unfold prop. rewrite lookup_insert_eq. reflexivity. Qed.

Lemma prop_insert_ne (o : obj) (p q : string) (v : jsval) :
  p <> q -> prop (<[p := v]> o) q = prop o q.
Proof. intros H. unfold prop. rewrite lookup_insert_ne by exact H. reflexivity. Qed.

(** What [createScript] stores and returns. *)
Lemma createScript_result (E : Engine) (name code : jsval) (w : world) :
  exists w1,
    let id := uuid_v4 E (uuid_next w) in
    let created : obj :=
      <["id" := VStr id]> (<["name" := name]> (<["code" := code]>
        (<["lastExecuted" := VNull]> ∅))) in
    App.createScript E name code w = (Normal created, w1)
    /\ get id (scripts w1) = Some created
    /\ st_scripts (settings w1) = Some (scripts w1).
Proof.
  eexists. unfold App.createScript. step_M.
  split; [reflexivity|]. split; [apply get_set_eq | reflexivity].
Qed.

Lemma createScriptV2_result (E : Engine) (script : obj) (w : world) :
  exists w1,
    let id := uuid_v4 E (uuid_next w) in
    let created : obj :=
      <["id" := VStr id]> (<["name" := prop script "name"]> (<["code" := prop script "code"]>
        (<["lastExecuted" := VNull]> ∅))) in
    Part000.createScriptV2 E script w = (Normal created, w1)
    /\ get id (scripts w1) = Some created
    /\ st_scripts (settings w1) = Some (scripts w1).
Proof.
  eexists. unfold Part000.createScriptV2. step_M.
  split; [reflexivity|]. split; [apply get_set_eq | reflexivity].
Qed.

Lemma get_after_create_holds (E : Engine) (create : M obj) (name code : jsval) (w w1 : world) :
  let id := uuid_v4 E (uuid_next w) in
  let created : obj :=
    <["id" := VStr id]> (<["name" := name]> (<["code" := code]>
      (<["lastExecuted" := VNull]> ∅))) in
  create w = (Normal created, w1) ->
  get id (scripts w1) = Some created ->
  get_after_create create (getScript E) name code (VDate (Some 0)) w.
Proof.
  intros id created Hc Hg.
  exists created, w1, id. do 2 eexists.
  split; [exact Hc|]. split; [apply prop_insert_eq|].
  split; [apply (getScript_found E _ _ _ Hg)|].
  subst created. unfold prop. rewrite !lookup_insert. simpl. auto.
Qed.

(** C2 (as the code has it): for every name and code, [get] on the id that
    [create(name, code)] returned gives a definition with that name and that
    code; its [lastExecuted] is the [Date] made from the stored [null], the
    time value 0, and the entry stored in the registry has [lastExecuted]
    [null].  It holds for [createScript] of [src/app.js] and for
    [createScriptV2] of [src/unnamed/part_000]. *)
Theorem get_after_create_epoch (E : Engine) (name code : jsval) (script : obj) (w : world) :
  get_after_create (App.createScript E name code) (getScript E)
                   name code (VDate (Some 0)) w
  /\ get_after_create (Part000.createScriptV2 E script) (getScript E)
                      (prop script "name") (prop script "code") (VDate (Some 0)) w
  /\ (exists created w1,
        App.createScript E name code w = (Normal created, w1)
        /\ get (uuid_v4 E (uuid_next w)) (scripts w1) = Some created
        /\ prop created "lastExecuted" = VNull).
Proof.
  destruct (createScript_result E name code w) as (w1 & Hc & Hg & _).
  destruct (createScriptV2_result E script w) as (w2 & Hc2 & Hg2 & _).
  split; [eapply get_after_create_holds; eauto|].
  split; [eapply get_after_create_holds; eauto|].
  do 2 eexists. split; [exact Hc|]. split; [exact Hg|].
  unfold prop. rewrite !lookup_insert. reflexivity.
Qed.

(** C2 (as stated) fails: after [createScript("n", "c")] on an empty
    registry, [getScript] does not return [lastExecuted == null]. *)
Lemma get_after_create_not_null :
  ~ get_after_create (App.createScript Sample.engine (VStr "n") (VStr "c"))
                     (getScript Sample.engine) (VStr "n") (VStr "c") VNull
                     Sample.empty_world.
Proof.
  intros (created & w1 & id & found & w2 & Hc & Hid & Hg & _ & _ & Hl).
  destruct (createScript_result Sample.engine (VStr "n") (VStr "c") Sample.empty_world)
    as (w1' & Hc' & Hg' & _).
  simpl in Hc', Hg'. rewrite Hc' in Hc. injection Hc as <- <-.
  rewrite prop_insert_eq in Hid. injection Hid as <-.
  rewrite (getScript_found _ _ _ _ Hg') in Hg. injection Hg as <- _.
  rewrite prop_insert_eq in Hl. discriminate Hl.
Qed.

(** *** Updates *)

Lemma lookup_assign_unless_null (p q : string) (v : jsval) (o : obj) :
  App.assign_unless_null p v o !! q =
  if decide (p = q) then (if nullish v then o !! q else Some v) else o !! q.
Proof.
  unfold App.assign_unless_null.
  destruct (nullish v); [destruct (decide (p = q)); reflexivity|].
  rewrite lookup_insert. destruct (decide (p = q)); reflexivity.
Qed.

(** What [updateScript] of [src/app.js] does, whether the id is known or
    not, when the assignment makes or changes an own property. *)
Lemma updateScript_result (id : string) (name code lastExecuted : jsval)
    (w : world) :
  is_Some (get id (scripts w)) \/ id <> "__proto__" ->
  exists new w',
    App.updateScript id name code lastExecuted w = (Normal new, w')
    /\ get id (scripts w') = Some new
    /\ st_scripts (settings w') = Some (scripts w')
    /\ (forall k, id <> k -> get k (scripts w') = get k (scripts w))
    /\ changes_only_given (given_fields name code lastExecuted)
                          (spread (get id (scripts w))) new.
Proof.
  intros Hown. do 2 eexists. unfold App.updateScript. step_M.
  rewrite (scripts_assign_own id _ w Hown). simpl.
  split; [reflexivity|]. split; [apply get_set_eq|]. split; [reflexivity|].
  split; [intros k Hk; apply get_set_ne, Hk|].
  intros p. unfold given_fields. rewrite !lookup_insert, lookup_empty.
  rewrite !lookup_assign_unless_null.
  repeat case_decide; subst; try discriminate;
    destruct (nullish name), (nullish code), (nullish lastExecuted); reflexivity.
Qed.

(** What [updateScriptV2] of [src/unnamed/part_000] does, when the
    assignment makes or changes an own property. *)
Lemma updateScriptV2_result (id : string) (script : obj) (w : world) :
  is_Some (get id (scripts w)) \/ id <> "__proto__" ->
  exists new w',
    Part000.updateScriptV2 id script w = (Normal new, w')
    /\ get id (scripts w') = Some new
    /\ st_scripts (settings w') = Some (scripts w')
    /\ (forall k, id <> k -> get k (scripts w') = get k (scripts w))
    /\ (forall p, new !! p =
          if decide (p = "id") then Some (VStr id)
          else match script !! p with
               | Some v => Some v
               | None => spread (get id (scripts w)) !! p
               end).
Proof.
  intros Hown. do 2 eexists. unfold Part000.updateScriptV2. step_M.
  rewrite (scripts_assign_own id _ w Hown). simpl.
  split; [reflexivity|]. split; [apply get_set_eq|]. split; [reflexivity|].
  split; [intros k Hk; apply get_set_ne, Hk|].
  intros p. rewrite lookup_insert. unfold spread2.
  destruct (decide ("id" = p)) as [<-|Hp]; [reflexivity|].
  rewrite decide_False by congruence.
  rewrite lookup_union. destruct (script !! p), (spread (get id (scripts w)) !! p); reflexivity.
Qed.

(** C6 (as the code has it): for an existing id, [updateScript] of
    [src/app.js] changes only those of [name], [code] and [lastExecuted] that
    are given with a value other than [null], and leaves every other field of
    the entry and every other entry as they were; [updateScriptV2] of
    [src/unnamed/part_000] sets every field that is given, a [null] one too,
    sets [id] to the key, and leaves the fields that are not given.  In both,
    an update with only [code] keeps [name], and an update with no field
    keeps every field other than [id]. *)
Theorem update_changes_given_fields (id : string) (old : obj)
    (name code lastExecuted : jsval) (script : obj) (w : world) :
  get id (scripts w) = Some old ->
  (exists new w',
     App.updateScript id name code lastExecuted w = (Normal new, w')
     /\ get id (scripts w') = Some new
     /\ (forall k, id <> k -> get k (scripts w') = get k (scripts w))
     /\ changes_only_given (given_fields name code lastExecuted) old new)
  /\ (exists new w',
        App.updateScript id VUndefined code VUndefined w = (Normal new, w')
        /\ new !! "name" = old !! "name" /\ new !! "id" = old !! "id")
  /\ (exists w', App.updateScript id VUndefined VUndefined VUndefined w = (Normal old, w'))
  /\ (exists new w',
        Part000.updateScriptV2 id script w = (Normal new, w')
        /\ get id (scripts w') = Some new
        /\ (forall k, id <> k -> get k (scripts w') = get k (scripts w))
        /\ new !! "id" = Some (VStr id)
        /\ (forall p v, p <> "id" -> script !! p = Some v -> new !! p = Some v)
        /\ (forall p, p <> "id" -> script !! p = None -> new !! p = old !! p)).
Proof.
  intros Hold.
  assert (Hown : is_Some (get id (scripts w)) \/ id <> "__proto__")
    by (left; rewrite Hold; eauto).
  split; [|split; [|split]].
  - destruct (updateScript_result id name code lastExecuted w Hown)
      as (new & w' & H1 & H2 & _ & H4 & H5).
    rewrite Hold in H5. exists new, w'. auto.
  - destruct (updateScript_result id VUndefined code VUndefined w Hown)
      as (new & w' & H1 & _ & _ & _ & H5).
    rewrite Hold in H5. exists new, w'. split; [exact H1|].
    split; [apply (H5 "name") | apply (H5 "id")].
  - eexists. unfold App.updateScript. step_M.
    rewrite (scripts_assign_own id _ w Hown). rewrite Hold. reflexivity.
  - destruct (updateScriptV2_result id script w Hown) as (new & w' & H1 & H2 & _ & H4 & H5).
    rewrite Hold in H5. exists new, w'.
    split; [exact H1|]. split; [exact H2|]. split; [exact H4|].
    split; [rewrite H5; reflexivity|].
    split; intros p; intros; rewrite H5, decide_False by assumption.
    + rewrite H0. reflexivity.
    + rewrite H0. reflexivity.
Qed.

Lemma update_changes_given_fields_witness :
  get "u" (scripts Sample.world_two_scripts) = Some Sample.script_u
  /\ exists new w',
       App.updateScript "u" VUndefined (VStr "return 3") VUndefined
                        Sample.world_two_scripts = (Normal new, w')
       /\ new !! "name" = Sample.script_u !! "name"
       /\ new !! "id" = Sample.script_u !! "id".
Proof.
  split; [reflexivity|].
  exact (proj1 (proj2
    (update_changes_given_fields "u" Sample.script_u VUndefined (VStr "return 3")
       VUndefined ∅ Sample.world_two_scripts eq_refl))).
Defined.

(** C6 (as stated) fails on [updateScriptV2]: a [name] given as [null]
    replaces the name of the entry. *)
Lemma updateScriptV2_null_overwrites :
  exists old new w',
    get "u" (scripts Sample.world_two_scripts) = Some old
    /\ Part000.updateScriptV2 "u" {[ "name" := VNull ]}
                              Sample.world_two_scripts = (Normal new, w')
    /\ ~ changes_only_given {[ "name" := VNull ]} old new.
Proof.
  destruct (updateScriptV2_result "u" {[ "name" := VNull ]} Sample.world_two_scripts)
    as (new & w' & H1 & _ & _ & _ & H5); [right; discriminate|].
  exists Sample.script_u, new, w'. split; [reflexivity|]. split; [exact H1|].
  intros H. specialize (H "name"). rewrite H5 in H.
  vm_compute in H. discriminate H.
Qed.




(** *** Migration 0 *)

Lemma with_scripts_same (w : world) : with_scripts (scripts w) w = w.
Proof. destruct w; reflexivity. Qed.

Lemma with_migrations_same (w : world) : with_migrations (migrations w) w = w.
Proof. destruct w; reflexivity. Qed.

Lemma get_migrate (k : string) (r : registry) :
  get k (App.migrate r) = (fun script => snd (App.migrate_entry (k, script))) <$> get k r.
Proof.
  unfold App.migrate, entries.
  induction r as [|[k0 s0] r IH]; simpl; [reflexivity|].
  destruct (App.lacks_name s0) eqn:Hs; simpl;
    (destruct (String.eqb_spec k k0) as [->|Hk]; simpl; [rewrite Hs; reflexivity | exact IH]).
Qed.

Lemma migrate_entry_idem (entry : string * obj) :
  App.migrate_entry (App.migrate_entry entry) = App.migrate_entry entry.
Proof.
  destruct entry as [k script]. unfold App.migrate_entry.
  destruct (App.lacks_name script) eqn:Hs; [|rewrite Hs; reflexivity].
  replace (App.lacks_name (<["id" := VStr k]> (<["name" := VStr k]> script))) with false;
    [reflexivity|].
  unfold App.lacks_name, prop.
  rewrite lookup_insert_ne by discriminate. rewrite lookup_insert_eq. reflexivity.
Qed.

Lemma migrate_idem (r : registry) : App.migrate (App.migrate r) = App.migrate r.
Proof.
  unfold App.migrate, entries. rewrite map_map. apply map_ext.
  intros entry. apply migrate_entry_idem.
Qed.

Lemma migrate_leaves_nothing_to_change (r : registry) :
  App.anyScriptChanged (App.migrate r) = false.
Proof.
  unfold App.anyScriptChanged, App.migrate, entries.
  induction r as [|[k script] r IH]; simpl; [reflexivity|]. rewrite IH.
  rewrite orb_false_r. unfold App.migrate_entry.
  destruct (App.lacks_name script) eqn:Hs; simpl; [|exact Hs].
  unfold App.lacks_name, prop.
  rewrite lookup_insert_ne by discriminate. rewrite lookup_insert_eq. reflexivity.
Qed.

(** The migration of [src/app.js], run again, leaves the application and the
    settings as they are. *)
Lemma app_migration_twice (w : world) :
  App.onInit_migration (snd (App.onInit_migration w)) =
  (Normal tt, snd (App.onInit_migration w)).
Proof.
  unfold App.onInit_migration. step_M.
  destruct (App.anyScriptChanged (scripts w)); simpl;
    rewrite migrate_idem, migrate_leaves_nothing_to_change;
    destruct w; reflexivity.
Qed.

Lemma not_in_keys_get (k : string) (r : registry) :
  k ∉ keys r -> get k r = None.
Proof.
  unfold keys. induction r as [|[k0 s0] r IH]; simpl; [reflexivity|].
  intros Hk. apply not_elem_of_cons in Hk as [Hne Hk].
  destruct (String.eqb_spec k k0); [congruence | auto].
Qed.

Lemma get_nextScripts_from (l acc : registry) (k : string) :
  unique_keys l ->
  get k (fold_left
           (fun next entry => let '(scriptId, script) := entry in
              set scriptId (<["name" := VStr scriptId]> (<["id" := VStr scriptId]> script)) next)
           l acc) =
  match get k l with
  | Some script => Some (backfilled k script)
  | None => get k acc
  end.
Proof.
  unfold unique_keys, keys. revert acc.
  induction l as [|[k0 s0] l IH]; intros acc Hnd; simpl; [reflexivity|].
  simpl in Hnd. apply NoDup_cons in Hnd as [Hk0 Hnd].
  rewrite IH by exact Hnd.
  destruct (String.eqb_spec k k0) as [->|Hk].
  - rewrite (not_in_keys_get k0 l Hk0). apply get_set_eq.
  - destruct (get k l); [reflexivity|]. apply get_set_ne. congruence.
Qed.

(** Migration 0 of [src/unnamed/part_000] gives every entry its key as [name]
    and as [id]. *)
Lemma get_nextScripts (r : registry) (k : string) :
  unique_keys r ->
  get k (Part000.nextScripts r) = backfilled k <$> get k r.
Proof.
  intros Hnd. unfold Part000.nextScripts, entries.
  rewrite get_nextScripts_from by exact Hnd.
  destruct (get k r); reflexivity.
Qed.

Lemma mem_false_not_in (k : string) (r : registry) :
  mem k r = false -> k ∉ keys r.
Proof.
  unfold keys. induction r as [|[k0 s0] r IH]; simpl; [intros _; apply not_elem_of_nil|].
  destruct (String.eqb_spec k k0) as [->|Hk]; [discriminate|].
  intros Hm. apply not_elem_of_cons. split; [exact Hk | apply IH, Hm].
Qed.

Lemma keys_replace (k : string) (v : obj) (r : registry) :
  keys (replace k v r) = keys r.
Proof.
  unfold keys. induction r as [|[k0 s0] r IH]; simpl; [reflexivity|].
  destruct (String.eqb k k0); simpl; [reflexivity | rewrite IH; reflexivity].
Qed.

Lemma keys_insert_index (n : N) (k : string) (v : obj) (r : registry) :
  keys (insert_index n k v r) ≡ₚ k :: keys r.
Proof.
  unfold keys. induction r as [|[k0 s0] r IH]; simpl; [reflexivity|].
  destruct (array_index k0) as [n0|]; [destruct (n <? n0)%N|]; simpl; try reflexivity.
  rewrite IH. apply Permutation_swap.
Qed.

(** An assignment keeps the keys of the registry distinct. *)
Lemma unique_keys_set (k : string) (v : obj) (r : registry) :
  unique_keys r -> unique_keys (set k v r).
Proof.
  unfold unique_keys, set. intros Hnd. destruct (mem k r) eqn:Hm.
  - rewrite keys_replace. exact Hnd.
  - apply mem_false_not_in in Hm. destruct (array_index k) as [n|].
    + rewrite keys_insert_index. apply NoDup_cons. auto.
    + unfold keys in *. rewrite map_app. simpl. apply NoDup_app.
      split; [exact Hnd|]. split; [|apply NoDup_singleton].
      intros x Hx Hx'. apply list_elem_of_singleton in Hx'. subst. contradiction.
Qed.

Lemma unique_keys_nextScripts (r : registry) : unique_keys (Part000.nextScripts r).
Proof.
  unfold Part000.nextScripts, entries.
  assert (H : forall l acc, unique_keys acc ->
            unique_keys (fold_left
              (fun next entry => let '(scriptId, script) := entry in
                 set scriptId (<["name" := VStr scriptId]> (<["id" := VStr scriptId]> script)) next)
              l acc)).
  { induction l as [|[k0 s0] l IH]; intros acc Hacc; simpl; [exact Hacc|].
    apply IH, unique_keys_set, Hacc. }
  apply H. apply NoDup_nil_2.
Qed.

Lemma backfilled_idem (k : string) (script : obj) :
  backfilled k (backfilled k script) = backfilled k script.
Proof.
  unfold backfilled. apply map_eq. intros p.
  rewrite !lookup_insert. repeat case_decide; reflexivity.
Qed.

(** The body of migration 0 of [src/unnamed/part_000], run on its own result,
    changes no entry. *)
Lemma nextScripts_idem (r : registry) (k : string) :
  unique_keys r ->
  get k (Part000.nextScripts (Part000.nextScripts r)) = get k (Part000.nextScripts r).
Proof.
  intros Hnd.
  rewrite (get_nextScripts (Part000.nextScripts r)) by apply unique_keys_nextScripts.
  rewrite (get_nextScripts r) by exact Hnd.
  destruct (get k r); simpl; [rewrite backfilled_idem|]; reflexivity.
Qed.

(** Migration 0 of [src/unnamed/part_000], run again, leaves the application
    and the settings as they are: the marker is there. *)
Lemma part000_migration_twice (w : world) :
  Part000.onInit_migration (snd (Part000.onInit_migration w)) =
  (Normal tt, snd (Part000.onInit_migration w)).
Proof.
  unfold Part000.onInit_migration, app_log, emit, settings_set_migrations. step_M.
  destruct (Part000.migration0 (default [] (st_migrations (settings w)))) eqn:Hm; simpl.
  - rewrite Hm. reflexivity.
  - destruct (default [] (st_migrations (settings w))); reflexivity.
Qed.

(** C5 (as the code has it): the migration of [src/app.js] sets [name] and
    [id] to the registry key on the entries whose [name] is no string and
    leaves the entries that have both as they are; migration 0 of
    [src/unnamed/part_000] sets [name] and [id] to the registry key on every
    entry, and runs only while the marker [migrations[0]] is absent.  In
    both, a second run alters nothing. *)
Theorem migration0_backfills_idempotent (r : registry) (k : string) (script : obj)
    (w : world) :
  unique_keys r ->
  get k r = Some script ->
  backfills_only_lacking App.migrate r
  /\ (is_string (prop script "name") = false ->
      get k (App.migrate r) = Some (<["id" := VStr k]> (<["name" := VStr k]> script)))
  /\ (is_string (prop script "name") = true -> get k (App.migrate r) = Some script)
  /\ App.migrate (App.migrate r) = App.migrate r
  /\ App.onInit_migration (snd (App.onInit_migration w)) =
     (Normal tt, snd (App.onInit_migration w))
  /\ get k (Part000.nextScripts r) = Some (backfilled k script)
  /\ get k (Part000.nextScripts (Part000.nextScripts r)) = get k (Part000.nextScripts r)
  /\ Part000.onInit_migration (snd (Part000.onInit_migration w)) =
     (Normal tt, snd (Part000.onInit_migration w)).
Proof.
  intros Hnd Hget.
  assert (Hm : forall k' s', get k' r = Some s' ->
            get k' (App.migrate r) =
            Some (if App.lacks_name s'
                  then <["id" := VStr k']> (<["name" := VStr k']> s') else s')).
  { intros k' s' H. rewrite get_migrate, H. simpl.
    destruct (App.lacks_name s'); reflexivity. }
  split; [|split; [|split; [|split; [|split; [|split; [|split]]]]]].
  - intros k' s' H [Hname _]. rewrite (Hm _ _ H).
    unfold App.lacks_name. rewrite Hname. reflexivity.
  - intros Hname. rewrite (Hm _ _ Hget). unfold App.lacks_name. rewrite Hname. reflexivity.
  - intros Hname. rewrite (Hm _ _ Hget). unfold App.lacks_name. rewrite Hname. reflexivity.
  - apply migrate_idem.
  - apply app_migration_twice.
  - rewrite get_nextScripts by exact Hnd. rewrite Hget. reflexivity.
  - apply nextScripts_idem, Hnd.
  - apply part000_migration_twice.
Qed.

Lemma legacy_keys_unique : unique_keys Sample.legacy_scripts.
Proof. unfold unique_keys. simpl. apply NoDup_singleton. Qed.

Lemma migration0_backfills_idempotent_witness :
  unique_keys Sample.legacy_scripts
  /\ get "example-hello" (App.migrate Sample.legacy_scripts) =
     Some (<["id" := VStr "example-hello"]> (<["name" := VStr "example-hello"]>
             (<["code" := VStr "log('hello')"]> (<["lastExecuted" := VNull]> ∅)))).
Proof.
  split; [exact legacy_keys_unique|].
  exact (proj1 (proj2
    (migration0_backfills_idempotent Sample.legacy_scripts "example-hello" _
       Sample.empty_world legacy_keys_unique eq_refl)) eq_refl).
Defined.

(** C5 (as stated) fails on migration 0 of [src/unnamed/part_000]: an entry
    that has a name and an id is given its key as name. *)
Lemma part000_migration_renames :
  ~ backfills_only_lacking Part000.nextScripts Sample.two_scripts.
Proof.
  intros H.
  specialize (H "u" Sample.script_u eq_refl (conj eq_refl eq_refl)).
  apply (f_equal (fun o => prop (default ∅ o) "name")) in H.
  vm_compute in H. discriminate H.
Qed.

(* ===================================================================== *)
(** ** The autocomplete listener                                           *)
(* ===================================================================== *)

Lemma ascii_toLowerCase_app (a b : string) :
  ascii_toLowerCase (a ++ b) = ascii_toLowerCase a ++ ascii_toLowerCase b.
Proof. induction a as [|c a IH]; simpl; [reflexivity | rewrite IH; reflexivity]. Qed.

(** A split of the lower-case form of a string is the lower-case form of a
    split of the string. *)
Lemma ascii_toLowerCase_app_inv (s a b : string) :
  ascii_toLowerCase s = a ++ b ->
  exists x y, s = x ++ y /\ ascii_toLowerCase x = a /\ ascii_toLowerCase y = b.
Proof.
  revert s. induction a as [|c a IH]; intros s H; simpl in H.
  - exists EmptyString, s. auto.
  - destruct s as [|c' s]; simpl in H; [discriminate|].
    injection H as Hc Hs. destruct (IH s Hs) as (x & y & -> & Hx & Hy).
    exists (String c' x), y. simpl. rewrite Hx, Hc. auto.
Qed.

Lemma startsWith_spec (s p : string) :
  startsWith s p = true <-> exists post, s = p ++ post.
Proof.
  revert s. induction p as [|a p IH]; intros s; simpl.
  - split; [intros _; exists s; reflexivity | reflexivity].
  - destruct s as [|b s].
    + split; [discriminate | intros [post H]; discriminate].
    + destruct (Ascii.eqb_spec a b) as [->|Hab].
      * rewrite IH. split; intros [post H]; exists post; [rewrite H; reflexivity|].
        injection H as H. exact H.
      * split; [discriminate | intros [post H]; injection H as H1 H2; congruence].
Qed.

Lemma includes_spec (s q : string) :
  includes s q = true <-> exists pre post, s = pre ++ q ++ post.
Proof.
  induction s as [|c s IH].
  - simpl. destruct (startsWith "" q) eqn:Hs.
    + apply startsWith_spec in Hs as [post Hs].
      split; [intros _; exists EmptyString, post; exact Hs | reflexivity].
    + split; [discriminate|]. intros (pre & post & H).
      destruct pre; simpl in H; [|discriminate].
      assert (startsWith "" q = true) by (apply startsWith_spec; eauto). congruence.
  - simpl. destruct (startsWith (String c s) q) eqn:Hs.
    + apply startsWith_spec in Hs as [post Hs].
      split; [intros _; exists EmptyString, post; exact Hs | reflexivity].
    + rewrite IH. split.
      * intros (pre & post & ->). exists (String c pre), post. reflexivity.
      * intros (pre & post & H). destruct pre as [|c' pre]; simpl in H.
        -- assert (startsWith (String c s) q = true) by (apply startsWith_spec; eauto).
           congruence.
        -- injection H as _ H. eauto.
Qed.

(** On the ASCII range, the test of the listener decides the containment of
    the query in the name, letter case aside. *)
Lemma includes_lower_spec (name query : string) :
  includes (ascii_toLowerCase name) (ascii_toLowerCase query) = true
  <-> contains_ci name query.
Proof.
  rewrite includes_spec. unfold contains_ci. split.
  - intros (pre & post & H).
    apply ascii_toLowerCase_app_inv in H as (x & y & -> & Hx & Hy).
    apply ascii_toLowerCase_app_inv in Hy as (mid & z & -> & Hmid & Hz).
    exists x, mid, z. auto.
  - intros (pre & mid & post & -> & H).
    exists (ascii_toLowerCase pre), (ascii_toLowerCase post).
    rewrite !ascii_toLowerCase_app, H. reflexivity.
Qed.

Lemma toLowerCase_ascii (E : Engine) (s : string) :
  ascii_only s = true -> toLowerCase E s = ascii_toLowerCase s.
Proof. intros H. unfold toLowerCase. rewrite H. reflexivity. Qed.

Lemma matches_ascii (E : Engine) (query text : string) :
  ascii_only query = true -> ascii_only text = true ->
  matches E query text = true <-> contains_ci text query.
Proof.
  intros Hq Ht. unfold matches. rewrite !toLowerCase_ascii by assumption.
  apply includes_lower_spec.
Qed.

Lemma selects_filter {A} (P : A -> Prop) (f : A -> bool) (l : list A) :
  (forall x, In x l -> (f x = true <-> P x)) ->
  selects P l (List.filter f l).
Proof.
  induction l as [|x l IH]; intros H; simpl; [constructor|].
  assert (Hl : selects P l (List.filter f l))
    by (apply IH; intros y Hy; apply H; right; exact Hy).
  destruct (f x) eqn:Hx.
  - apply selects_keep; [apply H; [left; reflexivity | exact Hx] | exact Hl].
  - apply selects_drop; [|exact Hl].
    intros HP. apply H in HP; [congruence | left; reflexivity].
Qed.

Lemma filter_by_name_strings (E : Engine) (query : string) (l : list obj) (w : world) :
  (forall script, In script l -> is_string (prop script "name") = true) ->
  App.filter_by_name E query l w = (Normal (List.filter (name_matches E query) l), w).
Proof.
  induction l as [|script l IH]; intros H; simpl; [reflexivity|].
  assert (Hs := H script (or_introl eq_refl)).
  unfold App.name_toLowerCase, name_matches, matches. step_M.
  destruct (prop script "name"); try discriminate Hs. simpl.
  rewrite IH by (intros s' Hs'; apply H; right; exact Hs').
  destruct (includes (toLowerCase E s) (toLowerCase E query)); reflexivity.
Qed.

(** For a query and a name of the ASCII range, the test of the listener of
    [src/app.js] is the containment of the query in the name, letter case
    aside. *)
Lemma name_matches_spec (E : Engine) (query : string) (script : obj) :
  ascii_only query = true ->
  (forall name, prop script "name" = VStr name -> ascii_only name = true) ->
  name_matches E query script = true <-> name_contains query script.
Proof.
  intros Hq Hn. unfold name_matches, name_contains.
  destruct (prop script "name") eqn:Hname;
    try (split; [discriminate | intros (nm & Hc & _); discriminate]).
  rewrite (matches_ascii E query s Hq (Hn s eq_refl)). split.
  - intros H. exists s. auto.
  - intros (nm & Hc & H). injection Hc as ->. exact H.
Qed.

(** The listener of [src/app.js] on a registry whose names are strings. *)
Lemma app_autocomplete_answers (E : Engine) (query : string) (w : world) :
  (forall script, In script (values (scripts w)) -> is_string (prop script "name") = true) ->
  answers (fun script => name_matches E query script = true) (values (scripts w)) id_name
          (App.onFlowGetScriptAutocomplete E query) w.
Proof.
  intros Hnames.
  exists (List.filter (name_matches E query) (values (scripts w))). split.
  - apply selects_filter. intros script _. tauto.
  - unfold App.onFlowGetScriptAutocomplete, getScripts. step_M.
    rewrite filter_by_name_strings by exact Hnames. reflexivity.
Qed.

Lemma app_autocomplete_ascii (E : Engine) (query : string) (w : world) :
  (forall script, In script (values (scripts w)) -> is_string (prop script "name") = true) ->
  ascii_only query = true ->
  ascii_names (scripts w) ->
  search_by_name (App.onFlowGetScriptAutocomplete E) query w.
Proof.
  intros Hnames Hq Hascii.
  exists (List.filter (name_matches E query) (values (scripts w))). split.
  - apply selects_filter. intros script Hin.
    apply name_matches_spec; [exact Hq | intros name; apply Hascii, Hin].
  - unfold App.onFlowGetScriptAutocomplete, getScripts. step_M.
    rewrite filter_by_name_strings by exact Hnames. reflexivity.
Qed.

(** C7 (as the code has it): in [src/app.js], on a registry whose entries all
    have a string as [name], the listener returns for every query exactly the
    scripts for which [name.toLowerCase()] includes [query.toLowerCase()],
    each as [{ id, name }], in the order of the registry and unranked; for a
    query and names of the ASCII range these are the scripts whose name
    contains the query, letter case aside.  In [src/unnamed/part_000] it
    returns, on every registry, the registry keys whose lower-case form
    includes the one of the query, each as [{ id: key, name: key }], in the
    order of the registry; for a query and keys of the ASCII range these are
    the keys that contain the query, letter case aside. *)
Theorem autocomplete_selects (E : Engine) (query : string) (w : world) :
  ((forall script, In script (values (scripts w)) -> is_string (prop script "name") = true) ->
   answers (fun script => name_matches E query script = true) (values (scripts w)) id_name
           (App.onFlowGetScriptAutocomplete E query) w
   /\ (ascii_only query = true -> ascii_names (scripts w) ->
       search_by_name (App.onFlowGetScriptAutocomplete E) query w))
  /\ answers (fun key => matches E query key = true) (keys (scripts w)) Part000.suggestion
             (Part000.onFlowGetScriptAutocomplete E query) w
  /\ (ascii_only query = true ->
      (forall key, In key (keys (scripts w)) -> ascii_only key = true) ->
      answers (fun key => contains_ci key query) (keys (scripts w)) Part000.suggestion
              (Part000.onFlowGetScriptAutocomplete E query) w).
Proof.
  split; [|split].
  - intros Hnames. split; [apply app_autocomplete_answers, Hnames|].
    intros Hq Hascii. apply app_autocomplete_ascii; assumption.
  - eexists. split; [|reflexivity].
    apply selects_filter. intros key _. unfold matches. tauto.
  - intros Hq Hkeys. eexists. split; [|reflexivity].
    apply selects_filter. intros key Hin.
    apply (matches_ascii E query key Hq (Hkeys key Hin)).
Qed.

Lemma autocomplete_selects_witness :
  search_by_name (App.onFlowGetScriptAutocomplete Sample.engine) "FOO"
                 Sample.world_two_scripts.
Proof.
  refine (proj2 (proj1 (autocomplete_selects Sample.engine "FOO" Sample.world_two_scripts) _)
            eq_refl _).
  - intros script [<-|[<-|[]]]; reflexivity.
  - intros script name [<-|[<-|[]]] [= <-]; reflexivity.
Defined.

(** C7 (as stated) fails on [src/unnamed/part_000]: the query [foo] does not
    find the script named [My Foo], whose key is [uu]. *)
Lemma part000_autocomplete_misses_name :
  ~ search_by_name (Part000.onFlowGetScriptAutocomplete Sample.engine) "foo"
                   Sample.world_two_scripts.
Proof.
  intros (found & Hsel & Hres).
  assert (Hfound : found = []).
  { assert (Hl : fst (Part000.onFlowGetScriptAutocomplete Sample.engine "foo"
                        Sample.world_two_scripts)
                 = Normal []) by (vm_compute; reflexivity).
    rewrite Hres in Hl. simpl in Hl. injection Hl as Hl.
    destruct found; [reflexivity | discriminate Hl]. }
  subst found. simpl in Hsel.
  assert (Hfoo : name_contains "foo" Sample.script_uu).
  { exists "My Foo". split; [reflexivity|]. exists "My ", "Foo", "". split; reflexivity. }
  inversion Hsel as [| |x l f Hu Hsel']; subst.
  inversion Hsel' as [| |x l f Huu _]; subst.
  exact (Huu Hfoo).
Qed.

(* ===================================================================== *)
(** ** What a method leaves unchanged                                      *)
(* ===================================================================== *)

Section Keeps.
Context (R : world -> world -> Prop).
Hypothesis R_refl : forall w, R w w.
Hypothesis R_trans : forall a b c, R a b -> R b c -> R a c.

Lemma keeps_ret {A} (a : A) : keeps R (mret a).
Proof. intros w. apply R_refl. Qed.

Lemma keeps_throw {A} (v : jsval) : keeps R (mthrow v : M A).
Proof. intros w. apply R_refl. Qed.

Lemma keeps_get_world : keeps R get_world.
Proof. intros w. apply R_refl. Qed.

Lemma keeps_bind {A B} (m : M A) (f : A -> M B) :
  keeps R m -> (forall a, keeps R (f a)) -> keeps R (m ≫= f).
Proof.
  intros Hm Hf w. unfold mbind, M_bind. specialize (Hm w).
  destruct (m w) as [[a|v] w1]; simpl in *; [|exact Hm].
  eapply R_trans; [exact Hm | apply Hf].
Qed.

Lemma keeps_try_catch {A} (m : M A) (h : jsval -> M A) :
  keeps R m -> (forall v, keeps R (h v)) -> keeps R (try_catch m h).
Proof.
  intros Hm Hh w. unfold try_catch. specialize (Hm w).
  destruct (m w) as [[a|v] w1]; simpl in *; [exact Hm|].
  eapply R_trans; [exact Hm | apply Hh].
Qed.

Lemma keeps_attempt {A} (m : M A) : keeps R m -> keeps R (attempt m).
Proof.
  intros Hm w. unfold attempt. specialize (Hm w).
  destruct (m w) as [r w1]. exact Hm.
Qed.

Lemma keeps_modify (f : world -> world) :
  (forall w, R w (f w)) -> keeps R (modify f).
Proof. intros H w. apply H. Qed.

End Keeps.

Lemma extends_refl (allowed : event -> bool) (w : world) : extends allowed w w.
Proof.
  split; [reflexivity|]. split; [reflexivity|].
  exists []. rewrite app_nil_r. split; reflexivity.
Qed.

Lemma extends_trans (allowed : event -> bool) (a b c : world) :
  extends allowed a b -> extends allowed b c -> extends allowed a c.
Proof.
  intros (H1 & H2 & evs & H3 & H4) (H1' & H2' & evs' & H3' & H4').
  split; [congruence|]. split; [congruence|].
  exists (evs ++ evs')%list. split.
  - rewrite H3', H3, <- app_assoc. reflexivity.
  - rewrite forallb_app, H4, H4'. reflexivity.
Qed.

Lemma extends_weaken (P Q : event -> bool) (w w' : world) :
  (forall e, P e = true -> Q e = true) -> extends P w w' -> extends Q w w'.
Proof.
  intros HPQ (H1 & H2 & evs & H3 & H4).
  split; [exact H1|]. split; [exact H2|]. exists evs. split; [exact H3|].
  apply forallb_forall. intros e He. apply HPQ.
  rewrite forallb_forall in H4. apply H4, He.
Qed.

Lemma keeps_weaken {A} (P Q : event -> bool) (m : M A) :
  (forall e, P e = true -> Q e = true) -> keeps (extends P) m -> keeps (extends Q) m.
Proof. intros HPQ H w. eapply extends_weaken; [exact HPQ | apply H]. Qed.

Lemma keeps_emit (allowed : event -> bool) (e : event) :
  allowed e = true -> keeps (extends allowed) (emit e).
Proof.
  intros He w. split; [reflexivity|]. split; [reflexivity|].
  exists [e]. split; [reflexivity|]. simpl. rewrite He. reflexivity.
Qed.

(** A change of the fields that are neither the trace nor the host-API
    objects. *)
Ltac extends_fields :=
  split; [reflexivity|]; split; [reflexivity|];
  exists []; rewrite app_nil_r; split; reflexivity.

Ltac keeps_fields := apply keeps_modify; intros ?; extends_fields.

Ltac keeps_bind_tac :=
  apply keeps_bind; [apply extends_trans| |intros ?].

Lemma keeps_answer (allowed : event -> bool) : keeps (extends allowed) answer.
Proof.
  intros w. unfold answer, ask. step_M.
  destruct (oracle w) as [|[err|] rest]; simpl; extends_fields.
Qed.

Lemma keeps_settings_set_tokens (allowed : event -> bool) :
  keeps (extends allowed) settings_set_tokens.
Proof. unfold settings_set_tokens. keeps_fields. Qed.

Lemma keeps_settings_set_scripts (allowed : event -> bool) :
  keeps (extends allowed) settings_set_scripts.
Proof. unfold settings_set_scripts. keeps_fields. Qed.

Lemma keeps_token_call (e : event) :
  token_event e = true -> keeps (extends token_event) (emit e;; answer).
Proof.
  intros He. keeps_bind_tac; [apply keeps_emit, He | apply keeps_answer].
Qed.

(** [setToken] makes calls to the platform and logs failures with
    [this.error]; it writes no log line and touches no host-API object. *)
Lemma keeps_setToken (E : Engine) (id : string) (value type : jsval) :
  keeps (extends token_event) (setToken E id value type).
Proof.
  unfold setToken, member_of. destruct (nullish value).
  - keeps_bind_tac; [apply keeps_get_world, extends_refl|].
    keeps_bind_tac.
    + destruct (tokensInstances a !! id); [|destruct (inherited id)].
      * unfold catch_error. apply keeps_try_catch; [apply extends_trans| |].
        -- unfold token_unregister. apply keeps_token_call. reflexivity.
        -- intros v. unfold app_error. apply keeps_emit. reflexivity.
      * apply keeps_throw, extends_refl.
      * apply keeps_ret, extends_refl.
    + keeps_bind_tac; [apply keeps_get_world, extends_refl|].
      destruct (tokens a1 !! id); [|destruct (inherited id)];
        first [ apply keeps_ret, extends_refl
              | keeps_bind_tac; [keeps_fields|];
                keeps_bind_tac; [keeps_fields|];
                apply keeps_settings_set_tokens ].
  - keeps_bind_tac; [apply keeps_get_world, extends_refl|].
    destruct (tokensInstances a !! id); [|destruct (inherited id)].
    + keeps_bind_tac; [unfold token_setValue; apply keeps_token_call; reflexivity|].
      keeps_bind_tac; [apply keeps_get_world, extends_refl|].
      destruct (tokens a1 !! id); [|destruct (inherited id)].
      * keeps_bind_tac; [keeps_fields|]. apply keeps_settings_set_tokens.
      * keeps_bind_tac; [apply keeps_emit; reflexivity|].
        apply keeps_settings_set_tokens.
      * apply keeps_throw, extends_refl.
    + apply keeps_throw, extends_refl.
    + keeps_bind_tac.
      * unfold flow_createToken.
        keeps_bind_tac; [apply keeps_emit; reflexivity|].
        keeps_bind_tac; [apply keeps_answer|]. apply keeps_ret, extends_refl.
      * keeps_bind_tac; [keeps_fields|].
        keeps_bind_tac; [keeps_fields|].
        apply keeps_settings_set_tokens.
Qed.

Ltac keeps_step :=
  first
    [ apply keeps_ret, extends_refl
    | apply keeps_throw, extends_refl
    | apply keeps_get_world, extends_refl
    | apply keeps_emit; reflexivity
    | apply keeps_answer
    | apply keeps_settings_set_scripts
    | keeps_fields
    | apply keeps_attempt
    | apply keeps_bind; [apply extends_trans | | intros ?]
    | apply keeps_try_catch; [apply extends_trans | | intros ?] ].

Ltac keeps_auto := repeat keeps_step.

Lemma token_event_run_event (e : event) : token_event e = true -> run_event e = true.
Proof. unfold token_event, run_event. destruct (is_api_event e); [discriminate | reflexivity]. Qed.

Lemma keeps_run_log (E : Engine) (name id : jsval) (realtime : bool) (props : list jsval) :
  keeps (extends run_event) (run_log E name id realtime props).
Proof. unfold run_log, app_log. destruct realtime; keeps_auto. Qed.

Lemma keeps_cap_setTagValue (E : Engine) (log : list jsval -> M unit)
    (id : string) (opts : option obj) (value : jsval) :
  (forall props, keeps (extends run_event) (log props)) ->
  keeps (extends run_event) (cap_setTagValue E log id opts value).
Proof.
  intros Hlog. unfold cap_setTagValue.
  apply keeps_bind; [apply extends_trans | apply Hlog | intros _].
  destruct opts; [|keeps_auto].
  eapply keeps_weaken; [apply token_event_run_event | apply keeps_setToken].
Qed.

(** The code of a script, whatever it does with its context, creates and
    destroys no host-API object. *)
Lemma keeps_exec (E : Engine) (log : list jsval -> M unit) (api : nat) (p : prog) :
  (forall props, keeps (extends run_event) (log props)) ->
  keeps (extends run_event) (exec E log api p).
Proof.
  intros Hlog. induction p as [v|v| |props k IH|text k IH|id value k IH|delay k IH
                               |key k IH|key value k IH|k IH|id opts value k IH]; simpl.
  - keeps_auto.
  - keeps_auto.
  - keeps_auto.
  - apply keeps_bind; [apply extends_trans | apply Hlog | intros _; exact IH].
  - apply keeps_bind; [apply extends_trans | | intros r; apply IH].
    unfold cap_say. keeps_auto.
  - apply keeps_bind; [apply extends_trans | | intros r; apply IH].
    apply keeps_attempt. unfold cap_tag.
    eapply keeps_weaken; [apply token_event_run_event | apply keeps_setToken].
  - apply keeps_bind; [apply extends_trans | | intros _; exact IH].
    unfold cap_wait. keeps_auto.
  - apply keeps_bind; [apply extends_trans | | intros r; apply IH].
    unfold cap_global_get, settings_get. keeps_auto.
  - apply keeps_bind; [apply extends_trans | | intros _; exact IH].
    unfold cap_global_set, settings_set. keeps_auto.
  - apply keeps_bind; [apply extends_trans | | intros r; apply IH].
    unfold cap_global_keys, settings_getKeys. keeps_auto.
  - apply keeps_bind; [apply extends_trans | | intros r; apply IH].
    apply keeps_attempt, keeps_cap_setTagValue, Hlog.
Qed.

Lemma keeps_run_vm (E : Engine) (code filename : string) (ctx : RunContext)
    (log : list jsval -> M unit) (api : nat) :
  (forall props, keeps (extends run_event) (log props)) ->
  keeps (extends run_event) (run_vm E code filename ctx log api).
Proof.
  intros Hlog. unfold run_vm.
  destruct (compile E (wrap code) filename); [keeps_auto | apply keeps_exec, Hlog].
Qed.

Lemma keeps_read_stack (E : Engine) (site : string) (err : jsval) :
  keeps (extends run_event) (App.read_stack E site err).
Proof. unfold App.read_stack. destruct err; keeps_auto. Qed.

Lemma keeps_read_message (E : Engine) (site : string) (err : jsval) :
  keeps (extends run_event) (App.read_message E site err).
Proof. unfold App.read_message. destruct err; keeps_auto. Qed.

Lemma keeps_log_success (E : Engine) (log : list jsval -> M unit) (result : jsval) :
  (forall props, keeps (extends run_event) (log props)) ->
  keeps (extends run_event) (App.log_success E log result).
Proof.
  intros Hlog. unfold App.log_success.
  apply keeps_bind; [apply extends_trans | apply Hlog | intros _; apply Hlog].
Qed.

Lemma keeps_log_failure (E : Engine) (log : list jsval -> M unit) (err : jsval) :
  (forall props, keeps (extends run_event) (log props)) ->
  keeps (extends run_event) (App.log_failure E log err).
Proof.
  intros Hlog. unfold App.log_failure.
  apply keeps_bind; [apply extends_trans | apply Hlog | intros _].
  apply keeps_bind; [apply extends_trans | apply keeps_read_stack | intros stack; apply Hlog].
Qed.

Lemma keeps_app_run_try (E : Engine) (id name code : jsval) (realtime : bool)
    (ctx : RunContext) (api : nat) :
  keeps (extends run_event) (App.run_try E id name code realtime ctx api).
Proof.
  unfold App.run_try, App.run_catch.
  apply keeps_try_catch; [apply extends_trans | | intros err].
  - apply keeps_bind; [apply extends_trans | apply keeps_run_vm, keeps_run_log | intros r].
    apply keeps_bind; [apply extends_trans | | intros result].
    + destruct r as [|[result|err]]; keeps_auto.
    + apply keeps_bind; [apply extends_trans | | intros _; keeps_auto].
      apply keeps_log_success, keeps_run_log.
  - apply keeps_bind; [apply extends_trans | | intros _].
    + apply keeps_log_failure, keeps_run_log.
    + apply keeps_bind; [apply extends_trans | apply keeps_read_message | intros message].
      apply keeps_bind; [apply extends_trans | apply keeps_read_stack | intros stack].
      keeps_auto.
Qed.

Lemma keeps_touch (entry : option string) (t : Z) :
  keeps (extends run_event) (Part000.touch entry t).
Proof.
  unfold Part000.touch. destruct entry as [key|]; [|keeps_auto].
  apply keeps_modify. intros w. destruct (get key (scripts w)); extends_fields.
Qed.

Lemma keeps_part000_run_try (E : Engine) (code : jsval) (script : obj)
    (entry : option string) (realtime : bool) (ctx : RunContext) (api : nat) :
  keeps (extends run_event) (Part000.run_try E code script entry realtime ctx api).
Proof.
  unfold Part000.run_try, Part000.run_catch, Date_now.
  apply keeps_try_catch; [apply extends_trans | | intros err].
  - apply keeps_bind; [apply extends_trans | keeps_auto | intros started].
    apply keeps_bind; [apply extends_trans | apply keeps_run_vm, keeps_run_log | intros r].
    apply keeps_bind; [apply extends_trans | | intros settled].
    + destruct r as [|settled]; keeps_auto.
    + apply keeps_bind; [apply extends_trans | apply keeps_touch | intros _].
      apply keeps_bind; [apply extends_trans | | intros _].
      * destruct (Part000.is_void (prop script "id")); keeps_auto.
      * apply keeps_bind; [apply extends_trans | | intros result].
        -- destruct settled; keeps_auto.
        -- apply keeps_bind; [apply extends_trans | | intros _; keeps_auto].
           apply keeps_log_success, keeps_run_log.
  - apply keeps_bind; [apply extends_trans | | intros _].
    + apply keeps_log_failure, keeps_run_log.
    + apply keeps_bind; [apply extends_trans | apply keeps_read_message | intros message].
      keeps_auto.
Qed.

(* ===================================================================== *)
(** ** The run engine                                                      *)
(* ===================================================================== *)

Lemma app_run_setup_ok (E : Engine) (id name lastExecuted : jsval) (args : list jsval)
    (w : world) :
  date_or_absent lastExecuted ->
  exists ctx, App.run_setup E id name lastExecuted args w =
              (Normal (api_next w, ctx), acquired w).
Proof.
  intros Hd. unfold App.run_setup, getHomeyAPI, Date_now, emit. step_M.
  destruct lastExecuted as [| | | | |t|]; simpl in Hd; try contradiction;
    simpl; eexists; reflexivity.
Qed.

Lemma part000_run_setup_ok (E : Engine) (script : option obj) (args : list jsval)
    (w : world) :
  (forall s, script = Some s -> exists t, prop s "lastExecuted" = VDate t) ->
  exists s ctx, Part000.run_setup E script args w =
                (Normal (s, api_next w, ctx), acquired w).
Proof.
  intros Hd. unfold Part000.run_setup, getHomeyAPI, Date_now, emit. step_M.
  destruct script as [s|].
  - destruct (Hd s eq_refl) as [t Ht]. simpl. rewrite Ht. simpl.
    do 2 eexists. reflexivity.
  - simpl. do 2 eexists. reflexivity.
Qed.

(** [runScript] is its [try] and its [finally] after the object was created. *)
Lemma app_runScript_unfold (E : Engine) (id name code lastExecuted : jsval)
    (args : list jsval) (realtime : bool) (w : world) :
  date_or_absent lastExecuted ->
  exists ctx,
    App.run_setup E id name lastExecuted args w = (Normal (api_next w, ctx), acquired w)
    /\ App.runScript E id name code lastExecuted args realtime w =
       finally (App.run_try E id name code realtime ctx (api_next w))
               (api_destroy (api_next w)) (acquired w).
Proof.
  intros Hd. destruct (app_run_setup_ok E id name lastExecuted args w Hd) as [ctx Hsetup].
  exists ctx. split; [exact Hsetup|].
  unfold App.runScript, mbind, M_bind. rewrite Hsetup. reflexivity.
Qed.

Lemma part000_runScript_unfold (E : Engine) (code : jsval) (script : Part000.script_arg)
    (args : list jsval) (realtime : bool) (w : world) :
  let passed := Part000.resolve script (scripts w) in
  (forall s, fst passed = Some s -> exists t, prop s "lastExecuted" = VDate t) ->
  exists s ctx,
    Part000.run_setup E (fst passed) args w = (Normal (s, api_next w, ctx), acquired w)
    /\ Part000.runScript E code script args realtime w =
       finally (Part000.run_try E code s (snd passed) realtime ctx (api_next w))
               (api_destroy (api_next w)) (acquired w).
Proof.
  intros passed Hd.
  destruct (part000_run_setup_ok E (fst passed) args w Hd) as (s & ctx & Hsetup).
  exists s, ctx. split; [exact Hsetup|].
  unfold Part000.runScript, mbind, M_bind, get_world. fold passed.
  destruct passed as [object entry]. simpl in *. rewrite Hsetup. reflexivity.
Qed.

(** [finally { homeyAPI.destroy() }]: the completion of the [try] stands, and
    the object is destroyed in the world the [try] ended in. *)
Lemma finally_destroy {A} (m : M A) (n : nat) (w : world) :
  fst (finally m (api_destroy n) w) = fst (m w)
  /\ snd (finally m (api_destroy n) w) =
     with_trace (trace (snd (m w)) ++ [EvApiDestroy n])
       (with_api (api_next (snd (m w))) (api_live (snd (m w)) ∖ {[ n ]}) (snd (m w))).
Proof.
  unfold finally, api_destroy, emit. step_M.
  destruct (m w) as [r w']. simpl. split; reflexivity.
Qed.

(** A run whose [try] creates and destroys no host-API object creates one
    object, its own, and has destroyed it when it ends. *)
Lemma run_releases {A} (m : M A) (w : world) :
  keeps (extends run_event) m ->
  let n := api_next w in
  let w' := snd (finally m (api_destroy n) (acquired w)) in
  (n ∉ api_live w')
  /\ api_live w' = api_live w ∖ {[ n ]}
  /\ api_next w' = S n
  /\ exists evs, trace w' = (trace w ++ [EvApiCreate n] ++ evs ++ [EvApiDestroy n])%list
                 /\ forallb run_event evs = true.
Proof.
  intros Hm n w'. subst w'.
  destruct (finally_destroy m n (acquired w)) as [_ ->].
  destruct (Hm (acquired w)) as (Hnext & Hlive & evs & Htr & Hevs).
  simpl. rewrite Hlive, Hnext, Htr. simpl.
  split; [set_solver|]. split; [set_solver|]. split; [reflexivity|].
  exists evs. split; [|exact Hevs].
  rewrite <- !app_assoc. reflexivity.
Qed.

(** Every run creates a host-API object of its own, [api_next w] (the next
    run creates the next one), and when the [try] of [runScript] is reached,
    that is, when [lastExecuted] is a [Date] or absent, the object is
    destroyed however the run ends (the script returns, it throws, the VM
    reports the deadline, the script does not compile), once, as the last
    thing the run does; it is no longer among the live objects. *)
Lemma run_releases_its_handle (E : Engine) (id name code lastExecuted : jsval)
    (script : Part000.script_arg) (args : list jsval) (realtime : bool) (w : world) :
  date_or_absent lastExecuted ->
  (forall s, fst (Part000.resolve script (scripts w)) = Some s ->
             exists t, prop s "lastExecuted" = VDate t) ->
  let n := api_next w in
  (let w' := snd (App.runScript E id name code lastExecuted args realtime w) in
   (n ∉ api_live w')
   /\ api_live w' = api_live w ∖ {[ n ]}
   /\ api_next w' = S n
   /\ exists evs, trace w' = (trace w ++ [EvApiCreate n] ++ evs ++ [EvApiDestroy n])%list
                  /\ forallb run_event evs = true)
  /\ (let w' := snd (Part000.runScript E code script args realtime w) in
      (n ∉ api_live w')
      /\ api_live w' = api_live w ∖ {[ n ]}
      /\ api_next w' = S n
      /\ exists evs, trace w' = (trace w ++ [EvApiCreate n] ++ evs ++ [EvApiDestroy n])%list
                     /\ forallb run_event evs = true).
Proof.
  intros Hd Hs n. split.
  - destruct (app_runScript_unfold E id name code lastExecuted args realtime w Hd)
      as (ctx & _ & ->).
    apply (run_releases (App.run_try E id name code realtime ctx (api_next w)) w).
    apply keeps_app_run_try.
  - destruct (part000_runScript_unfold E code script args realtime w Hs)
      as (s & ctx & _ & ->).
    apply (run_releases (Part000.run_try E code s _ realtime ctx (api_next w)) w).
    apply keeps_part000_run_try.
Qed.

(** C9 fails on the path on which [runScript] throws before its [try]:
    [getHomeyAPI()] is awaited first, the context is built next, and
    [lastExecuted.getTime()] throws there for a [lastExecuted] that is no
    [Date]; the [finally] that destroys the object belongs to the [try] that
    follows, so the object stays alive.  In [src/app.js] for a [lastExecuted]
    given as a string (a date as JSON carries it); in
    [src/unnamed/part_000] for a script object whose [lastExecuted] is
    [null], as [createScriptV2] returns it. *)
Theorem run_leaks_handle_before_try :
  (let r := App.runScript Sample.engine (VStr "u") (VStr "Lights") (VStr "return 1+1")
              (VStr "2021-01-01T00:00:00.000Z") [] true Sample.world_two_scripts in
   fst r = Throw (new_TypeError Sample.engine "runScript"
                    "lastExecuted.getTime is not a function")
   /\ trace (snd r) = [EvApiCreate 0%nat]
   /\ 0%nat ∈ api_live (snd r))
  /\ (let r := Part000.runScript Sample.engine VUndefined
                 (Part000.OwnObject Sample.script_u) [] true Sample.world_two_scripts in
      fst r = Throw (new_TypeError Sample.engine "runScript"
                       "Cannot read properties of null (reading 'getTime')")
      /\ trace (snd r) = [EvApiCreate 0%nat]
      /\ 0%nat ∈ api_live (snd r)).
Proof.
  split.
  - split; [vm_compute; reflexivity|]. split; [vm_compute; reflexivity|].
    vm_compute. reflexivity.
  - split; [vm_compute; reflexivity|]. split; [vm_compute; reflexivity|].
    vm_compute. reflexivity.
Qed.

(** *** The error of a failed run *)

Lemma run_log_normal (E : Engine) (name id : jsval) (realtime : bool)
    (props : list jsval) (w : world) :
  fst (run_log E name id realtime props w) = Normal tt.
Proof. unfold run_log, app_log, emit. step_M. destruct realtime; reflexivity. Qed.

(** The [catch] of [src/app.js], for a caught [Error] object. *)
Lemma app_run_catch_error (E : Engine) (name id : jsval) (realtime : bool)
    (e : ErrorObj) (w : world) :
  fst (App.run_catch E (run_log E name id realtime) (VError e) w) =
  Throw (VError (normalized e)).
Proof.
  unfold App.run_catch, App.log_failure, App.read_stack, App.read_message,
         run_log, app_log, emit, normalized.
  step_M. destruct realtime, (err_stack e); reflexivity.
Qed.

(** The [catch] of [src/unnamed/part_000], for a caught [Error] object: the
    stack is the one of the new error, made in [runScript]. *)
Lemma part000_run_catch_error (E : Engine) (name id : jsval) (realtime : bool)
    (e : ErrorObj) (w : world) :
  fst (Part000.run_catch E (run_log E name id realtime) (VError e) w) =
  Throw (VError (MkError "Error" (err_message e)
                   (Some (host_stack E "runScript" (err_message e))) None Host)).
Proof.
  unfold Part000.run_catch, App.log_failure, App.read_stack, App.read_message,
         run_log, app_log, emit, host_error.
  step_M. destruct realtime, (err_stack e); reflexivity.
Qed.

Lemma app_run_try_fails (E : Engine) (id name code : jsval) (realtime : bool)
    (ctx : RunContext) (api : nat) (w : world) (e : ErrorObj) :
  vm_fails_with (timeout_error E RUN_TIMEOUT)
    (fst (run_vm E (to_string E code) (to_string E name ++ ".js") ctx
            (run_log E name id realtime) api w)) e ->
  fst (App.run_try E id name code realtime ctx api w) = Throw (VError (normalized e)).
Proof.
  unfold App.run_try, try_catch, mbind, M_bind, mthrow, M_throw.
  destruct (run_vm E (to_string E code) (to_string E name ++ ".js") ctx
              (run_log E name id realtime) api w) as [[r|v] w1]; cbn [fst vm_fails_with].
  - destruct r as [|[result|err]]; [| |destruct err]; try contradiction;
      intros <-; apply app_run_catch_error.
  - destruct v; try contradiction. intros <-. apply app_run_catch_error.
Qed.

Lemma part000_run_try_fails (E : Engine) (code : jsval) (script : obj)
    (entry : option string) (realtime : bool)
    (ctx : RunContext) (api : nat) (w : world) (e : ErrorObj) :
  vm_fails_with (timeout_error E RUN_TIMEOUT)
    (fst (run_vm E (to_string E (if Part000.truthy code then code else prop script "code"))
            (to_string E (prop script "name") ++ ".js") ctx
            (run_log E (prop script "name") (prop script "id") realtime) api w)) e ->
  fst (Part000.run_try E code script entry realtime ctx api w) =
  Throw (VError (MkError "Error" (err_message e)
                   (Some (host_stack E "runScript" (err_message e))) None Host)).
Proof.
  unfold Part000.run_try, try_catch, Date_now.
  unfold mbind, M_bind, mthrow, M_throw, mret, M_ret, get_world.
  cbv beta iota zeta.
  destruct (run_vm E (to_string E (if Part000.truthy code then code else prop script "code"))
              (to_string E (prop script "name") ++ ".js") ctx
              (run_log E (prop script "name") (prop script "id") realtime) api w)
    as [[r|v] w1]; cbn [fst vm_fails_with].
  - destruct r as [|[result|err]]; [| |destruct err]; try contradiction; intros <-.
    + apply part000_run_catch_error.
    + destruct (Part000.touch entry (now w) w1) as [[[]|v] w2] eqn:Ht;
        [|destruct entry; discriminate Ht].
      unfold settings_set_scripts, modify.
      destruct (Part000.is_void (prop script "id")); apply part000_run_catch_error.
  - destruct v; try contradiction. intros <-. apply part000_run_catch_error.
Qed.

(** In [src/app.js], a run that fails with an [Error] object (of the
    compilation, thrown by the script or by a function of its context, or of
    the deadline) makes [runScript] raise a new [Error] that has the message
    and the stack of that object and nothing else of it. *)
Lemma app_runScript_normalizes (E : Engine) (id name code lastExecuted : jsval)
    (args : list jsval) (realtime : bool) (w : world) (e : ErrorObj) :
  date_or_absent lastExecuted ->
  (forall ctx,
     App.run_setup E id name lastExecuted args w = (Normal (api_next w, ctx), acquired w) ->
     vm_fails_with (timeout_error E RUN_TIMEOUT)
       (fst (run_vm E (to_string E code) (to_string E name ++ ".js") ctx
               (run_log E name id realtime) (api_next w) (acquired w))) e) ->
  fst (App.runScript E id name code lastExecuted args realtime w) =
  Throw (VError (normalized e)).
Proof.
  intros Hd Hfail.
  destruct (app_runScript_unfold E id name code lastExecuted args realtime w Hd)
    as (ctx & Hsetup & ->).
  destruct (finally_destroy (App.run_try E id name code realtime ctx (api_next w))
              (api_next w) (acquired w)) as [-> _].
  apply app_run_try_fails, Hfail, Hsetup.
Qed.

(** In [src/unnamed/part_000], the same run makes [runScript] raise a new
    [Error] with the message of that object and the stack of the new error. *)
Lemma part000_runScript_own_stack (E : Engine) (code : jsval) (script : Part000.script_arg)
    (args : list jsval) (realtime : bool) (w : world) (e : ErrorObj) :
  (forall s, fst (Part000.resolve script (scripts w)) = Some s ->
             exists t, prop s "lastExecuted" = VDate t) ->
  (forall s ctx,
     Part000.run_setup E (fst (Part000.resolve script (scripts w))) args w
     = (Normal (s, api_next w, ctx), acquired w) ->
     vm_fails_with (timeout_error E RUN_TIMEOUT)
       (fst (run_vm E (to_string E (if Part000.truthy code then code else prop s "code"))
               (to_string E (prop s "name") ++ ".js") ctx
               (run_log E (prop s "name") (prop s "id") realtime)
               (api_next w) (acquired w))) e) ->
  fst (Part000.runScript E code script args realtime w) =
  Throw (VError (MkError "Error" (err_message e)
                   (Some (host_stack E "runScript" (err_message e))) None Host)).
Proof.
  intros Hd Hfail.
  destruct (part000_runScript_unfold E code script args realtime w Hd)
    as (s & ctx & Hsetup & ->).
  destruct (finally_destroy (Part000.run_try E code s
                               (snd (Part000.resolve script (scripts w)))
                               realtime ctx (api_next w))
              (api_next w) (acquired w)) as [-> _].
  apply part000_run_try_fails, Hfail, Hsetup.
Qed.

(** C1 fails on [src/unnamed/part_000]: for the ad-hoc code
    [throw new Error('x')], [runScript] raises an error with the message [x]
    whose stack is the one of the error made in the [catch] of [runScript], and
    not the stack of the error of the script; [runScript] of [src/app.js]
    raises the error with the message and the stack of the script's error. *)
Theorem part000_runScript_loses_stack :
  fst (Part000.runScript Sample.engine (VStr "throw new Error('x')") Part000.NoScript [] true
         Sample.empty_world)
  = Throw (VError (MkError "Error" "x" (Some (Sample.stack_at "runScript" "x")) None Host))
  /\ Some (Sample.stack_at "runScript" "x") <> err_stack Sample.error_x
  /\ fst (App.runScript Sample.engine (VStr "__void__") (VStr "Test")
            (VStr "throw new Error('x')") VUndefined [] true Sample.empty_world)
     = Throw (VError (normalized Sample.error_x)).
Proof.
  split; [vm_compute; reflexivity|]. split; [discriminate|]. vm_compute; reflexivity.
Qed.

(** *** Runs of the sample scripts *)

Example run_returns_value :
  fst (App.runScript Sample.engine (VStr "u") (VStr "Lights") (VStr "return 1+1")
         VUndefined [] true Sample.world_two_scripts) = Normal (VNum 2).
Proof. vm_compute. reflexivity. Qed.

Example run_deadline_is_normalized :
  fst (App.runScript Sample.engine (VStr "u") (VStr "Lights") (VStr "while (true) {}")
         VUndefined [] true Sample.world_two_scripts)
  = Throw (VError (normalized (Sample.sample_timeout_error RUN_TIMEOUT))).
Proof. vm_compute. reflexivity. Qed.

Example run_syntax_error_is_normalized :
  fst (App.runScript Sample.engine (VStr "u") (VStr "Lights") (VStr "return (")
         VUndefined [] true Sample.world_two_scripts)
  = Throw (VError (normalized Sample.syntax_error)).
Proof. vm_compute. reflexivity. Qed.

(** Why the statement about the listener of [src/app.js] asks for names that
    are strings: an entry made by [updateScript] for an unknown id has no
    name, and the listener then throws a [TypeError]. *)
Example autocomplete_after_update_of_unknown_id :
  let w := snd (App.updateScript "zzz" VUndefined VUndefined (VDate (Some 5))
                  Sample.world_two_scripts) in
  fst (App.onFlowGetScriptAutocomplete Sample.engine "foo" w)
  = Throw (new_TypeError Sample.engine "onFlowGetScriptAutocomplete"
             "Cannot read properties of undefined (reading 'toLowerCase')").
Proof. vm_compute. reflexivity. Qed.

(** *** The deprecated [setTagValue] *)

Lemma warnings_app (a b : list event) :
  warnings (a ++ b) = (warnings a + warnings b)%nat.
Proof. unfold warnings. rewrite List.filter_app, length_app. reflexivity. Qed.

Lemma warnings_token_events (evs : list event) :
  forallb token_event evs = true -> warnings evs = 0%nat.
Proof.
  unfold warnings. induction evs as [|e evs IH]; simpl; [reflexivity|].
  intros H. apply andb_prop in H as [He Hevs].
  replace (is_warning e) with false; [apply IH, Hevs|].
  destruct e; try reflexivity. discriminate He.
Qed.

Lemma run_log_trace (E : Engine) (name id : jsval) (realtime : bool)
    (props : list jsval) (w : world) :
  trace (snd (run_log E name id realtime props w)) =
  (trace w ++ EvLog (VStr ("[" ++ to_string E name ++ "]") :: props)
     :: (if realtime then [EvRealtime (util_format E props) id] else []))%list.
Proof.
  unfold run_log, app_log, emit. step_M.
  destruct realtime; simpl; rewrite <- ?app_assoc; reflexivity.
Qed.

Lemma run_log_warning (E : Engine) (name id : jsval) (realtime : bool) (w : world) :
  warnings (trace (snd (run_log E name id realtime [VStr deprecation_warning] w))) =
  S (warnings (trace w)).
Proof.
  rewrite run_log_trace, warnings_app.
  assert (Hw : is_warning (EvLog [VStr ("[" ++ to_string E name ++ "]");
                                  VStr deprecation_warning]) = true)
    by apply String.eqb_refl.
  unfold warnings at 2. cbn [List.filter]. rewrite Hw.
  destruct realtime; cbn [List.filter is_warning length]; lia.
Qed.

(** C8 (as the code has it): every invocation of [setTagValue(id, opts,
    value)] logs the deprecation warning, once per invocation, and then calls
    [setToken] with the given id, the given value and [opts.type] as type. *)
Theorem setTagValue_warns_and_forwards (E : Engine) (name script_id : jsval)
    (realtime : bool) (id : string) (opts : obj) (value : jsval) (w : world) :
  let log := run_log E name script_id realtime in
  let logged := snd (log [VStr deprecation_warning] w) in
  cap_setTagValue E log id (Some opts) value w =
    setToken E id value (prop opts "type") logged
  /\ warnings (trace logged) = S (warnings (trace w))
  /\ warnings (trace (snd (cap_setTagValue E log id (Some opts) value w))) =
     S (warnings (trace w)).
Proof.
  intros log logged.
  assert (Hfwd : cap_setTagValue E log id (Some opts) value w =
                 setToken E id value (prop opts "type") logged).
  { unfold cap_setTagValue, mbind, M_bind. subst logged log.
    pose proof (run_log_normal E name script_id realtime [VStr deprecation_warning] w) as Hn.
    destruct (run_log E name script_id realtime [VStr deprecation_warning] w) as [r w1].
    simpl in Hn. subst r. reflexivity. }
  split; [exact Hfwd|]. split; [apply run_log_warning|].
  rewrite Hfwd.
  destruct (keeps_setToken E id value (prop opts "type") logged) as (_ & _ & evs & -> & Hevs).
  rewrite warnings_app, (warnings_token_events evs Hevs), Nat.add_0_r.
  apply run_log_warning.
Qed.

(** C8 (as stated) fails: a script that calls [setTagValue] twice leaves the
    warning in the log twice. *)
Lemma setTagValue_warns_every_time :
  ~ (warnings (trace (snd (App.runScript Sample.engine (VStr "u") (VStr "Lights")
        (VStr "await setTagValue('t', { type: 'number' }, 1); await setTagValue('t', { type: 'number' }, 2);")
        VUndefined [] false Sample.empty_world))) <= 1)%nat.
Proof. vm_compute. lia. Qed.

(* ===================================================================== *)
(** ** The token registry                                                  *)
(* ===================================================================== *)

Ltac unfold_setToken :=
  unfold setToken, member_of, catch_error, try_catch, token_unregister, token_setValue,
         flow_createToken, answer, ask, emit, app_error, settings_set_tokens;
  step_M.

(** The branch of [setToken] for a value that is [undefined] or [null], for
    an id that has a handle or names no member of [Object.prototype]: it does
    not raise; a handle that is there is unregistered, and a failure of that
    is logged; the entry and the handle are removed and the map is
    persisted. *)
Lemma setToken_delete (E : Engine) (id : string) (value type : jsval) (w : world) :
  nullish value = true ->
  handles_have_entries w ->
  tokens_persisted w ->
  is_Some (tokensInstances w !! id) \/ inherited id = false ->
  exists w',
    setToken E id value type w = (Normal tt, w')
    /\ tokens w' = delete id (tokens w)
    /\ tokensInstances w' = delete id (tokensInstances w)
    /\ persisted_tokens w' = delete id (tokens w)
    /\ (is_Some (tokens w !! id) -> st_tokens (settings w') = Some (delete id (tokens w)))
    /\ trace w' =
       (trace w ++
        match tokensInstances w !! id with
        | None => []
        | Some h =>
            EvUnregister (ft_id h) ::
            match oracle w with
            | Some err :: _ => [EvError [err]]
            | _ => []
            end
        end)%list.
Proof.
  intros Hnull Hinv Hpers Hown. unfold_setToken. rewrite Hnull.
  destruct (tokensInstances w !! id) as [h|] eqn:Hh.
  - destruct (Hinv id h Hh) as [entry Hentry].
    destruct (oracle w) as [|[err|] rest]; simpl; rewrite Hentry; simpl;
      eexists; (split; [reflexivity|]); simpl; rewrite <- ?app_assoc; auto 10.
  - destruct Hown as [[x Hx]|Hi]; [discriminate Hx|]. rewrite Hi. simpl.
    destruct (tokens w !! id) as [entry|] eqn:Hentry; simpl.
    + eexists. split; [reflexivity|]. simpl. rewrite app_nil_r. auto 10.
    + eexists. split; [reflexivity|]. simpl.
      rewrite app_nil_r, !delete_id by assumption.
      split; [reflexivity|]. split; [reflexivity|]. split; [exact Hpers|].
      split; [intros [x Hx]; discriminate | reflexivity].
Qed.

(** [setToken] for an id that has no handle and names a member of
    [Object.prototype]: the call on that member throws a [TypeError], and
    nothing changes. *)
Lemma setToken_inherited (E : Engine) (id : string) (value type : jsval) (w : world) :
  tokensInstances w !! id = None ->
  inherited id = true ->
  setToken E id value type w
  = (Throw (new_TypeError E "setToken"
              (if nullish value
               then "this.tokensInstances[id].unregister is not a function"
               else "this.tokensInstances[id].setValue is not a function")), w).
Proof.
  intros Hh Hi. unfold_setToken.
  destruct (nullish value); simpl; rewrite Hh, Hi; reflexivity.
Qed.

(** [setToken] keeps the invariants of the token registry, however it ends. *)
Lemma setToken_invariants (E : Engine) (id : string) (value type : jsval) (w : world) :
  handles_have_entries w ->
  tokens_persisted w ->
  handles_have_entries (snd (setToken E id value type w))
  /\ tokens_persisted (snd (setToken E id value type w)).
Proof.
  intros Hinv Hpers.
  destruct (tokensInstances w !! id) as [h|] eqn:Hh; [|destruct (inherited id) eqn:Hi].
  - destruct (Hinv id h Hh) as [entry Hentry].
    destruct (nullish value) eqn:Hnull.
    + destruct (setToken_delete E id value type w Hnull Hinv Hpers)
        as (w' & -> & Ht & Hi & Hp & _); [left; rewrite Hh; eauto|]. simpl. split.
      * intros id' h'. rewrite Hi, Ht. rewrite !lookup_delete.
        case_decide; [discriminate | apply Hinv].
      * unfold tokens_persisted. rewrite Hp, Ht. reflexivity.
    + unfold_setToken. rewrite Hnull, Hh.
      destruct (oracle w) as [|[err|] rest]; simpl; rewrite ?Hentry; simpl.
      * split; [|reflexivity]. intros id' h'. simpl. rewrite lookup_insert.
        case_decide; [eauto | apply Hinv].
      * split; [exact Hinv | exact Hpers].
      * split; [|reflexivity]. intros id' h'. simpl. rewrite lookup_insert.
        case_decide; [eauto | apply Hinv].
  - rewrite (setToken_inherited E id value type w Hh Hi). split; assumption.
  - destruct (nullish value) eqn:Hnull.
    + destruct (setToken_delete E id value type w Hnull Hinv Hpers)
        as (w' & -> & Ht & Hi' & Hp & _); [right; exact Hi|]. simpl. split.
      * intros id' h'. rewrite Hi', Ht. rewrite !lookup_delete.
        case_decide; [discriminate | apply Hinv].
      * unfold tokens_persisted. rewrite Hp, Ht. reflexivity.
    + unfold_setToken. rewrite Hnull, Hh, Hi.
      destruct (oracle w) as [|[err|] rest]; simpl.
      * split; [|reflexivity]. intros id' h'. simpl. rewrite !lookup_insert.
        case_decide; [eauto | apply Hinv].
      * split; [exact Hinv | exact Hpers].
      * split; [|reflexivity]. intros id' h'. simpl. rewrite !lookup_insert.
        case_decide; [eauto | apply Hinv].
Qed.






(** In the sample, the failure to unregister is logged and not raised. *)
Example delete_logs_unregister_failure :
  let w1 := snd (setToken Sample.engine "t" (VNum 5) VUndefined Sample.world_one_token) in
  fst (setToken Sample.engine "t" VNull VUndefined w1) = Normal tt
  /\ trace (snd (setToken Sample.engine "t" VNull VUndefined w1)) =
     [ EvSetValue "t" (VNum 5); EvUnregister "t";
       EvError [VError (MkError "Error" "Not Found" None None Host)] ].
Proof. vm_compute. split; reflexivity. Qed.


(** *** The token registry after [onInit] *)

Lemma create_instances_invariants (l : list (string * TokenEntry))
    (failed : option jsval) (w : world) :
  (forall id e, In (id, e) l -> is_Some (tokens w !! id)) ->
  handles_have_entries w ->
  handles_have_entries (snd (create_instances l failed w))
  /\ tokens (snd (create_instances l failed w)) = tokens w
  /\ settings (snd (create_instances l failed w)) = settings w.
Proof.
  revert failed w. induction l as [|[id e] l IH]; intros failed w Hl Hinv; simpl.
  - auto.
  - unfold attempt, flow_createToken, answer, ask, emit. step_M.
    assert (Hrest : forall w', tokens w' = tokens w ->
              forall id' e', In (id', e') l -> is_Some (tokens w' !! id')).
    { intros w' Hw' id' e' Hin. rewrite Hw'. apply (Hl id' e'). right. exact Hin. }
    assert (Hins : forall t w', tokens w' = tokens w ->
              tokensInstances w' = <[id := MkToken id t]> (tokensInstances w) ->
              handles_have_entries w').
    { intros t w' Ht Hi id' h'. rewrite Ht, Hi, lookup_insert.
      case_decide; [subst; intros _; apply (Hl id' e); left; reflexivity | apply Hinv]. }
    assert (Hsame : forall w', tokens w' = tokens w ->
              tokensInstances w' = tokensInstances w -> handles_have_entries w').
    { intros w' Ht Hi id' h'. rewrite Ht, Hi. apply Hinv. }
    destruct (oracle w) as [|[err|] rest]; simpl;
      match goal with
      | |- handles_have_entries (snd (create_instances l ?f ?w')) /\ _ =>
          destruct (IH f w') as (H1 & H2 & H3);
            [apply Hrest; reflexivity
            | first [apply Hsame; reflexivity | eapply Hins; reflexivity]
            | split; [exact H1|]; rewrite H2, H3; split; reflexivity]
      end.
Qed.

(** [onInit] leaves a token registry in which every handle has an entry and
    the map in memory is the persisted one. *)
Lemma onInit_tokens_invariants (w : world) :
  handles_have_entries (snd (onInit_tokens w))
  /\ tokens_persisted (snd (onInit_tokens w)).
Proof.
  unfold onInit_tokens, app_error, emit. step_M.
  set (w0 := with_tokensInstances ∅ (with_tokens (default ∅ (st_tokens (settings w))) w)).
  destruct (create_instances_invariants
              (map_to_list (default ∅ (st_tokens (settings w)))) None w0)
    as (H1 & H2 & H3).
  - intros id e Hin. apply list_elem_of_In, elem_of_map_to_list in Hin.
    simpl. rewrite Hin. eauto.
  - intros id h. simpl. rewrite lookup_empty. discriminate.
  - destruct (create_instances (map_to_list (default ∅ (st_tokens (settings w)))) None w0)
      as [[[err|]|v] w1]; simpl in *;
      (split; [exact H1|]);
      unfold tokens_persisted, persisted_tokens; simpl; rewrite H2, H3; reflexivity.
Qed.

(** [onInit] makes no entry of its own: the names of the tokens are those
    of the persisted map. *)
Lemma onInit_tokens_names (w : world) :
  (forall id, inherited id = true -> persisted_tokens w !! id = None) ->
  token_names_own (snd (onInit_tokens w)).
Proof.
  intros Hnames. unfold onInit_tokens, app_error, emit. step_M.
  set (w0 := with_tokensInstances ∅ (with_tokens (default ∅ (st_tokens (settings w))) w)).
  destruct (create_instances_invariants
              (map_to_list (default ∅ (st_tokens (settings w)))) None w0)
    as (_ & H2 & _).
  - intros id e Hin. apply list_elem_of_In, elem_of_map_to_list in Hin.
    simpl. rewrite Hin. eauto.
  - intros id h. simpl. rewrite lookup_empty. discriminate.
  - destruct (create_instances (map_to_list (default ∅ (st_tokens (settings w)))) None w0)
      as [[[err|]|v] w1]; simpl in *;
      intros id Hid; simpl; rewrite H2; apply Hnames, Hid.
Qed.

(* ===================================================================== *)
(** ** More on the script store                                            *)
(* ===================================================================== *)

Import Frames.

Lemma get_remove_eq (k : string) (r : registry) : get k (remove k r) = None.
Proof.
  induction r as [|[k0 s0] r IH]; simpl; [reflexivity|].
  destruct (String.eqb k k0) eqn:Hk; [exact IH | simpl; rewrite Hk; exact IH].
Qed.

Lemma get_remove_ne (k k' : string) (r : registry) :
  k <> k' -> get k' (remove k r) = get k' r.
Proof.
  intros Hne. induction r as [|[k0 s0] r IH]; simpl; [reflexivity|].
  destruct (String.eqb_spec k k0) as [->|Hk]; simpl.
  - destruct (String.eqb_spec k' k0); [congruence | exact IH].
  - rewrite IH. reflexivity.
Qed.

Lemma remove_absent (k : string) (r : registry) :
  get k r = None -> remove k r = r.
Proof.
  induction r as [|[k0 s0] r IH]; simpl; [reflexivity|].
  destruct (String.eqb k k0); [discriminate|]. intros H. rewrite IH by exact H. reflexivity.
Qed.

Lemma remove_idem (k : string) (r : registry) : remove k (remove k r) = remove k r.
Proof. apply remove_absent, get_remove_eq. Qed.

Lemma remove_app (k : string) (a b : registry) :
  remove k (a ++ b) = (remove k a ++ remove k b)%list.
Proof.
  induction a as [|[k0 s0] a IH]; simpl; [reflexivity|].
  destruct (String.eqb k k0); simpl; rewrite IH; reflexivity.
Qed.

Lemma remove_insert_index (n : N) (k : string) (v : obj) (r : registry) :
  get k r = None -> remove k (insert_index n k v r) = r.
Proof.
  induction r as [|[k0 s0] r IH]; simpl.
  - rewrite String.eqb_refl. reflexivity.
  - destruct (String.eqb k k0) eqn:Hk; [discriminate|]. intros Hget.
    destruct (array_index k0) as [n0|]; [destruct (n <? n0)%N|]; simpl;
      rewrite ?String.eqb_refl, ?Hk; simpl; rewrite ?Hk;
      first [rewrite IH by exact Hget | rewrite remove_absent by exact Hget]; reflexivity.
Qed.

(** A property that was just created and is deleted again leaves the object
    as it was, order included. *)
Lemma remove_set_fresh (k : string) (v : obj) (r : registry) :
  get k r = None -> remove k (set k v r) = r.
Proof.
  intros Hget. unfold set. rewrite (proj2 (mem_false_get k r) Hget).
  destruct (array_index k) as [n|].
  - apply remove_insert_index, Hget.
  - rewrite remove_app, remove_absent by exact Hget. simpl.
    rewrite String.eqb_refl. apply app_nil_r.
Qed.

Lemma deleteScript_result (id : string) (w : world) :
  deleteScript id w =
  (Normal tt,
   with_settings (MkSettings (Some (remove id (scripts w))) (st_tokens (settings w))
                    (st_migrations (settings w)) (st_values (settings w)))
     (with_scripts (remove id (scripts w)) w)).
Proof. reflexivity. Qed.

(** X1: [deleteScript({ id })] does not raise, and after it
    [getScript({ id })] throws the error [Script Not Found], whether the id
    was in the registry or not; except for an id that names a member of
    [Object.prototype], for which [getScript] then finds that member and
    returns an object that has an invalid date as [lastExecuted] and nothing
    else. *)
Theorem deleteScript_then_getScript (E : Engine) (id : string) (w : world) :
  fst (deleteScript id w) = Normal tt
  /\ getScript E id (snd (deleteScript id w)) =
     (if inherited id
      then Normal (<["lastExecuted" := VDate None]> ∅)
      else Throw (new_Error E "getScript" "Script Not Found"),
      snd (deleteScript id w)).
Proof.
  rewrite deleteScript_result. split; [reflexivity|].
  destruct (inherited id) eqn:Hi.
  - apply getScript_inherited; [simpl; apply get_remove_eq | exact Hi].
  - apply getScript_missing; [simpl; apply get_remove_eq | exact Hi].
Qed.

(** X2: [deleteScript({ id })] leaves every other entry as it is and persists
    the registry; for an id that is not in the registry it leaves the registry
    as it is; and a second [deleteScript({ id })] changes nothing at all. *)
Theorem deleteScript_frame (id : string) (w : world) :
  let w' := snd (deleteScript id w) in
  (forall k, id <> k -> get k (scripts w') = get k (scripts w))
  /\ st_scripts (settings w') = Some (scripts w')
  /\ (get id (scripts w) = None -> scripts w' = scripts w)
  /\ deleteScript id w' = (Normal tt, w').
Proof.
  intros w'. subst w'. rewrite deleteScript_result. simpl.
  split; [intros k Hk; apply get_remove_ne, Hk|].
  split; [reflexivity|]. split; [apply remove_absent|].
  rewrite deleteScript_result. simpl. rewrite remove_idem.
  destruct w; reflexivity.
Qed.

(** X3: for an id of the registry, [getScript] changes nothing, and returns a
    copy of the entry in which every property but [lastExecuted] is the
    stored one and [lastExecuted] is a [Date]: the stored one when that is a
    [Date]. *)
Theorem getScript_reads (E : Engine) (id : string) (script : obj) (w : world) :
  get id (scripts w) = Some script ->
  exists found t,
    getScript E id w = (Normal found, w)
    /\ (forall p, p <> "lastExecuted" -> found !! p = script !! p)
    /\ found !! "lastExecuted" = Some (VDate t)
    /\ (forall t0, prop script "lastExecuted" = VDate t0 -> t = t0).
Proof.
  intros Hget. do 2 eexists. split; [apply getScript_found, Hget|].
  split; [intros p Hp; apply lookup_insert_ne; congruence|].
  split; [apply lookup_insert_eq|].
  intros t0 Ht. rewrite Ht. reflexivity.
Qed.

Lemma getScript_reads_witness :
  exists found t,
    getScript Sample.engine "u" Sample.world_two_scripts
    = (Normal found, Sample.world_two_scripts)
    /\ (forall p, p <> "lastExecuted" -> found !! p = Sample.script_u !! p)
    /\ found !! "lastExecuted" = Some (VDate t)
    /\ (forall t0, prop Sample.script_u "lastExecuted" = VDate t0 -> t = t0).
Proof.
  exact (getScript_reads Sample.engine "u" Sample.script_u Sample.world_two_scripts eq_refl).
Defined.

(** X4: [createScript] leaves the entries under other keys as they are, and
    two [createScript] calls in a row whose ids differ leave both definitions
    in the registry. *)
Theorem createScript_twice (E : Engine) (name1 code1 name2 code2 : jsval) (w : world) :
  uuid_v4 E (uuid_next w) <> uuid_v4 E (S (uuid_next w)) ->
  exists s1 w1 s2 w2,
    App.createScript E name1 code1 w = (Normal s1, w1)
    /\ App.createScript E name2 code2 w1 = (Normal s2, w2)
    /\ (forall k, k <> uuid_v4 E (uuid_next w) -> get k (scripts w1) = get k (scripts w))
    /\ get (uuid_v4 E (uuid_next w)) (scripts w2) = Some s1
    /\ get (uuid_v4 E (S (uuid_next w))) (scripts w2) = Some s2
    /\ prop s1 "name" = name1 /\ prop s2 "name" = name2.
Proof.
  intros Hne. do 4 eexists. unfold App.createScript. step_M.
  split; [reflexivity|]. split; [reflexivity|]. simpl.
  split; [intros k Hk; apply get_set_ne; congruence|].
  split; [etransitivity; [apply get_set_ne; congruence | apply get_set_eq]|].
  split; [apply get_set_eq|].
  unfold prop. rewrite !lookup_insert. simpl. auto.
Qed.

Lemma createScript_twice_witness :
  exists s1 w1 s2 w2,
    App.createScript Sample.engine (VStr "a") (VStr "1") Sample.empty_world = (Normal s1, w1)
    /\ App.createScript Sample.engine (VStr "b") (VStr "2") w1 = (Normal s2, w2)
    /\ (forall k, k <> "u" -> get k (scripts w1) = get k (scripts Sample.empty_world))
    /\ get "u" (scripts w2) = Some s1
    /\ get "uu" (scripts w2) = Some s2
    /\ prop s1 "name" = VStr "a" /\ prop s2 "name" = VStr "b".
Proof.
  refine (createScript_twice Sample.engine (VStr "a") (VStr "1") (VStr "b") (VStr "2")
            Sample.empty_world _).
  discriminate.
Defined.

(** X5: when the id that [createScript] draws is not yet a key,
    [createScript] followed by [deleteScript] of the new id gives back the
    registry as it was, in the same order. *)
Theorem create_then_delete (E : Engine) (name code : jsval) (w : world) :
  get (uuid_v4 E (uuid_next w)) (scripts w) = None ->
  scripts (snd (deleteScript (uuid_v4 E (uuid_next w))
                  (snd (App.createScript E name code w)))) = scripts w.
Proof.
  intros Hfresh. rewrite deleteScript_result. unfold App.createScript. step_M.
  apply remove_set_fresh, Hfresh.
Qed.

Lemma create_then_delete_witness :
  scripts (snd (deleteScript "uuu"
                  (snd (App.createScript Sample.engine (VStr "n") (VStr "c")
                          Sample.world_two_scripts))))
  = scripts Sample.world_two_scripts.
Proof.
  exact (create_then_delete Sample.engine (VStr "n") (VStr "c") Sample.world_two_scripts
           eq_refl).
Defined.

Lemma keys_set_existing (k : string) (v : obj) (r : registry) :
  is_Some (get k r) -> keys (set k v r) = keys r.
Proof.
  intros H. unfold set. rewrite (proj2 (mem_true_get k r) H). apply keys_replace.
Qed.

(** X6: an update of an existing id keeps the iteration order of the
    registry, with [updateScript] of [src/app.js] and with [updateScript] and
    [updateScriptV2] of [src/unnamed/part_000]. *)
Theorem update_keeps_order (id : string) (name code lastExecuted : jsval)
    (script : obj) (w : world) :
  is_Some (get id (scripts w)) ->
  keys (scripts (snd (App.updateScript id name code lastExecuted w))) = keys (scripts w)
  /\ keys (scripts (snd (Part000.updateScript id code w))) = keys (scripts w)
  /\ keys (scripts (snd (Part000.updateScriptV2 id script w))) = keys (scripts w).
Proof.
  intros [old Hold].
  assert (Hown : is_Some (get id (scripts w)) \/ id <> "__proto__")
    by (left; rewrite Hold; eauto).
  unfold App.updateScript, Part000.updateScript, Part000.updateScriptV2, member_of. step_M.
  rewrite !(scripts_assign_own id _ w Hown). rewrite Hold. simpl.
  repeat split; apply keys_set_existing; rewrite Hold; eauto.
Qed.

Lemma update_keeps_order_witness :
  keys (scripts (snd (App.updateScript "u" (VStr "Lamps") VUndefined VUndefined
                        Sample.world_two_scripts)))
  = keys (scripts Sample.world_two_scripts).
Proof.
  exact (proj1 (update_keeps_order "u" (VStr "Lamps") VUndefined VUndefined ∅
                  Sample.world_two_scripts (ex_intro _ Sample.script_u eq_refl))).
Defined.

(** X7: [updateScript({ id, code })] of [src/unnamed/part_000] always assigns
    [code]: on an existing entry it keeps every other property and replaces
    the code, by [undefined] when no code is given. *)
Theorem part000_updateScript_assigns_code (id : string) (code : jsval) (old : obj)
    (w : world) :
  get id (scripts w) = Some old ->
  exists w',
    Part000.updateScript id code w = (Normal tt, w')
    /\ get id (scripts w') = Some (<["code" := code]> old)
    /\ (forall k, id <> k -> get k (scripts w') = get k (scripts w))
    /\ st_scripts (settings w') = Some (scripts w')
    /\ (code = VUndefined -> forall new, get id (scripts w') = Some new ->
        prop new "code" = VUndefined).
Proof.
  intros Hold. eexists. unfold Part000.updateScript, member_of. step_M. rewrite Hold. simpl.
  split; [reflexivity|]. split; [apply get_set_eq|].
  split; [intros k Hk; apply get_set_ne, Hk|]. split; [reflexivity|].
  intros -> new Hnew.
  assert (Hs : Some new = Some (<["code" := VUndefined]> old))
    by (etransitivity; [symmetry; exact Hnew | apply get_set_eq]).
  injection Hs as ->. apply prop_insert_eq.
Qed.

Lemma part000_updateScript_assigns_code_witness :
  exists w',
    Part000.updateScript "u" VUndefined Sample.world_two_scripts = (Normal tt, w')
    /\ get "u" (scripts w') = Some (<["code" := VUndefined]> Sample.script_u).
Proof.
  destruct (part000_updateScript_assigns_code "u" VUndefined Sample.script_u
              Sample.world_two_scripts eq_refl) as (w' & H1 & H2 & _).
  exists w'. split; [exact H1 | exact H2].
Defined.

(* ===================================================================== *)
(** ** More on the token registry                                          *)
(* ===================================================================== *)

(** X8: [setToken] with a value, for an id that has no handle.  When the id
    names no member of [Object.prototype]: if the platform creates the token,
    the entry is [{ type, value }], the type being [typeof value] unless one
    is given, the handle is stored and the map is persisted; if the platform
    rejects, [setToken] raises that error and the token registry and its
    persisted copy stay as they were.  When the id names such a member
    ([constructor], [toString], ...), no token is made: [setToken] raises a
    [TypeError] and nothing changes. *)
Theorem setToken_creates (E : Engine) (id : string) (value type : jsval) (w : world) :
  nullish value = false ->
  tokensInstances w !! id = None ->
  let ty := match type with VUndefined => VStr (typeof value) | _ => type end in
  if inherited id then
    setToken E id value type w
    = (Throw (new_TypeError E "setToken"
                "this.tokensInstances[id].setValue is not a function"), w)
  else
    match oracle w with
    | Some err :: _ =>
        exists w', setToken E id value type w = (Throw err, w') /\ tokens_kept w w'
    | _ =>
        exists w',
          setToken E id value type w = (Normal tt, w')
          /\ tokens w' = <[id := MkEntry ty value]> (tokens w)
          /\ tokensInstances w' = <[id := MkToken id ty]> (tokensInstances w)
          /\ st_tokens (settings w') = Some (tokens w')
          /\ trace w' = (trace w ++ [EvCreateToken id ty value])%list
    end.
Proof.
  intros Hnull Hnone ty. destruct (inherited id) eqn:Hi.
  - rewrite (setToken_inherited E id value type w Hnone Hi), Hnull. reflexivity.
  - unfold_setToken. rewrite Hnull. simpl. rewrite Hnone, Hi.
    destruct (oracle w) as [|[err|] rest]; simpl; eexists;
      (split; [reflexivity|]); simpl; repeat split; reflexivity.
Qed.

Lemma setToken_creates_witness :
  exists w',
    setToken Sample.engine "t" (VNum 5) VUndefined Sample.empty_world = (Normal tt, w')
    /\ tokens w' = <["t" := MkEntry (VStr "number") (VNum 5)]> (tokens Sample.empty_world)
    /\ tokensInstances w' =
       <["t" := MkToken "t" (VStr "number")]> (tokensInstances Sample.empty_world)
    /\ st_tokens (settings w') = Some (tokens w')
    /\ trace w' = (trace Sample.empty_world
                   ++ [EvCreateToken "t" (VStr "number") (VNum 5)])%list.
Proof.
  exact (setToken_creates Sample.engine "t" (VNum 5) VUndefined Sample.empty_world
           eq_refl eq_refl).
Defined.

(** X9: [setToken] with a value, for an id that has a handle and an entry:
    when the platform takes the value, the entry keeps its type and gets the
    value (a type given with the call is not used), the handle stays and the
    map is persisted; when the platform rejects, [setToken] raises that error
    and the token registry and its persisted copy stay as they were. *)
Theorem setToken_updates (E : Engine) (id : string) (value type : jsval)
    (h : FlowToken) (e : TokenEntry) (w : world) :
  nullish value = false ->
  tokensInstances w !! id = Some h ->
  tokens w !! id = Some e ->
  match oracle w with
  | Some err :: _ =>
      exists w', setToken E id value type w = (Throw err, w') /\ tokens_kept w w'
  | _ =>
      exists w',
        setToken E id value type w = (Normal tt, w')
        /\ tokens w' = <[id := MkEntry (te_type e) value]> (tokens w)
        /\ tokensInstances w' = tokensInstances w
        /\ st_tokens (settings w') = Some (tokens w')
        /\ trace w' = (trace w ++ [EvSetValue (ft_id h) value])%list
  end.
Proof.
  intros Hnull Hh He. unfold_setToken. rewrite Hnull. simpl. rewrite Hh.
  destruct (oracle w) as [|[err|] rest]; simpl; rewrite ?He; simpl; eexists;
    (split; [reflexivity|]); simpl; repeat split; reflexivity.
Qed.

Lemma setToken_updates_witness :
  exists w',
    setToken Sample.engine "t" (VStr "on") VUndefined Sample.world_one_token
    = (Normal tt, w')
    /\ tokens w' = <["t" := MkEntry (VStr "number") (VStr "on")]>
                     (tokens Sample.world_one_token)
    /\ tokensInstances w' = tokensInstances Sample.world_one_token
    /\ st_tokens (settings w') = Some (tokens w')
    /\ trace w' = (trace Sample.world_one_token ++ [EvSetValue "t" (VStr "on")])%list.
Proof.
  exact (setToken_updates Sample.engine "t" (VStr "on") VUndefined
           (MkToken "t" (VStr "number")) (MkEntry (VStr "number") (VNum 1))
           Sample.world_one_token eq_refl eq_refl eq_refl).
Defined.

(** X10: whatever [setToken] does for an id, and however it ends, the entries
    and the handles of the other ids stay as they were. *)
Theorem setToken_other_ids (E : Engine) (id id' : string) (value type : jsval) (w : world) :
  id <> id' ->
  tokens (snd (setToken E id value type w)) !! id' = tokens w !! id'
  /\ tokensInstances (snd (setToken E id value type w)) !! id' = tokensInstances w !! id'.
Proof.
  intros Hne. unfold_setToken.
  destruct (nullish value); simpl;
    destruct (tokensInstances w !! id) as [h|];
    destruct (inherited id) eqn:Hi;
    destruct (oracle w) as [|[err|] rest]; simpl;
    destruct (tokens w !! id) as [e|]; simpl; rewrite ?Hi; simpl;
    rewrite ?lookup_insert_ne, ?lookup_delete_ne by exact Hne; split; reflexivity.
Qed.

Lemma setToken_other_ids_witness :
  tokens (snd (setToken Sample.engine "x" VNull VUndefined Sample.world_one_token)) !! "t"
  = tokens Sample.world_one_token !! "t"
  /\ tokensInstances (snd (setToken Sample.engine "x" VNull VUndefined
                             Sample.world_one_token)) !! "t"
     = tokensInstances Sample.world_one_token !! "t".
Proof.
  refine (setToken_other_ids Sample.engine "x" "t" VNull VUndefined
            Sample.world_one_token _).
  discriminate.
Defined.

(** X11: after the token part of [onInit] and any sequence of [setToken]
    calls, whatever their arguments and however the platform answers, the
    token registry has a handle only for an id that has an entry, and the
    persisted map is the one in memory. *)
Theorem token_invariants_always (E : Engine) (calls : list (string * jsval * jsval))
    (w : world) :
  let w' := snd (setToken_calls E calls (snd (onInit_tokens w))) in
  handles_have_entries w' /\ tokens_persisted w'.
Proof.
  intros w'. subst w'.
  destruct (onInit_tokens_invariants w) as [Hinv Hpers].
  generalize dependent (snd (onInit_tokens w)). clear w.
  induction calls as [|[[id value] type] calls IH]; intros w Hinv Hpers; simpl.
  - auto.
  - unfold attempt. step_M.
    destruct (setToken_invariants E id value type w Hinv Hpers) as [Hinv1 Hpers1].
    destruct (setToken E id value type w) as [r w1]. simpl in *.
    apply IH; assumption.
Qed.

Lemma create_instances_normal (l : list (string * TokenEntry)) (failed : option jsval)
    (w : world) :
  exists f, fst (create_instances l failed w) = Normal f.
Proof.
  revert failed w. induction l as [|[id e] l IH]; intros failed w; simpl.
  - eexists. reflexivity.
  - unfold attempt, flow_createToken, answer, ask, emit. step_M.
    destruct (oracle w) as [|[err|] rest]; simpl; apply IH.
Qed.



(* ===================================================================== *)
(** ** The store shared by the scripts                                     *)
(* ===================================================================== *)

Lemma substring_from_prefix (p s : string) :
  substring_from (String.length p) (p ++ s) = s.
Proof. induction p as [|c p IH]; simpl; [reflexivity | exact IH]. Qed.

Lemma append_inv_head (p a b : string) : p ++ a = p ++ b -> a = b.
Proof.
  induction p as [|c p IH]; simpl; [auto|]. intros H. injection H as H. auto.
Qed.

Lemma startsWith_prefix (p s : string) : startsWith (p ++ s) p = true.
Proof. apply startsWith_spec. exists s. reflexivity. Qed.

(** X13: [global.get(key)] after [global.set(key, value)] returns the value;
    the other keys of the shared store, and every setting whose key does not
    begin with [homeyscript-], read as before. *)
Theorem global_set_then_get (key : string) (value : jsval) (w : world) :
  let w' := snd (cap_global_set key value w) in
  cap_global_get key w' = (Normal value, w')
  /\ (forall key', key' <> key ->
      fst (cap_global_get key' w') = fst (cap_global_get key' w))
  /\ (forall other, startsWith other "homeyscript-" = false ->
      fst (settings_get other w') = fst (settings_get other w)).
Proof.
  intros w'. subst w'. unfold cap_global_get, cap_global_set, settings_get, settings_set.
  step_M. split; [|split].
  - unfold prop. rewrite lookup_insert_eq. reflexivity.
  - intros key' Hne. unfold prop. rewrite lookup_insert_ne; [reflexivity|].
    intros H. apply (append_inv_head "homeyscript-") in H. congruence.
  - intros other Hother. unfold prop. rewrite lookup_insert_ne; [reflexivity|].
    intros H. rewrite <- H in Hother.
    change (startsWith ("homeyscript-" ++ key) "homeyscript-" = false) in Hother.
    rewrite startsWith_prefix in Hother. discriminate.
Qed.

(** X14: [global.keys()] returns exactly the keys that were set with
    [global.set] and are in the store, without the prefix: [key] is in the
    result if and only if the setting [homeyscript-key] exists. *)
Theorem global_keys_spec (w : world) :
  exists ks,
    cap_global_keys w = (Normal ks, w)
    /\ forall key, In key ks <-> is_Some (st_values (settings w) !! ("homeyscript-" ++ key)).
Proof.
  eexists. split; [reflexivity|]. intros key.
  rewrite in_map_iff. split.
  - intros (k & Hk & Hin). apply filter_In in Hin as [Hin Hstart].
    apply startsWith_spec in Hstart as [post ->].
    rewrite (substring_from_prefix "homeyscript-" post) in Hk. subst post.
    unfold key_if_set in Hin.
    repeat (apply in_app_or in Hin as [Hin|Hin];
            [destruct (_ : option _); simpl in Hin;
             [destruct Hin as [Hin|[]]; discriminate Hin | destruct Hin]|]).
    apply in_map_iff in Hin as ([k v] & Hk & Hin). simpl in Hk. subst k.
    apply list_elem_of_In, elem_of_map_to_list in Hin. eauto.
  - intros [v Hv]. exists ("homeyscript-" ++ key). split.
    + apply (substring_from_prefix "homeyscript-" key).
    + apply filter_In. split; [|apply (startsWith_prefix "homeyscript-" key)].
      repeat (apply in_or_app; right).
      apply in_map_iff. exists ("homeyscript-" ++ key, v). split; [reflexivity|].
      apply list_elem_of_In, elem_of_map_to_list. exact Hv.
Qed.

(* ===================================================================== *)
(** ** What a run can and cannot change                                    *)
(* ===================================================================== *)

Section Chain.
Context (E : Engine) (R : world -> world -> Prop) (allowed : event -> bool).
Hypothesis R_refl : forall w, R w w.
Hypothesis R_trans : forall a b c, R a b -> R b c -> R a c.
Hypothesis R_inert : forall w w', inert w w' -> R w w'.
Hypothesis R_emit : forall e w, allowed e = true -> R w (with_trace (trace w ++ [e]) w).
Hypothesis A_create : forall id t v, allowed (EvCreateToken id t v) = true.
Hypothesis A_unregister : forall id, allowed (EvUnregister id) = true.
Hypothesis A_setValue : forall id v, allowed (EvSetValue id v) = true.
Hypothesis A_error : forall args, allowed (EvError args) = true.
Hypothesis A_say : forall api text, allowed (EvSay api text) = true.
Hypothesis A_log : forall args, allowed (EvLog args) = true.
Hypothesis A_builtin : forall m p v, allowed (EvBuiltinWrite m p v) = true.

Lemma keeps_finally {A} (m : M A) (f : M unit) :
  keeps R m -> keeps R f -> keeps R (finally m f).
Proof.
  intros Hm Hf w. unfold finally. specialize (Hm w).
  destruct (m w) as [r w1]. specialize (Hf w1).
  destruct (f w1) as [[u|v] w2]; simpl in *; eapply R_trans; eauto.
Qed.

Lemma chain_emit (e : event) : allowed e = true -> keeps R (emit e).
Proof. intros He w. apply R_emit, He. Qed.

Lemma chain_inert (f : world -> world) :
  (forall w, inert w (f w)) -> keeps R (modify f).
Proof. intros H w. apply R_inert, H. Qed.

Lemma chain_answer : keeps R answer.
Proof.
  intros w. unfold answer, ask. step_M.
  destruct (oracle w) as [|[err|] rest]; simpl;
    first [apply R_refl | apply R_inert; repeat split; reflexivity].
Qed.

Ltac chain_step :=
  first
    [ apply keeps_ret, R_refl
    | apply keeps_throw, R_refl
    | apply keeps_get_world, R_refl
    | apply chain_answer
    | apply chain_emit; solve [auto]
    | apply chain_inert; intros ?; repeat split; reflexivity
    | apply keeps_attempt
    | apply keeps_bind; [exact R_trans | | intros ?]
    | apply keeps_try_catch; [exact R_trans | | intros ?] ].

Ltac chain_auto := repeat chain_step.

Lemma chain_setToken (id : string) (value type : jsval) :
  keeps R (setToken E id value type).
Proof.
  unfold setToken, member_of, catch_error, token_unregister, token_setValue,
         flow_createToken, app_error, settings_set_tokens.
  destruct (nullish value).
  - apply keeps_bind; [exact R_trans | chain_auto | intros w0].
    apply keeps_bind; [exact R_trans | | intros _].
    + destruct (tokensInstances w0 !! id); [|destruct (inherited id)]; chain_auto.
    + apply keeps_bind; [exact R_trans | chain_auto | intros w1].
      destruct (tokens w1 !! id); [|destruct (inherited id)]; chain_auto.
  - apply keeps_bind; [exact R_trans | chain_auto | intros w0].
    destruct (tokensInstances w0 !! id); [|destruct (inherited id)].
    + apply keeps_bind; [exact R_trans | chain_auto | intros _].
      apply keeps_bind; [exact R_trans | chain_auto | intros w1].
      destruct (tokens w1 !! id); [|destruct (inherited id)]; chain_auto.
    + chain_auto.
    + chain_auto.
Qed.

Lemma chain_run_log (name id : jsval) (realtime : bool) (props : list jsval) :
  (realtime = true -> forall text, allowed (EvRealtime text id) = true) ->
  keeps R (run_log E name id realtime props).
Proof.
  intros Hrt. unfold run_log, app_log.
  destruct realtime; chain_auto; try (apply chain_emit, Hrt; reflexivity).
Qed.

Lemma chain_cap_setTagValue (log : list jsval -> M unit)
    (id : string) (opts : option obj) (value : jsval) :
  (forall props, keeps R (log props)) ->
  keeps R (cap_setTagValue E log id opts value).
Proof.
  intros Hlog. unfold cap_setTagValue.
  apply keeps_bind; [exact R_trans | apply Hlog | intros _].
  destruct opts; [apply chain_setToken | chain_auto].
Qed.

Lemma chain_exec (log : list jsval -> M unit) (api : nat) (p : prog) :
  (forall props, keeps R (log props)) ->
  keeps R (exec E log api p).
Proof.
  intros Hlog. induction p as [v|v| |props k IH|text k IH|id value k IH|delay k IH
                               |key k IH|key value k IH|k IH|id opts value k IH]; simpl.
  - chain_auto.
  - chain_auto.
  - chain_auto.
  - apply keeps_bind; [exact R_trans | apply Hlog | intros _; exact IH].
  - apply keeps_bind; [exact R_trans | | intros r; apply IH].
    unfold cap_say. chain_auto.
  - apply keeps_bind; [exact R_trans | | intros r; apply IH].
    apply keeps_attempt. unfold cap_tag. apply chain_setToken.
  - apply keeps_bind; [exact R_trans | | intros _; exact IH].
    unfold cap_wait. chain_auto.
  - apply keeps_bind; [exact R_trans | | intros r; apply IH].
    unfold cap_global_get, settings_get. chain_auto.
  - apply keeps_bind; [exact R_trans | | intros _; exact IH].
    unfold cap_global_set, settings_set. chain_auto.
  - apply keeps_bind; [exact R_trans | | intros r; apply IH].
    unfold cap_global_keys, settings_getKeys. chain_auto.
  - apply keeps_bind; [exact R_trans | | intros r; apply IH].
    apply keeps_attempt, chain_cap_setTagValue, Hlog.
Qed.

Lemma chain_run_vm (code filename : string) (ctx : RunContext)
    (log : list jsval -> M unit) (api : nat) :
  (forall props, keeps R (log props)) ->
  keeps R (run_vm E code filename ctx log api).
Proof.
  intros Hlog. unfold run_vm.
  destruct (compile E (wrap code) filename); [chain_auto | apply chain_exec, Hlog].
Qed.

Lemma chain_log_failure (log : list jsval -> M unit) (err : jsval) :
  (forall props, keeps R (log props)) ->
  keeps R (App.log_failure E log err).
Proof.
  intros Hlog. unfold App.log_failure, App.read_stack.
  apply keeps_bind; [exact R_trans | apply Hlog | intros _].
  apply keeps_bind; [exact R_trans | destruct err; chain_auto | intros stack; apply Hlog].
Qed.

Lemma chain_log_success (log : list jsval -> M unit) (result : jsval) :
  (forall props, keeps R (log props)) ->
  keeps R (App.log_success E log result).
Proof.
  intros Hlog. unfold App.log_success.
  apply keeps_bind; [exact R_trans | apply Hlog | intros _; apply Hlog].
Qed.

Lemma chain_app_run_try (id name code : jsval) (realtime : bool)
    (ctx : RunContext) (api : nat) :
  (forall props, keeps R (run_log E name id realtime props)) ->
  keeps R (App.run_try E id name code realtime ctx api).
Proof.
  intros Hlog. unfold App.run_try, App.run_catch, App.read_message, App.read_stack.
  apply keeps_try_catch; [exact R_trans | | intros err].
  - apply keeps_bind; [exact R_trans | apply chain_run_vm, Hlog | intros r].
    apply keeps_bind; [exact R_trans | | intros result].
    + destruct r as [|[result|err]]; chain_auto.
    + apply keeps_bind; [exact R_trans | | intros _; chain_auto].
      apply chain_log_success, Hlog.
  - apply keeps_bind; [exact R_trans | apply chain_log_failure, Hlog | intros _].
    destruct err; chain_auto.
Qed.

Lemma chain_part000_run_try (code : jsval) (script : obj) (entry : option string)
    (realtime : bool) (ctx : RunContext) (api : nat) :
  (forall props,
     keeps R (run_log E (prop script "name") (prop script "id") realtime props)) ->
  (Part000.is_void (prop script "id") = false -> keeps R settings_set_scripts) ->
  (forall t, keeps R (Part000.touch entry t)) ->
  keeps R (Part000.run_try E code script entry realtime ctx api).
Proof.
  intros Hlog Hpersist Htouch.
  unfold Part000.run_try, Part000.run_catch, App.read_message, Date_now.
  apply keeps_try_catch; [exact R_trans | | intros err].
  - apply keeps_bind; [exact R_trans | chain_auto | intros started].
    apply keeps_bind; [exact R_trans | apply chain_run_vm, Hlog | intros r].
    apply keeps_bind; [exact R_trans | | intros settled].
    + destruct r as [|settled]; chain_auto.
    + apply keeps_bind; [exact R_trans | apply Htouch | intros _].
      apply keeps_bind; [exact R_trans | | intros _].
      * destruct (Part000.is_void (prop script "id")); [chain_auto | auto].
      * apply keeps_bind; [exact R_trans | | intros result].
        -- destruct settled; chain_auto.
        -- apply keeps_bind; [exact R_trans | | intros _; chain_auto].
           apply chain_log_success, Hlog.
  - apply keeps_bind; [exact R_trans | apply chain_log_failure, Hlog | intros _].
    destruct err; chain_auto.
Qed.

Hypothesis R_acquire : keeps R getHomeyAPI.
Hypothesis R_destroy : forall n, keeps R (api_destroy n).

Lemma chain_app_runScript (id name code lastExecuted : jsval) (args : list jsval)
    (realtime : bool) :
  (forall props, keeps R (run_log E name id realtime props)) ->
  keeps R (App.runScript E id name code lastExecuted args realtime).
Proof.
  intros Hlog. unfold App.runScript.
  apply keeps_bind; [exact R_trans | | intros [api ctx]].
  - unfold App.run_setup, Date_now, getTime.
    apply keeps_bind; [exact R_trans | destruct (nullish lastExecuted); chain_auto
                      | intros last].
    apply keeps_bind; [exact R_trans | exact R_acquire | intros api].
    apply keeps_bind; [exact R_trans | chain_auto | intros t].
    apply keeps_bind; [exact R_trans | destruct last; chain_auto | intros t'; chain_auto].
  - apply keeps_finally; [apply chain_app_run_try, Hlog | apply R_destroy].
Qed.

Lemma chain_part000_runScript (code : jsval) (script : Part000.script_arg)
    (args : list jsval) (realtime : bool) :
  (forall name id props, keeps R (run_log E name id realtime props)) ->
  keeps R settings_set_scripts ->
  (forall r t, keeps R (Part000.touch (snd (Part000.resolve script r)) t)) ->
  keeps R (Part000.runScript E code script args realtime).
Proof.
  intros Hlog Hpersist Htouch. unfold Part000.runScript.
  apply keeps_bind; [exact R_trans | chain_auto | intros w0].
  specialize (Htouch (scripts w0)).
  destruct (Part000.resolve script (scripts w0)) as [object entry]. simpl in Htouch.
  apply keeps_bind; [exact R_trans | | intros [[s api] ctx]].
  - unfold Part000.run_setup, Date_now, getTime.
    apply keeps_bind; [exact R_trans | destruct object; chain_auto | intros s].
    apply keeps_bind; [exact R_trans | exact R_acquire | intros api].
    apply keeps_bind; [exact R_trans | chain_auto | intros t].
    apply keeps_bind; [exact R_trans
                      | destruct (prop s "lastExecuted"); chain_auto
                      | intros t'; chain_auto].
  - apply keeps_finally; [|apply R_destroy].
    apply chain_part000_run_try; [apply Hlog | intros _; exact Hpersist | exact Htouch].
Qed.

(** A run of ad-hoc code, [runScript({ code, args, realtime })] with no
    script: the id is ['__void__'], and the registry is not persisted. *)
Lemma chain_part000_adhoc (code : jsval) (args : list jsval) (realtime : bool) :
  (forall name id props, keeps R (run_log E name id realtime props)) ->
  keeps R (Part000.runScript E code Part000.NoScript args realtime).
Proof.
  intros Hlog w.
  destruct (part000_runScript_unfold E code Part000.NoScript args realtime w)
    as (s & ctx & Hs & ->).
  { intros s Hs. discriminate Hs. }
  assert (Hvoid : Part000.is_void (prop s "id") = true).
  { unfold Part000.run_setup, getHomeyAPI, Date_now, emit in Hs. step_M.
    injection Hs as <- _. reflexivity. }
  eapply R_trans.
  - pose proof (R_acquire w) as Ha. unfold getHomeyAPI, emit in Ha. step_M. exact Ha.
  - apply keeps_finally; [|apply R_destroy].
    apply chain_part000_run_try; [apply Hlog| |intros t; apply keeps_ret, R_refl].
    intros H. rewrite H in Hvoid. discriminate Hvoid.
Qed.

End Chain.

Lemma registry_kept_refl (w : world) : registry_kept w w.
Proof. repeat split. Qed.

Lemma registry_kept_trans (a b c : world) :
  registry_kept a b -> registry_kept b c -> registry_kept a c.
Proof.
  intros (H1 & H2 & H3 & H4) (H1' & H2' & H3' & H4'). repeat split; congruence.
Qed.

Lemma store_kept_refl (w : world) : store_kept w w.
Proof. split; [apply registry_kept_refl | reflexivity]. Qed.

Lemma store_kept_trans (a b c : world) :
  store_kept a b -> store_kept b c -> store_kept a c.
Proof.
  intros [H1 H2] [H1' H2']. split; [eapply registry_kept_trans; eauto | congruence].
Qed.

Lemma adds_refl (allowed : event -> bool) (w : world) : adds allowed w w.
Proof. exists []. rewrite app_nil_r. split; reflexivity. Qed.

Lemma adds_trans (allowed : event -> bool) (a b c : world) :
  adds allowed a b -> adds allowed b c -> adds allowed a c.
Proof.
  intros (evs & H1 & H2) (evs' & H1' & H2'). exists (evs ++ evs')%list. split.
  - rewrite H1', H1, <- app_assoc. reflexivity.
  - rewrite forallb_app, H2, H2'. reflexivity.
Qed.

Lemma registry_kept_inert (w w' : world) : inert w w' -> registry_kept w w'.
Proof. intros (? & ? & ? & ? & ? & ? & ? & ?). repeat split; assumption. Qed.

Lemma store_kept_inert (w w' : world) : inert w w' -> store_kept w w'.
Proof. intros (? & ? & ? & ? & ? & ? & ? & ?). repeat split; assumption. Qed.

Lemma store_kept_registry_kept (w w' : world) : store_kept w w' -> registry_kept w w'.
Proof. intros [H _]. exact H. Qed.

Lemma store_kept_emit (e : event) (w : world) :
  true = true -> store_kept w (with_trace (trace w ++ [e]) w).
Proof. intros _. repeat split. Qed.

Lemma store_kept_acquire : keeps store_kept getHomeyAPI.
Proof. intros w. repeat split. Qed.

Lemma store_kept_destroy (n : nat) : keeps store_kept (api_destroy n).
Proof. intros w. repeat split. Qed.

Lemma store_kept_run_log (E : Engine) (realtime : bool) (name id : jsval)
    (props : list jsval) :
  keeps store_kept (run_log E name id realtime props).
Proof.
  apply (chain_run_log E store_kept (fun _ => true) store_kept_trans store_kept_emit
           (fun _ => eq_refl)).
  reflexivity.
Qed.

Lemma app_runScript_store (E : Engine) (id name code lastExecuted : jsval)
    (args : list jsval) (realtime : bool) :
  keeps store_kept (App.runScript E id name code lastExecuted args realtime).
Proof.
  apply (chain_app_runScript E store_kept (fun _ => true)
           store_kept_refl store_kept_trans store_kept_inert store_kept_emit
           (fun _ _ _ => eq_refl) (fun _ => eq_refl) (fun _ _ => eq_refl)
           (fun _ => eq_refl) (fun _ _ => eq_refl) (fun _ _ _ => eq_refl)
           store_kept_acquire store_kept_destroy).
  apply store_kept_run_log.
Qed.

Lemma part000_runScript_registry (E : Engine) (code : jsval) (script : obj)
    (args : list jsval) (realtime : bool) :
  keeps registry_kept (Part000.runScript E code (Part000.OwnObject script) args realtime).
Proof.
  apply (chain_part000_runScript E registry_kept (fun _ => true)
           registry_kept_refl registry_kept_trans registry_kept_inert
           (fun e w0 H => store_kept_registry_kept _ _ (store_kept_emit e w0 H))
           (fun _ _ _ => eq_refl) (fun _ => eq_refl) (fun _ _ => eq_refl)
           (fun _ => eq_refl) (fun _ _ => eq_refl) (fun _ _ _ => eq_refl)
           (fun w0 => store_kept_registry_kept _ _ (store_kept_acquire w0))
           (fun n w0 => store_kept_registry_kept _ _ (store_kept_destroy n w0))).
  - intros n i props w0. apply store_kept_registry_kept, store_kept_run_log.
  - intros w0. repeat split.
  - intros r t w0. apply registry_kept_refl.
Qed.

Lemma part000_adhoc_store (E : Engine) (code : jsval) (args : list jsval)
    (realtime : bool) :
  keeps store_kept (Part000.runScript E code Part000.NoScript args realtime).
Proof.
  apply (chain_part000_adhoc E store_kept (fun _ => true)
           store_kept_refl store_kept_trans store_kept_inert store_kept_emit
           (fun _ _ _ => eq_refl) (fun _ => eq_refl) (fun _ _ => eq_refl)
           (fun _ => eq_refl) (fun _ _ => eq_refl) (fun _ _ _ => eq_refl)
           store_kept_acquire store_kept_destroy).
  intros n i props. apply store_kept_run_log.
Qed.

Lemma entry_touched_refl (key : string) (w : world) : entry_touched key w w.
Proof.
  split; [reflexivity|]. split; [reflexivity|].
  split; [intros old Hold; exists old; auto|]. repeat split.
Qed.

Lemma entry_touched_trans (key : string) (a b c : world) :
  entry_touched key a b -> entry_touched key b c -> entry_touched key a c.
Proof.
  intros (H1 & H2 & H3 & H4 & H5 & H6) (H1' & H2' & H3' & H4' & H5' & H6').
  split; [congruence|]. split; [intros k Hk; rewrite H2', H2 by exact Hk; reflexivity|].
  split; [|repeat split; congruence].
  intros old Hold. destruct (H3 old Hold) as (mid & Hmid & Hp).
  destruct (H3' mid Hmid) as (new & Hnew & Hp').
  exists new. split; [exact Hnew|]. intros p Hne. rewrite Hp', Hp by exact Hne. reflexivity.
Qed.

Lemma registry_kept_touched (key : string) (w w' : world) :
  registry_kept w w' -> entry_touched key w w'.
Proof.
  intros (H1 & H2 & H3 & H4). split; [rewrite H1; reflexivity|].
  split; [intros k _; rewrite H1; reflexivity|].
  split; [intros old Hold; exists old; rewrite H1; auto|]. auto.
Qed.

Lemma entry_touched_touch (key : string) (entry : option string) (t : Z) :
  entry = Some key \/ entry = None ->
  keeps (entry_touched key) (Part000.touch entry t).
Proof.
  intros [->| ->] w; [|apply entry_touched_refl]. simpl.
  destruct (get key (scripts w)) as [s|] eqn:Hs; [|apply entry_touched_refl]. simpl.
  split; [apply keys_set_existing; rewrite Hs; eauto|].
  split; [intros k Hk; apply get_set_ne; congruence|].
  split; [|repeat split].
  intros old Hold. rewrite Hs in Hold. injection Hold as <-.
  eexists. split; [apply get_set_eq|].
  intros p Hp. apply lookup_insert_ne. congruence.
Qed.

(** A run of [src/unnamed/part_000] on the object that is the entry of the
    registry under [key]. *)
Lemma part000_runScript_entry (E : Engine) (code : jsval) (key : string)
    (args : list jsval) (realtime : bool) :
  keeps (entry_touched key)
        (Part000.runScript E code (Part000.RegistryEntry key) args realtime).
Proof.
  apply (chain_part000_runScript E (entry_touched key) (fun _ => true)
           (entry_touched_refl key) (entry_touched_trans key)
           (fun w0 w1 H => registry_kept_touched key _ _ (registry_kept_inert w0 w1 H))
           (fun e w0 H => registry_kept_touched key _ _
                            (store_kept_registry_kept _ _ (store_kept_emit e w0 H)))
           (fun _ _ _ => eq_refl) (fun _ => eq_refl) (fun _ _ => eq_refl)
           (fun _ => eq_refl) (fun _ _ => eq_refl) (fun _ _ _ => eq_refl)
           (fun w0 => registry_kept_touched key _ _
                        (store_kept_registry_kept _ _ (store_kept_acquire w0)))
           (fun n w0 => registry_kept_touched key _ _
                          (store_kept_registry_kept _ _ (store_kept_destroy n w0)))).
  - intros n i props w0.
    apply registry_kept_touched, store_kept_registry_kept, store_kept_run_log.
  - intros w0. apply registry_kept_touched. repeat split.
  - intros r t. apply entry_touched_touch. simpl.
    destruct (get key r); auto.
Qed.

(** X15: a run leaves the script store alone, whatever the script does with
    the functions [log], [console], [say], [tag], [wait], [global] and
    [setTagValue] of its context, and however the run ends.  [runScript] of
    [src/app.js] changes neither the registry, nor the persisted scripts, nor
    the migration markers, nor the id counter.  [runScript] of
    [src/unnamed/part_000], called with an object of the caller's own,
    changes none of them but the persisted scripts, which it writes; called
    with no script it does not write those either; called with the object
    that is the entry of the registry under a key, it changes that entry, in
    its [lastExecuted] only. *)
Theorem runScript_keeps_store (E : Engine) (id name code lastExecuted : jsval)
    (script : obj) (key : string) (args : list jsval) (realtime : bool) (w : world) :
  store_kept w (snd (App.runScript E id name code lastExecuted args realtime w))
  /\ registry_kept w
       (snd (Part000.runScript E code (Part000.OwnObject script) args realtime w))
  /\ store_kept w (snd (Part000.runScript E code Part000.NoScript args realtime w))
  /\ entry_touched key w
       (snd (Part000.runScript E code (Part000.RegistryEntry key) args realtime w)).
Proof.
  split; [apply app_runScript_store|].
  split; [apply part000_runScript_registry|].
  split; [apply part000_adhoc_store | apply part000_runScript_entry].
Qed.

(** In [src/unnamed/part_000], a run that is handed the entry [u] of the
    registry leaves the time of the run in that entry. *)
Example part000_run_touches_entry :
  let w := snd (App.updateScript "u" VUndefined VUndefined (VDate (Some 5))
                  Sample.world_two_scripts) in
  let w' := snd (Part000.runScript Sample.engine VUndefined (Part000.RegistryEntry "u")
                   [] false w) in
  (fun s => prop s "lastExecuted") <$> get "u" (scripts w') = Some (VDate (Some 1000)).
Proof. vm_compute. reflexivity. Qed.

Lemma adds_emit (allowed : event -> bool) (e : event) (w : world) :
  allowed e = true -> adds allowed w (with_trace (trace w ++ [e]) w).
Proof. intros He. exists [e]. split; [reflexivity|]. simpl. rewrite He. reflexivity. Qed.

Lemma adds_inert (allowed : event -> bool) (w w' : world) :
  inert w w' -> adds allowed w w'.
Proof.
  intros (_ & _ & _ & _ & Htr & _). exists []. rewrite app_nil_r.
  split; [exact Htr | reflexivity].
Qed.

Lemma adds_acquire : keeps (adds not_realtime) getHomeyAPI.
Proof.
  intros w. unfold getHomeyAPI, emit. step_M. exists [EvApiCreate (api_next w)].
  split; reflexivity.
Qed.

Lemma adds_destroy (n : nat) : keeps (adds not_realtime) (api_destroy n).
Proof.
  intros w. unfold api_destroy, emit. step_M. exists [EvApiDestroy n]. split; reflexivity.
Qed.

Lemma adds_run_log (E : Engine) (name id : jsval) (props : list jsval) :
  keeps (adds not_realtime) (run_log E name id false props).
Proof.
  apply (chain_run_log E (adds not_realtime) not_realtime (adds_trans not_realtime)
           (adds_emit not_realtime) (fun _ => eq_refl)).
  discriminate.
Qed.

Lemma app_runScript_quiet (E : Engine) (id name code lastExecuted : jsval)
    (args : list jsval) :
  keeps (adds not_realtime) (App.runScript E id name code lastExecuted args false).
Proof.
  apply (chain_app_runScript E (adds not_realtime) not_realtime
           (adds_refl not_realtime) (adds_trans not_realtime) (adds_inert not_realtime)
           (adds_emit not_realtime)
           (fun _ _ _ => eq_refl) (fun _ => eq_refl) (fun _ _ => eq_refl)
           (fun _ => eq_refl) (fun _ _ => eq_refl) (fun _ _ _ => eq_refl) adds_acquire adds_destroy).
  apply adds_run_log.
Qed.

Lemma part000_runScript_quiet (E : Engine) (code : jsval) (script : Part000.script_arg)
    (args : list jsval) :
  keeps (adds not_realtime) (Part000.runScript E code script args false).
Proof.
  apply (chain_part000_runScript E (adds not_realtime) not_realtime
           (adds_refl not_realtime) (adds_trans not_realtime) (adds_inert not_realtime)
           (adds_emit not_realtime)
           (fun _ _ _ => eq_refl) (fun _ => eq_refl) (fun _ _ => eq_refl)
           (fun _ => eq_refl) (fun _ _ => eq_refl) (fun _ _ _ => eq_refl) adds_acquire adds_destroy).
  - intros n i props. apply adds_run_log.
  - intros w0. exists []. simpl. rewrite app_nil_r. split; reflexivity.
  - intros r t w0. exists []. rewrite app_nil_r. split; [|reflexivity].
    unfold Part000.touch. destruct (snd (Part000.resolve script r)) as [k|]; [|reflexivity].
    simpl. destruct (get k (scripts w0)); reflexivity.
Qed.

(** X16: a run with [realtime: false], as the flow cards start it, sends no
    event to the realtime channel, whatever the script logs and however the
    run ends; in both revisions. *)
Theorem runScript_without_realtime (E : Engine) (id name code lastExecuted : jsval)
    (script : Part000.script_arg) (args : list jsval) (w : world) :
  adds not_realtime w (snd (App.runScript E id name code lastExecuted args false w))
  /\ adds not_realtime w (snd (Part000.runScript E code script args false w)).
Proof.
  split; [apply app_runScript_quiet | apply part000_runScript_quiet].
Qed.

(* ===================================================================== *)
(** ** The run listeners of the flow cards                                 *)
(* ===================================================================== *)

(** X17: in [src/app.js], the run listener of a card, for a script of the
    registry whose [id] is its key, ends as [runScript] ends for the stored
    name and code, and then, however the run ended, has recorded the time of
    the end of the run as [lastExecuted] of the entry, left every other
    property and every other entry as it was, and persisted the registry. *)
Theorem app_run_listener_records (E : Engine) (id : string) (old : obj)
    (args : list jsval) (w : world) :
  get id (scripts w) = Some old ->
  prop old "id" = VStr id ->
  let r := Flow.app_run_listener E id args w in
  fst r = fst (App.runScript E (VStr id) (prop old "name") (prop old "code")
                 (VDate (new_Date E (prop old "lastExecuted"))) args false w)
  /\ get id (scripts (snd r)) = Some (<["lastExecuted" := VDate (Some (now (snd r)))]> old)
  /\ (forall k, id <> k -> get k (scripts (snd r)) = get k (scripts w))
  /\ st_scripts (settings (snd r)) = Some (scripts (snd r)).
Proof.
  intros Hget Hid r. subst r.
  unfold Flow.app_run_listener, mbind, M_bind.
  rewrite (getScript_found E id old w Hget). cbv beta iota.
  rewrite !prop_insert_ne by discriminate. rewrite !prop_insert_eq, !Hid.
  change (to_string E (VStr id)) with id.
  pose proof (app_runScript_store E (VStr id) (prop old "name") (prop old "code")
                (VDate (new_Date E (prop old "lastExecuted"))) args false w) as Hkept.
  unfold finally.
  destruct (App.runScript E (VStr id) (prop old "name") (prop old "code")
              (VDate (new_Date E (prop old "lastExecuted"))) args false w) as [res w1].
  simpl in Hkept. destruct Hkept as [(Hscripts & _) _].
  unfold Date_now, catch_error, try_catch, App.updateScript. step_M.
  rewrite Hscripts, Hget.
  rewrite scripts_assign_own by (left; rewrite Hscripts, Hget; eauto).
  simpl. rewrite Hscripts.
  split; [reflexivity|]. split; [apply get_set_eq|].
  split; [intros k Hk; apply get_set_ne, Hk | reflexivity].
Qed.

Lemma app_run_listener_records_witness :
  let r := Flow.app_run_listener Sample.engine "u" [] Sample.world_two_scripts in
  fst r = fst (App.runScript Sample.engine (VStr "u") (prop Sample.script_u "name")
                 (prop Sample.script_u "code")
                 (VDate (new_Date Sample.engine (prop Sample.script_u "lastExecuted")))
                 [] false Sample.world_two_scripts)
  /\ get "u" (scripts (snd r))
     = Some (<["lastExecuted" := VDate (Some (now (snd r)))]> Sample.script_u)
  /\ (forall k, "u" <> k -> get k (scripts (snd r)) = get k (scripts Sample.world_two_scripts))
  /\ st_scripts (settings (snd r)) = Some (scripts (snd r)).
Proof.
  exact (app_run_listener_records Sample.engine "u" Sample.script_u []
           Sample.world_two_scripts eq_refl eq_refl).
Defined.

(** X18: for a script id that is not in the registry and names no member
    of [Object.prototype], the run listeners of both revisions raise the
    error [Script Not Found] and do nothing else: no host-API object, no run,
    no log line, no entry made for the id. *)
Theorem run_listeners_unknown_id (E : Engine) (id : string) (args : list jsval)
    (w : world) :
  get id (scripts w) = None ->
  inherited id = false ->
  Flow.app_run_listener E id args w
  = (Throw (new_Error E "getScript" "Script Not Found"), w)
  /\ Flow.part000_run_listener E id args w
     = (Throw (new_Error E "getScript" "Script Not Found"), w).
Proof.
  intros Hnone Hi.
  unfold Flow.app_run_listener, Flow.part000_run_listener, mbind, M_bind.
  rewrite (getScript_missing E id w Hnone Hi). auto.
Qed.

Lemma run_listeners_unknown_id_witness :
  Flow.app_run_listener Sample.engine "nope" [] Sample.world_two_scripts
  = (Throw (new_Error Sample.engine "getScript" "Script Not Found"), Sample.world_two_scripts).
Proof.
  exact (proj1 (run_listeners_unknown_id Sample.engine "nope" []
                  Sample.world_two_scripts eq_refl eq_refl)).
Defined.

(** For the id [constructor], the listener of [src/app.js] does not raise
    [Script Not Found]: it runs, and its [finally] makes an entry under the
    key [undefined]. *)
Example app_run_listener_constructor :
  let r := Flow.app_run_listener Sample.engine "constructor" [] Sample.world_two_scripts in
  keys (scripts (snd r)) = ["u"; "uu"; "undefined"]
  /\ In (EvApiCreate 0%nat) (trace (snd r)).
Proof. vm_compute. split; [reflexivity | auto]. Qed.

(** X19: in [src/unnamed/part_000], the run listener of a card never changes
    the registry: the time of the run is assigned to the copy that
    [getScript] returned, so the entry of the script keeps the [lastExecuted]
    it had, whatever the run did. *)
Theorem part000_run_listener_keeps_registry (E : Engine) (id : string)
    (args : list jsval) (w : world) :
  let w' := snd (Flow.part000_run_listener E id args w) in
  scripts w' = scripts w
  /\ forall old, get id (scripts w) = Some old -> get id (scripts w') = Some old.
Proof.
  intros w'. subst w'.
  assert (H : scripts (snd (Flow.part000_run_listener E id args w)) = scripts w).
  { unfold Flow.part000_run_listener, mbind, M_bind.
    destruct (get id (scripts w)) as [old|] eqn:Hget; [|destruct (inherited id) eqn:Hi].
    - rewrite (getScript_found E id old w Hget).
      apply (part000_runScript_registry E VUndefined _ args false w).
    - rewrite (getScript_inherited E id w Hget Hi).
      apply (part000_runScript_registry E VUndefined _ args false w).
    - rewrite (getScript_missing E id w Hget Hi). reflexivity. }
  split; [exact H|]. intros old Hold. rewrite H. exact Hold.
Qed.


(* ===================================================================== *)
(** ** More on the outcome of a run                                        *)
(* ===================================================================== *)

Lemma app_run_try_success (E : Engine) (id name code : jsval) (realtime : bool)
    (ctx : RunContext) (api : nat) (w w1 : world) (v : jsval) :
  run_vm E (to_string E code) (to_string E name ++ ".js") ctx
    (run_log E name id realtime) api w = (Normal (VmSettled (Normal v)), w1) ->
  fst (App.run_try E id name code realtime ctx api w) = Normal v
  /\ exists evs,
       trace (snd (App.run_try E id name code realtime ctx api w))
       = (trace w1 ++ evs)%list
       /\ In (EvLog [VStr ("[" ++ to_string E name ++ "]"); VStr "↩️ Returned:";
                     json_stringify E v]) evs.
Proof.
  intros Hvm. unfold App.run_try, try_catch, mbind, M_bind, mret, M_ret. rewrite Hvm.
  unfold App.log_success, run_log, app_log, emit. step_M.
  destruct realtime; simpl; (split; [reflexivity|]); eexists;
    (split; [rewrite <- !app_assoc; reflexivity|]); simpl; auto 6.
Qed.

(** X22: in [src/app.js], when the code of the script settles with a value,
    [runScript] returns that value as it is, and the log of the run has the
    line with the JSON text of the value. *)
Theorem runScript_returns_value (E : Engine) (id name code lastExecuted : jsval)
    (args : list jsval) (realtime : bool) (w w1 : world) (v : jsval) :
  date_or_absent lastExecuted ->
  (forall ctx,
     App.run_setup E id name lastExecuted args w = (Normal (api_next w, ctx), acquired w) ->
     run_vm E (to_string E code) (to_string E name ++ ".js") ctx
       (run_log E name id realtime) (api_next w) (acquired w)
     = (Normal (VmSettled (Normal v)), w1)) ->
  fst (App.runScript E id name code lastExecuted args realtime w) = Normal v
  /\ In (EvLog [VStr ("[" ++ to_string E name ++ "]"); VStr "↩️ Returned:";
                json_stringify E v])
        (trace (snd (App.runScript E id name code lastExecuted args realtime w))).
Proof.
  intros Hd Hvm.
  destruct (app_runScript_unfold E id name code lastExecuted args realtime w Hd)
    as (ctx & Hsetup & ->).
  destruct (finally_destroy (App.run_try E id name code realtime ctx (api_next w))
              (api_next w) (acquired w)) as [-> ->].
  destruct (app_run_try_success E id name code realtime ctx (api_next w) (acquired w) w1 v
              (Hvm ctx Hsetup)) as (Hres & evs & Htr & Hin).
  split; [exact Hres|]. simpl. rewrite Htr.
  apply in_or_app. left. apply in_or_app. right. exact Hin.
Qed.

Lemma runScript_returns_value_witness :
  fst (App.runScript Sample.engine (VStr "u") (VStr "Lights") (VStr "return 1+1")
         VUndefined [] false Sample.world_two_scripts) = Normal (VNum 2)
  /\ In (EvLog [VStr ("[" ++ to_string Sample.engine (VStr "Lights") ++ "]");
                VStr "↩️ Returned:"; json_stringify Sample.engine (VNum 2)])
        (trace (snd (App.runScript Sample.engine (VStr "u") (VStr "Lights")
                       (VStr "return 1+1") VUndefined [] false Sample.world_two_scripts))).
Proof.
  refine (runScript_returns_value Sample.engine (VStr "u") (VStr "Lights")
            (VStr "return 1+1") VUndefined [] false Sample.world_two_scripts
            (acquired Sample.world_two_scripts) (VNum 2) I _).
  intros ctx _. reflexivity.
Defined.

Lemma app_run_catch_value (E : Engine) (name id : jsval) (realtime : bool)
    (thrown : jsval) (w : world) :
  match thrown with
  | VError e =>
      fst (App.run_catch E (run_log E name id realtime) thrown w)
      = Throw (VError (normalized e))
  | VUndefined | VNull =>
      exists e, fst (App.run_catch E (run_log E name id realtime) thrown w)
                = Throw (VError e)
                /\ err_name e = "TypeError"
  | _ =>
      fst (App.run_catch E (run_log E name id realtime) thrown w)
      = Throw (VError (MkError "Error" "" None None Host))
  end.
Proof.
  unfold App.run_catch, App.log_failure, App.read_stack, App.read_message,
         run_log, app_log, emit, normalized.
  step_M.
  destruct thrown as [| | | | | |e]; destruct realtime; simpl;
    try reflexivity; try (eexists; split; reflexivity);
    destruct (err_stack e); reflexivity.
Qed.

(** X23: in [src/app.js], what [runScript] raises for a value the script
    threw: for an [Error] object, a new [Error] with its message and stack;
    for [undefined] or [null], a [TypeError] of the application (reading
    [err.stack] fails in the [catch]); for any other value (a string, a
    number), a new [Error] with an empty message and no stack. *)
Theorem runScript_thrown_value (E : Engine) (id name code lastExecuted : jsval)
    (args : list jsval) (realtime : bool) (w w1 : world) (thrown : jsval) :
  date_or_absent lastExecuted ->
  (forall ctx,
     App.run_setup E id name lastExecuted args w = (Normal (api_next w, ctx), acquired w) ->
     run_vm E (to_string E code) (to_string E name ++ ".js") ctx
       (run_log E name id realtime) (api_next w) (acquired w)
     = (Normal (VmSettled (Throw thrown)), w1)) ->
  match thrown with
  | VError e =>
      fst (App.runScript E id name code lastExecuted args realtime w)
      = Throw (VError (normalized e))
  | VUndefined | VNull =>
      exists e, fst (App.runScript E id name code lastExecuted args realtime w)
                = Throw (VError e)
                /\ err_name e = "TypeError"
  | _ =>
      fst (App.runScript E id name code lastExecuted args realtime w)
      = Throw (VError (MkError "Error" "" None None Host))
  end.
Proof.
  intros Hd Hvm.
  destruct (app_runScript_unfold E id name code lastExecuted args realtime w Hd)
    as (ctx & Hsetup & ->).
  destruct (finally_destroy (App.run_try E id name code realtime ctx (api_next w))
              (api_next w) (acquired w)) as [-> _].
  unfold App.run_try, try_catch, mbind, M_bind, mthrow, M_throw.
  rewrite (Hvm ctx Hsetup). cbv beta iota.
  apply app_run_catch_value.
Qed.

Lemma runScript_thrown_value_witness :
  fst (App.runScript Cases.engine (VStr "u") (VStr "Lights") (VStr "throw 'boom'")
         VUndefined [] false Sample.world_two_scripts)
  = Throw (VError (MkError "Error" "" None None Host)).
Proof.
  refine (runScript_thrown_value Cases.engine (VStr "u") (VStr "Lights")
            (VStr "throw 'boom'") VUndefined [] false Sample.world_two_scripts
            (acquired Sample.world_two_scripts) (VStr "boom") I _).
  intros ctx _. reflexivity.
Defined.

(* ===================================================================== *)
(** ** The first start: examples and legacy scripts                        *)
(* ===================================================================== *)

Lemma length_app_string (a b : string) :
  String.length (a ++ b) = (String.length a + String.length b)%nat.
Proof. induction a as [|c a IH]; simpl; [reflexivity | rewrite IH; reflexivity]. Qed.

Lemma substring_prefix (a b : string) :
  String.substring 0 (String.length a) (a ++ b) = a.
Proof.
  induction a as [|c a IH]; simpl.
  - destruct b; reflexivity.
  - rewrite IH. reflexivity.
Qed.

Lemma substring_split (n : nat) (s : string) :
  (n <= String.length s)%nat ->
  String.substring 0 n s ++ substring_from n s = s.
Proof.
  revert s. induction n as [|n IH]; intros s Hn; simpl.
  - destruct s; reflexivity.
  - destruct s as [|c s]; simpl in *; [lia|].
    change (String c (String.substring 0 n s ++ substring_from n s) = String c s).
    rewrite IH by lia. reflexivity.
Qed.

Lemma stem_js (n : string) : Boot.stem (n ++ ".js") = n.
Proof.
  unfold Boot.stem. rewrite length_app_string. simpl String.length.
  replace (String.length n + 3 - 3)%nat with (String.length n) by lia.
  apply substring_prefix.
Qed.

Lemma endsWith_js (n : string) : Boot.endsWith (n ++ ".js") ".js" = true.
Proof.
  unfold Boot.endsWith. rewrite length_app_string. simpl String.length.
  replace (String.length n + 3 - 3)%nat with (String.length n) by lia.
  rewrite (substring_from_prefix n ".js").
  apply andb_true_intro. split; [apply Nat.leb_le; lia | reflexivity].
Qed.

Lemma endsWith_js_inv (f : string) :
  Boot.endsWith f ".js" = true -> f = Boot.stem f ++ ".js".
Proof.
  unfold Boot.endsWith, Boot.stem. simpl String.length. intros H.
  apply andb_prop in H as [Hlen Heq].
  apply Nat.leb_le in Hlen. apply String.eqb_eq in Heq.
  transitivity (String.substring 0 (String.length f - 3) f
                ++ substring_from (String.length f - 3) f).
  - symmetry. apply substring_split. lia.
  - rewrite Heq. reflexivity.
Qed.

Lemma with_trace_nil (w : world) : with_trace (trace w ++ []) w = w.
Proof. rewrite app_nil_r. destruct w; reflexivity. Qed.

Lemma copy_examples_world (files : list (string * string)) :
  forall acc w, exists r evs,
    Boot.copy_examples files acc w = (Normal r, with_trace (trace w ++ evs) w).
Proof.
  induction files as [|[f c] files IH]; intros acc w; simpl.
  - exists acc, []. rewrite with_trace_nil. reflexivity.
  - destruct (Boot.endsWith f ".js"); [|apply IH].
    unfold app_log, emit. step_M.
    edestruct IH as (r & evs & ->). exists r. eexists (_ :: evs). simpl.
    rewrite <- app_assoc. reflexivity.
Qed.

Lemma copy_examples_miss (k : string) (files : list (string * string)) :
  (forall f c, In (f, c) files -> Boot.endsWith f ".js" = true ->
     "example-" ++ Boot.stem f <> k) ->
  forall acc w r, fst (Boot.copy_examples files acc w) = Normal r -> get k r = get k acc.
Proof.
  induction files as [|[f c] files IH]; intros Hk acc w r; simpl.
  - intros [= <-]. reflexivity.
  - assert (Hrest : forall f' c', In (f', c') files -> Boot.endsWith f' ".js" = true ->
              "example-" ++ Boot.stem f' <> k) by (intros; apply (Hk f' c'); simpl; auto).
    destruct (Boot.endsWith f ".js") eqn:Hjs; [|apply IH, Hrest].
    unfold app_log, emit. step_M. intros Hr.
    rewrite (IH Hrest _ _ _ Hr). apply get_set_ne. apply (Hk f c); simpl; auto.
Qed.

Lemma copy_examples_hit (n code : string) (files : list (string * string)) :
  NoDup (map fst files) ->
  In (n ++ ".js", code) files ->
  forall acc w r, fst (Boot.copy_examples files acc w) = Normal r ->
    get ("example-" ++ n) r = Some (example_entry code).
Proof.
  induction files as [|[f c] files IH]; intros Hnd Hin acc w r; simpl; [destruct Hin|].
  simpl in Hnd. apply NoDup_cons in Hnd as [Hf Hnd].
  destruct Hin as [[= -> ->]|Hin].
  - rewrite endsWith_js, stem_js. unfold app_log, emit. step_M. intros Hr.
    rewrite (copy_examples_miss ("example-" ++ n) files) with (acc := set ("example-" ++ n) (example_entry code) acc) (w := with_trace (trace w ++ [EvLog [VStr ("Found Example: " ++ "example-" ++ n)]]) w); [apply get_set_eq| |exact Hr].
    intros f' c' Hin' Hjs' Heq. apply append_inv_head in Heq.
    apply Hf. apply list_elem_of_In. apply in_map_iff. exists (f', c'). split; [|exact Hin'].
    simpl. rewrite (endsWith_js_inv f' Hjs'), Heq. reflexivity.
  - destruct (Boot.endsWith f ".js"); [|apply (IH Hnd Hin)].
    unfold app_log, emit. step_M. apply (IH Hnd Hin).
Qed.

Lemma copy_examples_from (files : list (string * string)) :
  forall acc w r k s,
    fst (Boot.copy_examples files acc w) = Normal r ->
    get k r = Some s ->
    get k acc = Some s
    \/ exists n code, In (n ++ ".js", code) files
                      /\ k = "example-" ++ n /\ s = example_entry code.
Proof.
  induction files as [|[f c] files IH]; intros acc w r k s; simpl.
  - intros [= <-]. auto.
  - assert (Hweak : forall P : Prop,
              (P \/ exists n code, In (n ++ ".js", code) files
                      /\ k = "example-" ++ n /\ s = example_entry code) ->
              P \/ exists n code, ((f, c) = (n ++ ".js", code) \/ In (n ++ ".js", code) files)
                      /\ k = "example-" ++ n /\ s = example_entry code).
    { intros P [H|(n & code & H1 & H2 & H3)]; [left; exact H|].
      right. exists n, code. auto. }
    destruct (Boot.endsWith f ".js") eqn:Hjs.
    + unfold app_log, emit. step_M. intros Hr Hget.
      destruct (IH _ _ _ _ _ Hr Hget) as [Hacc|Hfiles]; [|apply Hweak; right; exact Hfiles].
      destruct (String.eqb_spec k ("example-" ++ Boot.stem f)) as [->|Hne].
      * rewrite get_set_eq in Hacc. injection Hacc as <-.
        right. exists (Boot.stem f), c. split; [|split; reflexivity].
        left. rewrite <- (endsWith_js_inv f Hjs). reflexivity.
      * rewrite get_set_ne in Hacc by congruence. left. exact Hacc.
    + intros Hr Hget. apply Hweak. apply (IH _ _ _ _ _ Hr Hget).
Qed.

Lemma copy_userdata_world (E : Engine) (files : list (string * string)) :
  forall acc w, exists r evs,
    Boot.copy_userdata E files acc w = (Normal r, with_trace (trace w ++ evs) w).
Proof.
  induction files as [|[f c] files IH]; intros acc w; simpl.
  - exists acc, []. rewrite with_trace_nil. reflexivity.
  - destruct (Boot.endsWith f ".js"); [|apply IH].
    unfold settings_get, app_log, emit. step_M.
    edestruct IH as (r & evs & ->). exists r. eexists (_ :: evs). simpl.
    rewrite <- app_assoc. reflexivity.
Qed.

Lemma copy_userdata_miss (E : Engine) (k : string) (files : list (string * string)) :
  (forall f c, In (f, c) files -> Boot.endsWith f ".js" = true -> Boot.stem f <> k) ->
  forall acc w r, fst (Boot.copy_userdata E files acc w) = Normal r -> get k r = get k acc.
Proof.
  induction files as [|[f c] files IH]; intros Hk acc w r; simpl.
  - intros [= <-]. reflexivity.
  - assert (Hrest : forall f' c', In (f', c') files -> Boot.endsWith f' ".js" = true ->
              Boot.stem f' <> k) by (intros; apply (Hk f' c'); simpl; auto).
    destruct (Boot.endsWith f ".js") eqn:Hjs; [|apply IH, Hrest].
    unfold settings_get, app_log, emit. step_M. intros Hr.
    rewrite (IH Hrest _ _ _ Hr). apply get_set_ne. apply (Hk f c); simpl; auto.
Qed.


Lemma copy_userdata_from (E : Engine) (files : list (string * string)) :
  forall acc w r k s,
    fst (Boot.copy_userdata E files acc w) = Normal r ->
    get k r = Some s ->
    get k acc = Some s
    \/ exists code, In (k ++ ".js", code) files /\ s = legacy_entry E w k code.
Proof.
  induction files as [|[f c] files IH]; intros acc w r k s; simpl.
  - intros [= <-]. auto.
  - assert (Hweak : forall P : Prop,
              (P \/ exists code, In (k ++ ".js", code) files /\ s = legacy_entry E w k code) ->
              P \/ exists code, ((f, c) = (k ++ ".js", code) \/ In (k ++ ".js", code) files)
                                /\ s = legacy_entry E w k code).
    { intros P [H|(code & H1 & H2)]; [left; exact H|]. right. exists code. auto. }
    destruct (Boot.endsWith f ".js") eqn:Hjs.
    + unfold settings_get, app_log, emit. step_M. intros Hr Hget.
      destruct (IH _ _ _ _ _ Hr Hget) as [Hacc|Hfiles]; [|apply Hweak; right; exact Hfiles].
      destruct (String.eqb_spec k (Boot.stem f)) as [->|Hne].
      * rewrite get_set_eq in Hacc. injection Hacc as <-.
        right. exists c. split; [|reflexivity].
        left. rewrite <- (endsWith_js_inv f Hjs). reflexivity.
      * rewrite get_set_ne in Hacc by congruence. left. exact Hacc.
    + intros Hr Hget. apply Hweak. apply (IH _ _ _ _ _ Hr Hget).
Qed.

Lemma legacy_entry_settings (E : Engine) (w0 w : world) (n code : string) :
  settings w0 = settings w -> legacy_entry E w0 n code = legacy_entry E w n code.
Proof. intros H. unfold legacy_entry. rewrite H. reflexivity. Qed.

Lemma onInit_scripts_seeded (E : Engine) (examples userdata : Boot.listing) (w : world) :
  st_scripts (settings w) = None ->
  exists r1 r2 evs,
    match examples with
    | inl _ => r1 = []
    | inr files => exists w0, fst (Boot.copy_examples files [] w0) = Normal r1
    end
    /\ match userdata with
       | inl _ => r2 = r1
       | inr files => exists w0, settings w0 = settings w
                                 /\ fst (Boot.copy_userdata E files r1 w0) = Normal r2
       end
    /\ (forall err, examples = inl err -> In (EvError [VStr "Examples Error:"; err]) evs)
    /\ (forall err, userdata = inl err -> In (EvError [VStr "Migration Error:"; err]) evs)
    /\ Boot.onInit_scripts E examples userdata w
       = (Normal tt,
          with_settings (MkSettings (Some r2) (st_tokens (settings w))
                           (st_migrations (settings w)) (st_values (settings w)))
            (with_scripts r2 (with_trace (trace w ++ evs) w))).
Proof.
  intros Hnone. unfold Boot.onInit_scripts, settings_set_scripts, app_log, app_error, emit.
  step_M. rewrite Hnone. simpl.
  set (w0 := with_trace (trace w ++ [EvLog [VStr "No scripts found."]]) w).
  destruct examples as [err1|files1].
  - simpl. set (w1 := with_trace _ w0).
    destruct userdata as [err2|files2].
    + simpl. exists [], [], [EvLog [VStr "No scripts found."];
                            EvError [VStr "Examples Error:"; err1];
                            EvError [VStr "Migration Error:"; err2]].
      split; [reflexivity|]. split; [reflexivity|].
      split; [intros err [= <-]; simpl; auto|].
      split; [intros err [= <-]; simpl; auto|].
      subst w1 w0. simpl. rewrite <- !app_assoc. reflexivity.
    + destruct (copy_userdata_world E files2 [] w1) as (r2 & evs & Hr).
      rewrite Hr. simpl.
      exists [], r2, ([EvLog [VStr "No scripts found."];
                       EvError [VStr "Examples Error:"; err1]] ++ evs)%list.
      split; [reflexivity|].
      split; [exists w1; split; [reflexivity | rewrite Hr; reflexivity]|].
      split; [intros err [= <-]; simpl; auto|].
      split; [intros err [=]|].
      subst w1 w0. simpl. rewrite <- !app_assoc. reflexivity.
  - destruct (copy_examples_world files1 [] w0) as (r1 & evs1 & Hr1).
    rewrite Hr1. simpl. set (w1 := with_trace _ w0) in *.
    destruct userdata as [err2|files2].
    + simpl. exists r1, r1, ([EvLog [VStr "No scripts found."]] ++ evs1
                             ++ [EvError [VStr "Migration Error:"; err2]])%list.
      split; [exists w0; rewrite Hr1; reflexivity|]. split; [reflexivity|].
      split; [intros err [=]|].
      split; [intros err [= <-]; simpl; right; apply in_or_app; right; simpl; auto|].
      subst w1 w0. simpl. rewrite <- !app_assoc. reflexivity.
    + destruct (copy_userdata_world E files2 r1 w1) as (r2 & evs2 & Hr2).
      rewrite Hr2. simpl.
      exists r1, r2, ([EvLog [VStr "No scripts found."]] ++ evs1 ++ evs2)%list.
      split; [exists w0; rewrite Hr1; reflexivity|].
      split; [exists w1; split; [reflexivity | rewrite Hr2; reflexivity]|].
      split; [intros err [=]|]. split; [intros err [=]|].
      subst w1 w0. simpl. rewrite <- !app_assoc. reflexivity.
Qed.

(** X24: the script part of [onInit] never raises, also when a directory
    cannot be read, and ends with the persisted registry equal to the one in
    memory; it touches neither the tokens nor the other settings.  When the
    settings hold a registry, that registry is loaded and nothing else
    happens.  On a first start, a directory that cannot be read is reported
    with [this.error], and when neither can be read the registry is empty. *)
Theorem onInit_scripts_loads (E : Engine) (examples userdata : Boot.listing) (w : world) :
  let r := Boot.onInit_scripts E examples userdata w in
  fst r = Normal tt
  /\ st_scripts (settings (snd r)) = Some (scripts (snd r))
  /\ tokens_kept w (snd r)
  /\ st_values (settings (snd r)) = st_values (settings w)
  /\ (forall stored, st_scripts (settings w) = Some stored -> snd r = with_scripts stored w)
  /\ (st_scripts (settings w) = None ->
      (forall err, examples = inl err ->
         In (EvError [VStr "Examples Error:"; err]) (trace (snd r)))
      /\ (forall err, userdata = inl err ->
            In (EvError [VStr "Migration Error:"; err]) (trace (snd r)))
      /\ (forall err1 err2, examples = inl err1 -> userdata = inl err2 ->
            scripts (snd r) = [])).
Proof.
  intros r. subst r.
  destruct (st_scripts (settings w)) as [stored|] eqn:Hs.
  - assert (Hr : Boot.onInit_scripts E examples userdata w = (Normal tt, with_scripts stored w)).
    { unfold Boot.onInit_scripts. step_M. rewrite Hs. reflexivity. }
    rewrite Hr. simpl. split; [reflexivity|]. split; [exact Hs|].
    split; [repeat split|]. split; [reflexivity|].
    split; [intros s [= <-]; reflexivity | discriminate].
  - destruct (onInit_scripts_seeded E examples userdata w Hs)
      as (r1 & r2 & evs & H1 & H2 & He1 & He2 & ->).
    simpl. split; [reflexivity|]. split; [reflexivity|].
    split; [repeat split|]. split; [reflexivity|].
    split; [discriminate|]. intros _.
    split; [intros err Herr; apply in_or_app; right; apply (He1 err Herr)|].
    split; [intros err Herr; apply in_or_app; right; apply (He2 err Herr)|].
    intros err1 err2 -> ->. subst r2. exact H1.
Qed.

(** X25: on a first start, the bundled example file [<n>.js] becomes the
    script [example-<n>], with the content of the file as code and
    [lastExecuted: null], unless the legacy directory has a file
    [example-<n>.js]. *)
Theorem onInit_scripts_seeds_example (E : Engine) (files : list (string * string))
    (userdata : Boot.listing) (n code : string) (w : world) :
  st_scripts (settings w) = None ->
  NoDup (map fst files) ->
  In (n ++ ".js", code) files ->
  (forall legacy c, userdata = inr legacy -> ~ In ("example-" ++ n ++ ".js", c) legacy) ->
  get ("example-" ++ n) (scripts (snd (Boot.onInit_scripts E (inr files) userdata w)))
  = Some (example_entry code).
Proof.
  intros Hs Hnd Hin Hlegacy.
  destruct (onInit_scripts_seeded E (inr files) userdata w Hs)
    as (r1 & r2 & evs & [w0 H1] & H2 & _ & _ & ->).
  simpl.
  assert (Hr1 : get ("example-" ++ n) r1 = Some (example_entry code))
    by exact (copy_examples_hit n code files Hnd Hin [] w0 r1 H1).
  destruct userdata as [err|legacy]; [subst r2; exact Hr1|].
  destruct H2 as (w1 & _ & H2). rewrite <- Hr1.
  refine (copy_userdata_miss E ("example-" ++ n) legacy _ r1 w1 r2 H2).
  intros f c Hf Hjs Heq. apply (Hlegacy legacy c eq_refl).
  rewrite (endsWith_js_inv f Hjs), Heq in Hf. exact Hf.
Qed.


(** X27: on a first start, every script of the registry comes from a file
    whose name ends in [.js], of the legacy directory (the id is the file
    name without [.js]) or of the examples (the id is [example-] and the file
    name without [.js]); other files make no script, and no script has a
    [name] or an [id] property yet. *)
Theorem onInit_scripts_seeds_only_files (E : Engine) (examples userdata : Boot.listing)
    (k : string) (script : obj) (w : world) :
  st_scripts (settings w) = None ->
  get k (scripts (snd (Boot.onInit_scripts E examples userdata w))) = Some script ->
  (exists files code, userdata = inr files /\ In (k ++ ".js", code) files
                      /\ script = legacy_entry E w k code)
  \/ (exists files n code, examples = inr files /\ In (n ++ ".js", code) files
                           /\ k = "example-" ++ n /\ script = example_entry code).
Proof.
  intros Hs.
  destruct (onInit_scripts_seeded E examples userdata w Hs)
    as (r1 & r2 & evs & H1 & H2 & _ & _ & ->).
  simpl. intros Hget.
  assert (Hex : get k r1 = Some script ->
            exists files n code, examples = inr files /\ In (n ++ ".js", code) files
                                 /\ k = "example-" ++ n /\ script = example_entry code).
  { intros Hk. destruct examples as [err|files]; [subst r1; discriminate Hk|].
    destruct H1 as [w0 H1].
    destruct (copy_examples_from files [] w0 r1 k script H1 Hk)
      as [Hnil|(n & code & Hin & -> & ->)]; [discriminate Hnil|].
    exists files, n, code. auto. }
  destruct userdata as [err|legacy]; [subst r2; right; apply Hex, Hget|].
  destruct H2 as (w1 & Hw1 & H2).
  destruct (copy_userdata_from E legacy r1 w1 r2 k script H2 Hget)
    as [Hk|(code & Hin & ->)]; [right; apply Hex, Hk|].
  left. exists legacy, code. split; [reflexivity|]. split; [exact Hin|].
  apply legacy_entry_settings, Hw1.
Qed.

(* ===================================================================== *)
(** ** The names of the scripts                                            *)
(* ===================================================================== *)

Lemma In_replace (k k' : string) (v s : obj) (r : registry) :
  In (k', s) (replace k v r) -> (k', s) = (k, v) \/ In (k', s) r.
Proof.
  induction r as [|[k0 s0] r IH]; simpl; [tauto|].
  destruct (String.eqb_spec k k0) as [->|Hne]; simpl.
  - intros [H|H]; auto.
  - intros [H|H]; [auto|]. destruct (IH H); auto.
Qed.

Lemma In_insert_index (n : N) (k k' : string) (v s : obj) (r : registry) :
  In (k', s) (insert_index n k v r) -> (k', s) = (k, v) \/ In (k', s) r.
Proof.
  induction r as [|[k0 s0] r IH]; simpl; [intros [H|[]]; auto|].
  destruct (array_index k0) as [n0|]; [destruct (n <? n0)%N|]; simpl;
    try (intros [H|[H|H]]; auto).
  intros [H|H]; [auto|]. destruct (IH H); auto.
Qed.

Lemma In_set (k k' : string) (v s : obj) (r : registry) :
  In (k', s) (set k v r) -> (k', s) = (k, v) \/ In (k', s) r.
Proof.
  unfold set. destruct (mem k r); [apply In_replace|].
  destruct (array_index k) as [n|]; [apply In_insert_index|].
  intros H. apply in_app_or in H as [H|[H|[]]]; auto.
Qed.

Lemma In_values_set (k : string) (v s : obj) (r : registry) :
  In s (values (set k v r)) -> s = v \/ In s (values r).
Proof.
  unfold values. intros H. apply in_map_iff in H as ([k' s'] & <- & Hin).
  apply In_set in Hin as [[= _ ->]|Hin]; [left; reflexivity|].
  right. apply in_map_iff. exists (k', s'). auto.
Qed.

Lemma In_values_remove (k : string) (s : obj) (r : registry) :
  In s (values (remove k r)) -> In s (values r).
Proof.
  unfold values. induction r as [|[k0 s0] r IH]; simpl; [tauto|].
  destruct (String.eqb k k0); simpl; [auto|]. intros [H|H]; auto.
Qed.

Lemma get_In_values (k : string) (s : obj) (r : registry) :
  get k r = Some s -> In s (values r).
Proof.
  unfold values. induction r as [|[k0 s0] r IH]; simpl; [discriminate|].
  destruct (String.eqb k k0); [intros [= ->]; auto | auto].
Qed.

Lemma named_migrate (r : registry) : named (App.migrate r).
Proof.
  unfold named, App.migrate, entries, values. intros script Hin.
  apply in_map_iff in Hin as ([k s] & <- & Hin).
  apply in_map_iff in Hin as ([k0 s0] & Heq & _).
  unfold App.migrate_entry in Heq. destruct (App.lacks_name s0) eqn:Hl.
  - injection Heq as <- <-. simpl. rewrite prop_insert_ne by discriminate.
    rewrite prop_insert_eq. reflexivity.
  - injection Heq as <- <-. simpl. unfold App.lacks_name in Hl.
    destruct (is_string (prop s0 "name")); [reflexivity | discriminate Hl].
Qed.

Lemma migrate_unchanged (r : registry) :
  App.anyScriptChanged r = false -> App.migrate r = r.
Proof.
  unfold App.anyScriptChanged, App.migrate, entries.
  induction r as [|[k s] r IH]; simpl; [reflexivity|].
  intros H. apply orb_false_elim in H as [Hs Hr].
  rewrite Hs, (IH Hr). reflexivity.
Qed.

(** X28: in [src/app.js], when every script has a string as [name], this
    is still so after [createScript] with a string as name, after
    [updateScript] with a string as name, or with no name on an id of the
    registry, and after [deleteScript]. *)
Theorem names_are_kept (E : Engine) (w : world) :
  named (scripts w) ->
  (forall name code, is_string name = true ->
     named (scripts (snd (App.createScript E name code w))))
  /\ (forall id name code lastExecuted,
        is_string name = true \/ (nullish name = true /\ is_Some (get id (scripts w))) ->
        named (scripts (snd (App.updateScript id name code lastExecuted w))))
  /\ (forall id, named (scripts (snd (deleteScript id w)))).
Proof.
  intros Hn. split; [|split].
  - intros name code Hname script. unfold App.createScript. step_M.
    intros Hin. apply In_values_set in Hin as [->|Hin]; [|apply Hn, Hin].
    rewrite prop_insert_ne by discriminate. rewrite prop_insert_eq. exact Hname.
  - intros id name code lastExecuted Hname script.
    unfold App.updateScript, scripts_assign, emit. step_M.
    destruct (sets_prototype id (scripts w)); simpl; [apply Hn|].
    intros Hin. apply In_values_set in Hin as [->|Hin]; [|apply Hn, Hin].
    unfold prop. rewrite !lookup_assign_unless_null. simpl.
    destruct Hname as [Hs|[Hnull [old Hold]]].
    + destruct name; try discriminate Hs. reflexivity.
    + rewrite Hnull, Hold. simpl. apply (Hn old). apply (get_In_values id), Hold.
  - intros id script. rewrite deleteScript_result. simpl.
    intros Hin. apply Hn. apply (In_values_remove id), Hin.
Qed.

(* ===================================================================== *)
(** ** The whole of [onInit]                                               *)
(* ===================================================================== *)

Lemma seq_normal {A} (m : M unit) (k : M A) (w : world) :
  fst (m w) = Normal tt -> (m;; k) w = k (snd (m w)).
Proof.
  unfold mbind, M_bind. destruct (m w) as [[[]|v] w1]; simpl; [reflexivity | discriminate].
Qed.

Lemma onInit_scripts_normal (E : Engine) (examples userdata : Boot.listing) (w : world) :
  let w1 := snd (Boot.onInit_scripts E examples userdata w) in
  fst (Boot.onInit_scripts E examples userdata w) = Normal tt
  /\ st_scripts (settings w1) = Some (scripts w1)
  /\ tokens_kept w w1
  /\ st_values (settings w1) = st_values (settings w)
  /\ st_migrations (settings w1) = st_migrations (settings w).
Proof.
  intros w1. subst w1.
  destruct (st_scripts (settings w)) as [stored|] eqn:Hs.
  - assert (Hr : Boot.onInit_scripts E examples userdata w = (Normal tt, with_scripts stored w)).
    { unfold Boot.onInit_scripts. step_M. rewrite Hs. reflexivity. }
    rewrite Hr. simpl. split; [reflexivity|]. split; [exact Hs|].
    split; [repeat split|]. split; reflexivity.
  - destruct (onInit_scripts_seeded E examples userdata w Hs)
      as (r1 & r2 & evs & _ & _ & _ & _ & ->).
    simpl. split; [reflexivity|]. split; [reflexivity|].
    split; [repeat split|]. split; reflexivity.
Qed.

Lemma create_instances_frame (l : list (string * TokenEntry)) (failed : option jsval)
    (w : world) :
  scripts (snd (create_instances l failed w)) = scripts w
  /\ migrations (snd (create_instances l failed w)) = migrations w
  /\ settings (snd (create_instances l failed w)) = settings w.
Proof.
  revert failed w. induction l as [|[id e] l IH]; intros failed w; simpl; [auto|].
  unfold attempt, flow_createToken, answer, ask, emit. step_M.
  destruct (oracle w) as [|[err|] rest]; simpl;
    match goal with
    | |- scripts (snd (create_instances l ?f ?w')) = _ /\ _ =>
        destruct (IH f w') as (H1 & H2 & H3); rewrite H1, H2, H3; auto
    end.
Qed.

Lemma onInit_tokens_frame (w : world) :
  fst (onInit_tokens w) = Normal tt
  /\ scripts (snd (onInit_tokens w)) = scripts w
  /\ migrations (snd (onInit_tokens w)) = migrations w
  /\ settings (snd (onInit_tokens w)) = settings w.
Proof.
  unfold onInit_tokens, app_error, emit. step_M.
  set (w0 := with_tokensInstances ∅ (with_tokens (default ∅ (st_tokens (settings w))) w)).
  destruct (create_instances_frame (map_to_list (default ∅ (st_tokens (settings w)))) None w0)
    as (H1 & H2 & H3).
  destruct (create_instances (map_to_list (default ∅ (st_tokens (settings w)))) None w0)
    as [[[err|]|v] w1] eqn:Hc; simpl in *; auto.
  destruct (create_instances_normal (map_to_list (default ∅ (st_tokens (settings w)))) None w0)
    as [f Hf].
  rewrite Hc in Hf. discriminate Hf.
Qed.

Lemma app_migration_result (w : world) :
  fst (App.onInit_migration w) = Normal tt
  /\ scripts (snd (App.onInit_migration w)) = App.migrate (scripts w)
  /\ (st_scripts (settings w) = Some (scripts w) ->
      st_scripts (settings (snd (App.onInit_migration w)))
      = Some (scripts (snd (App.onInit_migration w)))).
Proof.
  unfold App.onInit_migration, settings_set_scripts. step_M.
  destruct (App.anyScriptChanged (scripts w)) eqn:Hc; simpl; auto.
  rewrite (migrate_unchanged _ Hc). auto.
Qed.

(** X29: [onInit] of [src/app.js], however the application starts (with or
    without a stored registry, with or without the directories, whatever the
    platform answers to [createToken]): it does not raise; every script has a
    string as [name], so the autocomplete listener does not throw and returns
    for every query the scripts for which [name.toLowerCase()] includes
    [query.toLowerCase()], in the order of the registry; the persisted
    registry is the one in memory; and the token registry has a handle only
    for an entry and is the persisted one. *)
Theorem onInit_app_outcome (E : Engine) (examples userdata : Boot.listing) (w : world) :
  let r := Boot.onInit_app E examples userdata w in
  fst r = Normal tt
  /\ named (scripts (snd r))
  /\ st_scripts (settings (snd r)) = Some (scripts (snd r))
  /\ handles_have_entries (snd r)
  /\ tokens_persisted (snd r)
  /\ forall query,
       answers (fun script => name_matches E query script = true)
               (values (scripts (snd r))) id_name
               (App.onFlowGetScriptAutocomplete E query) (snd r).
Proof.
  intros r. subst r. unfold Boot.onInit_app.
  destruct (onInit_scripts_normal E examples userdata w) as (H1 & Hp1 & _).
  rewrite (seq_normal _ _ w H1).
  set (w1 := snd (Boot.onInit_scripts E examples userdata w)) in *.
  destruct (app_migration_result w1) as (H2 & Hs2 & Hp2).
  rewrite (seq_normal _ _ w1 H2).
  set (w2 := snd (App.onInit_migration w1)) in *.
  destruct (onInit_tokens_frame w2) as (H3 & Hs3 & _ & Hset3).
  destruct (onInit_tokens_invariants w2) as (Hinv & Hpers).
  assert (Hnamed : named (scripts (snd (onInit_tokens w2))))
    by (rewrite Hs3, Hs2; apply named_migrate).
  split; [exact H3|]. split; [exact Hnamed|].
  split; [rewrite Hset3, Hs3; apply Hp2, Hp1|].
  split; [exact Hinv|]. split; [exact Hpers|].
  intros query. apply app_autocomplete_answers, Hnamed.
Qed.

Lemma keyed_nextScripts (r : registry) : keyed (Part000.nextScripts r).
Proof.
  unfold Part000.nextScripts, entries.
  assert (H : forall l acc, keyed acc ->
            keyed (fold_left
              (fun next entry => let '(scriptId, script) := entry in
                 set scriptId (<["name" := VStr scriptId]> (<["id" := VStr scriptId]> script)) next)
              l acc)).
  { induction l as [|[k0 s0] l IH]; intros acc Hacc; simpl; [exact Hacc|].
    apply IH. intros k s Hin. apply In_set in Hin as [[= -> ->]|Hin]; [|apply Hacc, Hin].
    split; [apply prop_insert_eq|].
    rewrite prop_insert_ne by discriminate. apply prop_insert_eq. }
  apply H. intros k s [].
Qed.

Lemma part000_migration_result (w : world) :
  let w' := snd (Part000.onInit_migration w) in
  fst (Part000.onInit_migration w) = Normal tt
  /\ tokens_kept w w'
  /\ (Part000.migration0 (default [] (st_migrations (settings w))) = None ->
      scripts w' = Part000.nextScripts (scripts w)
      /\ st_scripts (settings w') = Some (scripts w')
      /\ Part000.migration0 (migrations w') = Some (MkMarker true)
      /\ st_migrations (settings w') = Some (migrations w'))
  /\ (forall m, Part000.migration0 (default [] (st_migrations (settings w))) = Some m ->
      scripts w' = scripts w /\ settings w' = settings w).
Proof.
  intros w'. subst w'.
  unfold Part000.onInit_migration, app_log, emit, settings_set_scripts,
         settings_set_migrations. step_M.
  destruct (Part000.migration0 (default [] (st_migrations (settings w)))) eqn:Hm; simpl.
  - split; [reflexivity|]. split; [repeat split|].
    split; [discriminate | intros m' _; auto].
  - split; [reflexivity|]. split; [repeat split|]. split; [|discriminate].
    intros _. split; [reflexivity|]. split; [reflexivity|].
    split; [|reflexivity].
    destruct (default [] (st_migrations (settings w))); reflexivity.
Qed.

(** X30: [onInit] of [src/unnamed/part_000], however the application
    starts, once the cards are registered: it does not raise; the persisted registry is the one in memory;
    the token invariants hold.  While the marker of migration 0 is absent,
    every script ends with its key as [name] and as [id], and the marker is
    set and persisted; when the marker is present the registry is the loaded
    or seeded one as it is (a registry seeded then has no names). *)
Theorem onInit_part000_outcome (E : Engine) (examples userdata : Boot.listing) (w : world) :
  let r := Boot.onInit_part000 E examples userdata w in
  fst r = Normal tt
  /\ st_scripts (settings (snd r)) = Some (scripts (snd r))
  /\ handles_have_entries (snd r)
  /\ tokens_persisted (snd r)
  /\ (Part000.migration0 (default [] (st_migrations (settings w))) = None ->
      keyed (scripts (snd r))
      /\ Part000.migration0 (migrations (snd r)) = Some (MkMarker true)
      /\ st_migrations (settings (snd r)) = Some (migrations (snd r)))
  /\ (forall m, Part000.migration0 (default [] (st_migrations (settings w))) = Some m ->
      scripts (snd r) = scripts (snd (Boot.onInit_scripts E examples userdata w))).
Proof.
  intros r. subst r. unfold Boot.onInit_part000.
  destruct (onInit_scripts_normal E examples userdata w) as (H1 & Hp1 & _ & _ & Hm1).
  rewrite (seq_normal _ _ w H1).
  set (w1 := snd (Boot.onInit_scripts E examples userdata w)) in *.
  destruct (part000_migration_result w1) as (H2 & _ & Hrun & Hskip).
  rewrite (seq_normal _ _ w1 H2).
  set (w2 := snd (Part000.onInit_migration w1)) in *.
  destruct (onInit_tokens_frame w2) as (H3 & Hs3 & Hmig3 & Hset3).
  destruct (onInit_tokens_invariants w2) as (Hinv & Hpers).
  rewrite Hm1 in Hrun, Hskip.
  split; [exact H3|]. rewrite Hset3, Hs3, Hmig3.
  split.
  { destruct (Part000.migration0 (default [] (st_migrations (settings w)))) as [m|] eqn:Hm.
    - destruct (Hskip m eq_refl) as [-> ->]. exact Hp1.
    - apply (Hrun eq_refl). }
  split; [exact Hinv|]. split; [exact Hpers|]. split.
  - intros Hnone. destruct (Hrun Hnone) as (-> & _ & Hmark & Hst).
    split; [apply keyed_nextScripts|]. split; [exact Hmark | exact Hst].
  - intros m Hm. apply (Hskip m Hm).
Qed.

Lemma example_files_distinct : NoDup (map fst Cases.example_files).
Proof. apply (bool_decide_unpack _). vm_compute. exact I. Qed.


Lemma onInit_scripts_seeds_example_witness :
  get "example-hello"
    (scripts (snd (Boot.onInit_scripts Sample.engine (inr Cases.example_files)
                     (inr Cases.userdata_files) Cases.first_start)))
  = Some (example_entry "log('hello')").
Proof.
  refine (onInit_scripts_seeds_example Sample.engine Cases.example_files
            (inr Cases.userdata_files) "hello" "log('hello')" Cases.first_start
            eq_refl example_files_distinct (or_introl eq_refl) _).
  intros legacy c [= <-] [H|[]]. discriminate H.
Defined.


Lemma onInit_scripts_seeds_only_files_witness :
  (exists files code, (inr Cases.userdata_files : Boot.listing) = inr files
                      /\ In ("example-hello" ++ ".js", code) files
                      /\ example_entry "log('hello')"
                         = legacy_entry Sample.engine Cases.first_start "example-hello" code)
  \/ (exists files n code, (inr Cases.example_files : Boot.listing) = inr files
                           /\ In (n ++ ".js", code) files
                           /\ "example-hello" = "example-" ++ n
                           /\ example_entry "log('hello')" = example_entry code).
Proof.
  exact (onInit_scripts_seeds_only_files Sample.engine (inr Cases.example_files)
           (inr Cases.userdata_files) "example-hello" (example_entry "log('hello')")
           Cases.first_start eq_refl eq_refl).
Defined.

Lemma two_scripts_named : named (scripts Sample.world_two_scripts).
Proof. intros script [<-|[<-|[]]]; reflexivity. Qed.

Lemma names_are_kept_witness :
  named (scripts (snd (App.updateScript "u" VUndefined (VStr "return 2") VUndefined
                         Sample.world_two_scripts))).
Proof.
  refine (proj1 (proj2 (names_are_kept Sample.engine Sample.world_two_scripts
                          two_scripts_named))
            "u" VUndefined (VStr "return 2") VUndefined _).
  right. split; [reflexivity|]. exists Sample.script_u. reflexivity.
Defined.
